(** * Flappy PlushPepe: the simulation core of [src/components/GameCanvas.js]

    A shallow embedding of the game loop of the current [GameCanvas.js]
    (the 576x1024 variant): the gap generator [randomGapY], the input
    handler [flap], the frame handler [loop] and the tick handler
    [update], [handleGameOver], [resetGame] and the helper
    [getFartOpacity], followed by the properties the specification
    states about them and by further properties of the code.

    Numbers.  A JavaScript number is modelled by [number]: a rational, or
    one of the three special values NaN, +Infinity, -Infinity.  Arithmetic
    on finite values is exact (no rounding, no overflow, no signed zero);
    the special values propagate as IEEE 754 prescribes.  Every constant
    of the game is a short decimal, so it is represented exactly.

    Randomness.  [Math.random()] reads the head of a stream of draws and
    leaves the tail; the stream is part of the game state.

    Storage.  [localStorage] holds the item 'best'.  Its calls succeed in
    [handleGameOver] and [update]; [update_throwing] is [update] with
    calls that may throw. *)

From Stdlib Require Import QArith Qround Qabs Lqa ZArith Lia List Bool.
Import ListNotations.

Local Open Scope Q_scope.

(* ================================================================== *)
(** ** Boolean comparisons on rationals *)

Definition Qltb (a b : Q) : bool := negb (Qle_bool b a).
Definition Qsign_pos (a : Q) : bool := Qltb 0 a.
Definition Qsign_neg (a : Q) : bool := Qltb a 0.

Definition qmax (a b : Q) : Q := if Qltb a b then b else a.
Definition qmin (a b : Q) : Q := if Qltb b a then b else a.

(* ================================================================== *)
(** ** JavaScript numbers *)

Inductive number : Type :=
| NaN
| NegInf
| Fin (q : Q)
| PosInf.

Declare Scope js_scope.
Delimit Scope js_scope with js.
Bind Scope js_scope with number.

Coercion Fin : Q >-> number.

(** Unary minus. *)
Definition nneg (a : number) : number :=
  match a with
  | NaN => NaN
  | NegInf => PosInf
  | Fin q => Fin (- q)
  | PosInf => NegInf
  end.

(** [a + b]. *)
Definition nadd (a b : number) : number :=
  match a, b with
  | NaN, _ | _, NaN => NaN
  | PosInf, NegInf | NegInf, PosInf => NaN
  | PosInf, _ | _, PosInf => PosInf
  | NegInf, _ | _, NegInf => NegInf
  | Fin p, Fin q => Fin (p + q)
  end.

(** [a - b]. *)
Definition nsub (a b : number) : number := nadd a (nneg b).

(** Infinity times a finite factor: the sign decides, zero gives NaN. *)
Definition inf_times (positive : bool) (q : Q) : number :=
  if Qsign_pos q then (if positive then PosInf else NegInf)
  else if Qsign_neg q then (if positive then NegInf else PosInf)
  else NaN.

(** [a * b]. *)
Definition nmul (a b : number) : number :=
  match a, b with
  | NaN, _ | _, NaN => NaN
  | PosInf, PosInf | NegInf, NegInf => PosInf
  | PosInf, NegInf | NegInf, PosInf => NegInf
  | PosInf, Fin q | Fin q, PosInf => inf_times true q
  | NegInf, Fin q | Fin q, NegInf => inf_times false q
  | Fin p, Fin q => Fin (p * q)
  end.

(** [a < b]; every comparison with NaN is false. *)
Definition nlt (a b : number) : bool :=
  match a, b with
  | NaN, _ | _, NaN => false
  | _, NegInf => false
  | NegInf, _ => true
  | PosInf, _ => false
  | Fin _, PosInf => true
  | Fin p, Fin q => Qltb p q
  end.

(** [a <= b]. *)
Definition nle (a b : number) : bool :=
  match a, b with
  | NaN, _ | _, NaN => false
  | NegInf, _ => true
  | _, PosInf => true
  | _, NegInf => false
  | PosInf, _ => false
  | Fin p, Fin q => Qle_bool p q
  end.

(** [a > b] and [a >= b]. *)
Definition ngt (a b : number) : bool := nlt b a.
Definition nge (a b : number) : bool := nle b a.

(** [Math.max(a, b)] and [Math.min(a, b)]: NaN if either argument is. *)
Definition Math_max (a b : number) : number :=
  match a, b with
  | NaN, _ | _, NaN => NaN
  | PosInf, _ | _, PosInf => PosInf
  | NegInf, c | c, NegInf => c
  | Fin p, Fin q => Fin (qmax p q)
  end.

Definition Math_min (a b : number) : number :=
  match a, b with
  | NaN, _ | _, NaN => NaN
  | NegInf, _ | _, NegInf => NegInf
  | PosInf, c | c, PosInf => c
  | Fin p, Fin q => Fin (qmin p q)
  end.

(** [Math.abs(a)]. *)
Definition Math_abs (a : number) : number :=
  match a with
  | NaN => NaN
  | NegInf | PosInf => PosInf
  | Fin q => Fin (Qabs q)
  end.

(** [Math.floor(a)]. *)
Definition Math_floor (a : number) : number :=
  match a with
  | Fin q => Fin (inject_Z (Qfloor q))
  | other => other
  end.

(** [a / b].  Signed zeros are not modelled: a zero divisor acts as +0. *)
Definition ndiv (a b : number) : number :=
  match a, b with
  | NaN, _ | _, NaN => NaN
  | (PosInf | NegInf), (PosInf | NegInf) => NaN
  | PosInf, Fin q => if Qsign_neg q then NegInf else PosInf
  | NegInf, Fin q => if Qsign_neg q then PosInf else NegInf
  | Fin _, (PosInf | NegInf) => Fin 0
  | Fin p, Fin q =>
      if Qeq_bool q 0 then
        if Qsign_pos p then PosInf else if Qsign_neg p then NegInf else NaN
      else Fin (p / q)
  end.

Infix "+" := nadd : js_scope.
Infix "-" := nsub : js_scope.
Infix "*" := nmul : js_scope.
Infix "/" := ndiv : js_scope.
Infix "<?" := nlt (at level 70, no associativity) : js_scope.
Infix "<=?" := nle (at level 70, no associativity) : js_scope.
Infix ">?" := ngt (at level 70, no associativity) : js_scope.
Infix ">=?" := nge (at level 70, no associativity) : js_scope.

(** Equality of numbers as values: rationals up to [==]; NaN is related
    to itself here (this is equality of the model, not the [===] of
    JavaScript). *)
Definition same_number (a b : number) : Prop :=
  match a, b with
  | NaN, NaN | NegInf, NegInf | PosInf, PosInf => True
  | Fin p, Fin q => p == q
  | _, _ => False
  end.

(* ================================================================== *)
(** ** [Math.random()] *)

(** The generator state: the draws still to come. *)
Definition RNG : Type := nat -> Q.

(** A computation that may call [Math.random()]. *)
Definition Rand (A : Type) : Type := RNG -> A * RNG.

Definition ret {A} (a : A) : Rand A := fun g => (a, g).

Definition bind {A B} (m : Rand A) (k : A -> Rand B) : Rand B :=
  fun g => let (a, g') := m g in k a g'.

Notation "x <- m ;; k" := (bind m (fun x => k))
  (at level 61, m at next level, right associativity).

Definition Math_random : Rand number :=
  fun g => (Fin (g 0%nat), fun n => g (S n)).

(** Draws lie in [0, 1), as [Math.random()] promises. *)
Definition unit_draws (g : RNG) : Prop := forall n, 0 <= g n /\ g n < 1.

(* ================================================================== *)
(** ** Constants *)

Definition V_WIDTH : number := Fin 576.
Definition V_HEIGHT : number := Fin 1024.

Definition GRAVITY : number := Fin 0.4.
Definition JUMP_VELOCITY : number := Fin (-6.5).
Definition MAX_FALL_SPEED : number := Fin 12.

Definition SCROLL_SPEED : number := Fin 4.025.
Definition PIPE_INTERVAL : number := Fin 350.
Definition PIPE_GAP : number := Fin 162.5.
Definition CLOUD_SPEED : number := Fin 1.84.

Definition PLUSHPEPE_X : number := Fin 160.
Definition PLUSHPEPE_SIZE : number := Fin 96.
Definition PLUSHPEPE_HITBOX : number := Fin 48.
Definition PIPE_WIDTH : number := Fin 104.

Definition FART_DURATION : number := Fin 30.
Definition FART_FADE_IN_DURATION : number := Fin 6.
Definition FART_FADE_OUT_DURATION : number := Fin 6.

(* ================================================================== *)
(** ** [getFartOpacity] *)

Definition getFartOpacity (timeRemaining : number) : number :=
  let timeRemaining := Math_max (Fin 0) (Math_min FART_DURATION timeRemaining) in
  let timeElapsed := (FART_DURATION - timeRemaining)%js in
  if (timeElapsed <? FART_FADE_IN_DURATION)%js then
    let fadeInProgress := (timeElapsed / FART_FADE_IN_DURATION)%js in
    Math_max (Fin 0) (Math_min (Fin 1) fadeInProgress)
  else if (timeRemaining >? FART_FADE_OUT_DURATION)%js then
    Fin 1
  else
    let fadeOutProgress := (timeRemaining / FART_FADE_OUT_DURATION)%js in
    Math_max (Fin 0) (Math_min (Fin 1) fadeOutProgress).

(* ================================================================== *)
(** ** [calculatePepeManeuverability] *)

Record Maneuverability := { climb : number; fall : number }.

(** The loop variables of the simulation. *)
Record ManeuverSim := {
  maxUpwardTravel : number;
  maxDownwardTravel : number;
  position : number;
  velocity : number;
  flapsUsed : nat
}.

Definition optimalFlapInterval : nat := 18.
Definition maxFlaps : nat := 3.
Definition oneAndHalfSecondFrames : nat := 90.

(** One iteration of the [for] loop, at frame number [frame]. *)
Definition maneuver_frame (frame : nat) (s : ManeuverSim) : ManeuverSim :=
  let flapNow :=
    Nat.eqb (frame mod optimalFlapInterval) 0 && Nat.ltb (flapsUsed s) maxFlaps in
  let velocity0 := if flapNow then JUMP_VELOCITY else velocity s in
  let flapsUsed' := if flapNow then S (flapsUsed s) else flapsUsed s in
  let velocity1 := (velocity0 + GRAVITY)%js in
  let velocity2 := if (velocity1 >? MAX_FALL_SPEED)%js then MAX_FALL_SPEED else velocity1 in
  let position' := (position s + velocity2)%js in
  {| maxUpwardTravel :=
       if (position' <? maxUpwardTravel s)%js then position' else maxUpwardTravel s;
     maxDownwardTravel :=
       if (position' >? maxDownwardTravel s)%js then position' else maxDownwardTravel s;
     position := position';
     velocity := velocity2;
     flapsUsed := flapsUsed' |}.

Definition calculatePepeManeuverability : Maneuverability :=
  let start :=
    {| maxUpwardTravel := Fin 0; maxDownwardTravel := Fin 0;
       position := Fin 0; velocity := Fin 0; flapsUsed := 0 |} in
  let final := fold_left (fun s frame => maneuver_frame frame s)
                         (seq 0 oneAndHalfSecondFrames) start in
  {| climb := (Math_abs (maxUpwardTravel final) * Fin 0.85)%js;
     fall := (Math_abs (maxDownwardTravel final) * Fin 0.9)%js |}.

(* ================================================================== *)
(** ** [randomGapY] *)

Definition SCREEN_HEIGHT : number := Fin 1024.
Definition FIXED_GROUND_HEIGHT : number := Fin 224.
Definition ACTUAL_GROUND_Y : number := (SCREEN_HEIGHT - FIXED_GROUND_HEIGHT)%js.

Definition MIN_PIPE_SHAFT_HEIGHT : number := Fin 80.
Definition SAFE_MARGIN : number := Fin 50.

Definition minGapY : number := (MIN_PIPE_SHAFT_HEIGHT + SAFE_MARGIN)%js.
Definition maxGapY : number :=
  (ACTUAL_GROUND_Y - PIPE_GAP - MIN_PIPE_SHAFT_HEIGHT - SAFE_MARGIN)%js.

Definition MAX_UPWARD_DELTA : number :=
  Math_min (Fin 95) (climb calculatePepeManeuverability).
Definition MAX_DOWNWARD_DELTA : number :=
  Math_min (Fin 100) (fall calculatePepeManeuverability).

(** [finalRange = { min, max }]. *)
Record Range := { range_min : number; range_max : number }.

Definition maxAttempts : nat := 20.

(** The [do ... while] loop that draws [targetGapY].  One attempt is made
    on entry; [more] is how many further attempts the condition
    [attempts < maxAttempts] still allows, so the loop is entered with
    [more = maxAttempts - 1]. *)
Fixpoint resample (more : nat) (finalRange : Range) (previousGapY : number)
  : Rand number :=
  r <- Math_random ;;
  let rangeSize := (range_max finalRange - range_min finalRange)%js in
  let targetGapY := Math_floor (range_min finalRange + r * rangeSize)%js in
  match more with
  | O => ret targetGapY
  | S more' =>
      if (Math_abs (targetGapY - previousGapY) <? Fin 40)%js
      then resample more' finalRange previousGapY
      else ret targetGapY
  end.

(** The forcing step after the loop. *)
Definition force_delta (minReachableY maxReachableY previousGapY targetGapY : number)
  : number :=
  if (Math_abs (targetGapY - previousGapY) <? Fin 40)%js then
    let moveUp := (previousGapY - Fin 40)%js in
    let moveDown := (previousGapY + Fin 40)%js in
    if (moveUp >=? minReachableY)%js then moveUp
    else if (moveDown <=? maxReachableY)%js then moveDown
    else if (Math_abs (minReachableY - previousGapY)
               >? Math_abs (maxReachableY - previousGapY))%js
         then minReachableY else maxReachableY
  else targetGapY.

(** [randomGapY(previousGapY = null)]; [None] is the call without an
    argument. *)
Definition randomGapY (previousGapY : option number) : Rand number :=
  targetGapY <-
    match previousGapY with
    | Some previousGapY =>
        let minReachableY := Math_max minGapY (previousGapY - MAX_UPWARD_DELTA)%js in
        let maxReachableY := Math_min maxGapY (previousGapY + MAX_DOWNWARD_DELTA)%js in
        variationType <- Math_random ;;
        let finalRange :=
          if (variationType <? Fin 0.1)%js then
            let smallDelta := Fin 30 in
            {| range_min := Math_max minReachableY (previousGapY - smallDelta)%js;
               range_max := Math_min maxReachableY (previousGapY + smallDelta)%js |}
          else if (variationType <? Fin 0.4)%js then
            let mediumDelta := Fin 60 in
            {| range_min := Math_max minReachableY (previousGapY - mediumDelta)%js;
               range_max := Math_min maxReachableY (previousGapY + mediumDelta)%js |}
          else
            {| range_min := minReachableY; range_max := maxReachableY |} in
        targetGapY <- resample (pred maxAttempts) finalRange previousGapY ;;
        ret (force_delta minReachableY maxReachableY previousGapY targetGapY)
    | None =>
        let safeRangeSize := (maxGapY - minGapY)%js in
        let middleStart := (minGapY + safeRangeSize * Fin 0.25)%js in
        let middleEnd := (minGapY + safeRangeSize * Fin 0.75)%js in
        r <- Math_random ;;
        ret (Math_floor (middleStart + r * (middleEnd - middleStart))%js)
    end ;;
  let finalGapY := Math_max minGapY (Math_min maxGapY targetGapY) in
  ret finalGapY.

(** The heights the function logs before it returns. *)
Definition topPipeHeight (finalGapY : number) : number := finalGapY.
Definition bottomPipeHeight (finalGapY : number) : number :=
  (ACTUAL_GROUND_Y - (finalGapY + PIPE_GAP))%js.

(* ================================================================== *)
(** ** Game state *)

(** [plushpepe.current]. *)
Record Body := { y : number; vel : number; rot : number }.

(** An element of [pipes.current]. *)
Record Pipe := { x : number; gapY : number; scored : bool }.

(** An element of [clouds.current]. *)
Record Cloud := { cloud_x : number; cloud_y : number; cloud_speed : number }.

(** 'ready' | 'playing' | 'gameover'. *)
Inductive GameState := ready | playing | gameover.

(** Everything the handlers read and write.  [gameState] stands for both
    the React state and [gameStateRef.current], which mirrors it;
    [highScore] is the React state loaded from storage on mount and
    [localStorage_best] the stored item 'best' ([None]: no such item).
    [groundOffset] is left out: it depends on the loaded ground image
    and is only read by [draw]. *)
Record Game := {
  gameState : GameState;
  plushpepe : Body;
  pipes : list Pipe;
  globalScore : Z;
  highScore : Z;
  localStorage_best : option Z;
  clouds : list Cloud;
  cloudSpawnTimer : number;
  sharedScrollPosition : number;
  fartTimer : number;
  fartVisible : bool;
  random : RNG
}.

Definition set_vel (v : number) (b : Body) : Body :=
  {| y := y b; vel := v; rot := rot b |}.
Definition set_y (v : number) (b : Body) : Body :=
  {| y := v; vel := vel b; rot := rot b |}.
Definition set_rot (v : number) (b : Body) : Body :=
  {| y := y b; vel := vel b; rot := v |}.

Definition set_x (v : number) (p : Pipe) : Pipe :=
  {| x := v; gapY := gapY p; scored := scored p |}.
Definition set_gapY (v : number) (p : Pipe) : Pipe :=
  {| x := x p; gapY := v; scored := scored p |}.
Definition set_scored (v : bool) (p : Pipe) : Pipe :=
  {| x := x p; gapY := gapY p; scored := v |}.

Definition set_gameState (v : GameState) (g : Game) : Game :=
  {| gameState := v; plushpepe := plushpepe g; pipes := pipes g;
     globalScore := globalScore g; highScore := highScore g;
     localStorage_best := localStorage_best g; clouds := clouds g;
     cloudSpawnTimer := cloudSpawnTimer g;
     sharedScrollPosition := sharedScrollPosition g;
     fartTimer := fartTimer g; fartVisible := fartVisible g;
     random := random g |}.
Definition set_plushpepe (v : Body) (g : Game) : Game :=
  {| gameState := gameState g; plushpepe := v; pipes := pipes g;
     globalScore := globalScore g; highScore := highScore g;
     localStorage_best := localStorage_best g; clouds := clouds g;
     cloudSpawnTimer := cloudSpawnTimer g;
     sharedScrollPosition := sharedScrollPosition g;
     fartTimer := fartTimer g; fartVisible := fartVisible g;
     random := random g |}.
Definition set_pipes (v : list Pipe) (g : Game) : Game :=
  {| gameState := gameState g; plushpepe := plushpepe g; pipes := v;
     globalScore := globalScore g; highScore := highScore g;
     localStorage_best := localStorage_best g; clouds := clouds g;
     cloudSpawnTimer := cloudSpawnTimer g;
     sharedScrollPosition := sharedScrollPosition g;
     fartTimer := fartTimer g; fartVisible := fartVisible g;
     random := random g |}.
Definition set_globalScore (v : Z) (g : Game) : Game :=
  {| gameState := gameState g; plushpepe := plushpepe g; pipes := pipes g;
     globalScore := v; highScore := highScore g;
     localStorage_best := localStorage_best g; clouds := clouds g;
     cloudSpawnTimer := cloudSpawnTimer g;
     sharedScrollPosition := sharedScrollPosition g;
     fartTimer := fartTimer g; fartVisible := fartVisible g;
     random := random g |}.
Definition set_highScore (v : Z) (g : Game) : Game :=
  {| gameState := gameState g; plushpepe := plushpepe g; pipes := pipes g;
     globalScore := globalScore g; highScore := v;
     localStorage_best := localStorage_best g; clouds := clouds g;
     cloudSpawnTimer := cloudSpawnTimer g;
     sharedScrollPosition := sharedScrollPosition g;
     fartTimer := fartTimer g; fartVisible := fartVisible g;
     random := random g |}.
Definition set_localStorage_best (v : option Z) (g : Game) : Game :=
  {| gameState := gameState g; plushpepe := plushpepe g; pipes := pipes g;
     globalScore := globalScore g; highScore := highScore g;
     localStorage_best := v; clouds := clouds g;
     cloudSpawnTimer := cloudSpawnTimer g;
     sharedScrollPosition := sharedScrollPosition g;
     fartTimer := fartTimer g; fartVisible := fartVisible g;
     random := random g |}.
Definition set_clouds (v : list Cloud) (g : Game) : Game :=
  {| gameState := gameState g; plushpepe := plushpepe g; pipes := pipes g;
     globalScore := globalScore g; highScore := highScore g;
     localStorage_best := localStorage_best g; clouds := v;
     cloudSpawnTimer := cloudSpawnTimer g;
     sharedScrollPosition := sharedScrollPosition g;
     fartTimer := fartTimer g; fartVisible := fartVisible g;
     random := random g |}.
Definition set_cloudSpawnTimer (v : number) (g : Game) : Game :=
  {| gameState := gameState g; plushpepe := plushpepe g; pipes := pipes g;
     globalScore := globalScore g; highScore := highScore g;
     localStorage_best := localStorage_best g; clouds := clouds g;
     cloudSpawnTimer := v;
     sharedScrollPosition := sharedScrollPosition g;
     fartTimer := fartTimer g; fartVisible := fartVisible g;
     random := random g |}.
Definition set_sharedScrollPosition (v : number) (g : Game) : Game :=
  {| gameState := gameState g; plushpepe := plushpepe g; pipes := pipes g;
     globalScore := globalScore g; highScore := highScore g;
     localStorage_best := localStorage_best g; clouds := clouds g;
     cloudSpawnTimer := cloudSpawnTimer g;
     sharedScrollPosition := v;
     fartTimer := fartTimer g; fartVisible := fartVisible g;
     random := random g |}.
Definition set_fart (timer : number) (visible : bool) (g : Game) : Game :=
  {| gameState := gameState g; plushpepe := plushpepe g; pipes := pipes g;
     globalScore := globalScore g; highScore := highScore g;
     localStorage_best := localStorage_best g; clouds := clouds g;
     cloudSpawnTimer := cloudSpawnTimer g;
     sharedScrollPosition := sharedScrollPosition g;
     fartTimer := timer; fartVisible := visible;
     random := random g |}.
Definition set_random (v : RNG) (g : Game) : Game :=
  {| gameState := gameState g; plushpepe := plushpepe g; pipes := pipes g;
     globalScore := globalScore g; highScore := highScore g;
     localStorage_best := localStorage_best g; clouds := clouds g;
     cloudSpawnTimer := cloudSpawnTimer g;
     sharedScrollPosition := sharedScrollPosition g;
     fartTimer := fartTimer g; fartVisible := fartVisible g;
     random := v |}.

(** Run a computation that calls [Math.random()] on the game's generator. *)
Definition with_random {A} (m : Rand A) (g : Game) : A * Game :=
  let (a, rng) := m (random g) in (a, set_random rng g).

(** [a / 2]. *)
Definition half (a : number) : number := (a * Fin 0.5)%js.

(** [array[index] = v] for an index inside the array. *)
Fixpoint array_set {A} (index : nat) (v : A) (array : list A) : list A :=
  match array, index with
  | [], _ => []
  | _ :: rest, O => v :: rest
  | a :: rest, S index' => a :: array_set index' v rest
  end.

(* ================================================================== *)
(** ** [handleGameOver], [resetGame], [flap] and the first render *)

(** The updater passed to [setHighScore] runs on the current high score;
    the write of the scratch item 'test' touches no state of the game. *)
Definition handleGameOver (g : Game) : Game :=
  let currentScore := globalScore g in
  let prev := highScore g in
  let g :=
    if (currentScore >? prev)%Z
    then set_highScore currentScore (set_localStorage_best (Some currentScore) g)
    else g in
  set_gameState gameover g.

Definition spawn_body : Body :=
  {| y := (half V_HEIGHT - Fin 100)%js; vel := Fin 0; rot := Fin 0 |}.

(** The pipe array built by [resetGame]. *)
Definition reset_pipes : Rand (list Pipe) :=
  resetFirstGapY <- randomGapY None ;;
  resetSecondGapY <- randomGapY (Some resetFirstGapY) ;;
  thirdGapY <- randomGapY (Some resetSecondGapY) ;;
  ret [ {| x := (V_WIDTH + Fin 50)%js; gapY := resetFirstGapY; scored := false |};
        {| x := (V_WIDTH + Fin 50 + PIPE_INTERVAL)%js;
           gapY := resetSecondGapY; scored := false |};
        {| x := (V_WIDTH + Fin 50 + PIPE_INTERVAL * Fin 2)%js;
           gapY := thirdGapY; scored := false |} ].

Definition resetGame (g : Game) : Game :=
  let g := set_plushpepe spawn_body g in
  let (ps, g) := with_random reset_pipes g in
  let g := set_pipes ps g in
  let g := set_cloudSpawnTimer (Fin 0) (set_clouds [] g) in
  let g := set_sharedScrollPosition (Fin 0) g in
  let g := set_fart (Fin 0) false g in
  let g := set_globalScore 0%Z g in
  set_gameState ready g.

(** The pipe array of the first render: the argument of the third call is
    a call of its own, [randomGapY(randomGapY(firstGapY))]. *)
Definition initial_pipes : Rand (list Pipe) :=
  firstGapY <- randomGapY None ;;
  secondGapY <- randomGapY (Some firstGapY) ;;
  innerGapY <- randomGapY (Some firstGapY) ;;
  thirdGapY <- randomGapY (Some innerGapY) ;;
  ret [ {| x := (V_WIDTH + Fin 50)%js; gapY := firstGapY; scored := false |};
        {| x := (V_WIDTH + Fin 50 + PIPE_INTERVAL)%js;
           gapY := secondGapY; scored := false |};
        {| x := (V_WIDTH + Fin 50 + PIPE_INTERVAL * Fin 2)%js;
           gapY := thirdGapY; scored := false |} ].

(** The state after the first render of [GameCanvas]: [saved] is the
    stored item 'best' and [rng] the generator at that point. *)
Definition GameCanvas (saved : option Z) (rng : RNG) : Game :=
  let loadedScore := match saved with Some v => v | None => 0%Z end in
  let (ps, rng') := initial_pipes rng in
  {| gameState := ready;
     plushpepe := spawn_body;
     pipes := ps;
     globalScore := 0%Z;
     highScore := loadedScore;
     localStorage_best := saved;
     clouds := [];
     cloudSpawnTimer := Fin 0;
     sharedScrollPosition := Fin 0;
     fartTimer := Fin 0;
     fartVisible := false;
     random := rng' |}.

Definition flap (g : Game) : Game :=
  match gameState g with
  | ready =>
      let g := set_gameState playing g in
      let g := set_plushpepe (set_vel JUMP_VELOCITY (plushpepe g)) g in
      set_fart FART_DURATION true g
  | playing =>
      let g := set_plushpepe (set_vel JUMP_VELOCITY (plushpepe g)) g in
      set_fart FART_DURATION true g
  | gameover => resetGame g
  end.

(* ================================================================== *)
(** ** [getPipeCollisionBounds] *)

Record Bounds := { left : number; right : number; top : number; bottom : number }.
Record PipeBounds := { topPipe : Bounds; bottomPipe : Bounds }.

Definition getPipeCollisionBounds (pipe : Pipe) : PipeBounds :=
  let margin := Fin 2 in
  let groundStartY := (V_HEIGHT - FIXED_GROUND_HEIGHT)%js in
  {| topPipe :=
       {| left := (x pipe + margin)%js;
          right := (x pipe + PIPE_WIDTH - margin)%js;
          top := Fin 0;
          bottom := (gapY pipe - margin)%js |};
     bottomPipe :=
       {| left := (x pipe + margin)%js;
          right := (x pipe + PIPE_WIDTH - margin)%js;
          top := (gapY pipe + PIPE_GAP + margin)%js;
          bottom := groundStartY |} |}.

(* ================================================================== *)
(** ** [update] *)

Definition CLOUD_SPAWN_INTERVAL : number := Fin 420.
Definition CLOUD_SPAWN_VARIANCE : number := Fin 0.
Definition CLOUD_SIZE : number := Fin 64.

(** The fart timer, which runs in every game state. *)
Definition update_fart (step : number) (g : Game) : Game :=
  if fartVisible g then
    let t := (fartTimer g - step)%js in
    if (t <=? Fin 0)%js then set_fart (Fin 0) false g
    else set_fart t (fartVisible g) g
  else g.

(** "PlushPepe physics" and "PlushPepe rotation for aesthetics". *)
Definition physics (step : number) (b : Body) : Body :=
  let b := set_vel (vel b + GRAVITY * step)%js b in
  let b := if (vel b >? MAX_FALL_SPEED)%js then set_vel MAX_FALL_SPEED b else b in
  let b := set_y (y b + vel b * step)%js b in
  set_rot (Math_max (Fin (-30)) (Math_min (Fin 90) (vel b * Fin 7)%js)) b.

(** The two boundary tests. *)
Definition actualGroundY : number := (V_HEIGHT - FIXED_GROUND_HEIGHT)%js.
Definition ground_collision (b : Body) : bool :=
  (y b + PLUSHPEPE_HITBOX >=? actualGroundY)%js.
Definition ceiling_collision (b : Body) : bool := (y b <? Fin 0)%js.

(** "Cloud spawning and updates". *)
Definition update_clouds (step : number) (g : Game) : Game :=
  let g := set_cloudSpawnTimer (cloudSpawnTimer g + step)%js g in
  let (r, g) := with_random Math_random g in
  let nextSpawnTime :=
    (CLOUD_SPAWN_INTERVAL + (r * CLOUD_SPAWN_VARIANCE - half CLOUD_SPAWN_VARIANCE))%js in
  let g :=
    if (cloudSpawnTimer g >=? nextSpawnTime)%js then
      let groundLevel := (V_HEIGHT - FIXED_GROUND_HEIGHT)%js in
      let maxCloudY := (groundLevel - Fin 100 - CLOUD_SIZE)%js in
      let (r1, g) := with_random Math_random g in
      let cloudY := (r1 * (maxCloudY - Fin 50) + Fin 50)%js in
      let (r2, g) := with_random Math_random g in
      let cloud := {| cloud_x := (V_WIDTH + Fin 100)%js;
                      cloud_y := cloudY;
                      cloud_speed := (CLOUD_SPEED + (r2 * Fin 0.4 - Fin 0.2))%js |} in
      set_cloudSpawnTimer (Fin 0) (set_clouds (clouds g ++ [cloud]) g)
    else g in
  let moved :=
    map (fun c => {| cloud_x := (cloud_x c - cloud_speed c * step)%js;
                     cloud_y := cloud_y c; cloud_speed := cloud_speed c |})
        (clouds g) in
  set_clouds (filter (fun c => (cloud_x c >? Fin (-200))%js) moved) g.

(** The scoring test of one pipe, after it has moved. *)
Definition passed_threshold (pipe : Pipe) : bool :=
  negb (scored pipe) && (x pipe <? PLUSHPEPE_X - half PLUSHPEPE_HITBOX)%js.

(** The recycling test of one pipe. *)
Definition off_screen (pipe : Pipe) : bool := (x pipe + PIPE_WIDTH <? Fin 0)%js.

(** [pipes.current.reduce((rightmost, p) => p.x > rightmost.x ? p : rightmost,
    pipes.current[0])]. *)
Definition rightmost_of (array : list Pipe) (first : Pipe) : Pipe :=
  fold_left (fun rightmost p => if (x p >? x rightmost)%js then p else rightmost)
            array first.

(** The callback of the first [pipes.current.forEach], at [index].  The
    pipe object is mutated in place, so the [reduce] inside the recycling
    branch sees the array with this pipe already moved forward. *)
Definition pipe_update (step : number) (index : nat) (g : Game) : Game :=
  match nth_error (pipes g) index with
  | None => g
  | Some pipe =>
      let pipe := set_x (x pipe - SCROLL_SPEED * step)%js pipe in
      let scoring := passed_threshold pipe in
      let pipe := if scoring then set_scored true pipe else pipe in
      let g := if scoring then set_globalScore (globalScore g + 1)%Z g else g in
      if off_screen pipe then
        let count := Fin (inject_Z (Z.of_nat (length (pipes g)))) in
        let pipe := set_x (x pipe + PIPE_INTERVAL * count)%js pipe in
        let array := array_set index pipe (pipes g) in
        let rightmostPipe := rightmost_of array (nth 0 array pipe) in
        let (newGapY, g) := with_random (randomGapY (Some (gapY rightmostPipe))) g in
        let pipe := set_scored false (set_gapY newGapY pipe) in
        set_pipes (array_set index pipe array) g
      else set_pipes (array_set index pipe (pipes g)) g
  end.

(** "Pipe updates": the first [forEach]. *)
Definition update_pipes (step : number) (g : Game) : Game :=
  fold_left (fun g index => pipe_update step index g)
            (seq 0 (length (pipes g))) g.

(** The hitbox of the body used against pipes, centred in the sprite. *)
Definition hitboxOffsetX : number := half (PLUSHPEPE_SIZE - PLUSHPEPE_HITBOX)%js.
Definition hitboxOffsetY : number := half (PLUSHPEPE_SIZE - PLUSHPEPE_HITBOX)%js.
Definition plushpepeLeft : number := (PLUSHPEPE_X + hitboxOffsetX)%js.
Definition plushpepeRight : number := (PLUSHPEPE_X + hitboxOffsetX + PLUSHPEPE_HITBOX)%js.
Definition plushpepeTop (b : Body) : number := (y b + hitboxOffsetY)%js.
Definition plushpepeBottom (b : Body) : number :=
  (y b + hitboxOffsetY + PLUSHPEPE_HITBOX)%js.

Definition overlaps (b : Body) (bounds : Bounds) : bool :=
  (plushpepeRight >? left bounds)%js &&
  (plushpepeLeft <? right bounds)%js &&
  (plushpepeBottom b >? top bounds)%js &&
  (plushpepeTop b <? bottom bounds)%js.

(** The collision test of the second [forEach] for one pipe. *)
Definition pipe_collision (b : Body) (pipe : Pipe) : bool :=
  let pipeBounds := getPipeCollisionBounds pipe in
  let topPipeCollision := overlaps b (topPipe pipeBounds) in
  let bottomPipeCollision := overlaps b (bottomPipe pipeBounds) in
  topPipeCollision || bottomPipeCollision.

(** "Collision with pipes": the second [forEach]; [handleGameOver] is
    called for every pipe that is hit. *)
Definition collide_pipes (g : Game) : Game :=
  fold_left (fun g pipe =>
               if pipe_collision (plushpepe g) pipe then handleGameOver g else g)
            (pipes g) g.

Definition update (step : number) (g : Game) : Game :=
  let g := update_fart step g in
  match gameState g with
  | playing =>
      let g := set_sharedScrollPosition
                 (sharedScrollPosition g + SCROLL_SPEED * step)%js g in
      let g := set_plushpepe (physics step (plushpepe g)) g in
      if ground_collision (plushpepe g) then handleGameOver g
      else if ceiling_collision (plushpepe g) then handleGameOver g
      else
        let g := update_clouds step g in
        let g := update_pipes step g in
        collide_pipes g
  | _ => g
  end.

(* ================================================================== *)
(** ** When the storage throws *)

(** What becomes of a handler when the calls of [localStorage] may throw:
    it returns, or the exception leaves it, with the state as changed up
    to there. *)
Inductive Outcome := Returned (g : Game) | Thrown (g : Game).

(** [handleGameOver]: its first statement after the log line is
    [localStorage.setItem('test', 'working')], outside any [try]; when
    the call throws, nothing of the state has been changed yet. *)
Definition handleGameOver_throwing (storageThrows : bool) (g : Game) : Outcome :=
  if storageThrows then Thrown g else Returned (handleGameOver g).

(** The second [forEach]: an exception in the callback ends the loop. *)
Definition collide_pipes_throwing (storageThrows : bool) (g : Game) : Outcome :=
  fold_left (fun outcome pipe =>
               match outcome with
               | Returned g =>
                   if pipe_collision (plushpepe g) pipe
                   then handleGameOver_throwing storageThrows g
                   else Returned g
               | Thrown g => Thrown g
               end)
            (pipes g) (Returned g).

(** [update], with the calls of [handleGameOver] as above; nothing else
    in it can throw (arithmetic and comparisons on numbers do not). *)
Definition update_throwing (storageThrows : bool) (step : number) (g : Game) : Outcome :=
  let g := update_fart step g in
  match gameState g with
  | playing =>
      let g := set_sharedScrollPosition
                 (sharedScrollPosition g + SCROLL_SPEED * step)%js g in
      let g := set_plushpepe (physics step (plushpepe g)) g in
      if ground_collision (plushpepe g) then handleGameOver_throwing storageThrows g
      else if ceiling_collision (plushpepe g) then handleGameOver_throwing storageThrows g
      else
        let g := update_clouds step g in
        let g := update_pipes step g in
        collide_pipes_throwing storageThrows g
  | _ => Returned g
  end.

(* ================================================================== *)
(** ** [loop] *)

(** The step [loop] hands to [update]: the time since the last frame,
    capped at 32 ms and counted in frames of 16.67 ms. *)
Definition timeStep (now lastTime : number) : number :=
  let delta := Math_min (now - lastTime)%js (Fin 32) in
  (delta / Fin 16.67)%js.

(** One animation frame at time [now]: [lastTime] becomes [now] and the
    game is updated by the step between the two.  Drawing and the frame
    rate monitor read the state without changing it. *)
Definition loop (now : number) (frame : number * Game) : number * Game :=
  let (lastTime, g) := frame in
  (now, update (timeStep now lastTime) g).

(* ================================================================== *)
(** ** Auxiliary definitions used in the statements and proofs *)

(** A generator whose every draw is [q]. *)
Definition const_rng (q : Q) : RNG := fun _ => q.

(** The last statement of [randomGapY]. *)
Definition clamp_gap (targetGapY : number) : number :=
  Math_max minGapY (Math_min maxGapY targetGapY).

(** The draw a [do ... while] attempt turns into a candidate. *)
Definition candidate (lo hi r : Q) : Q := inject_Z (Qfloor (lo + r * (hi - lo))).

(** The reachable window around a previous gap [g], and the window of
    the variation tier selected by the draw [v]. *)
Definition reach_lo (g : Q) : Q := qmax (80 + 50) (g - 95).

Definition reach_hi (g : Q) : Q := qmin (1024 - 224 - 162.5 - 80 - 50) (g + 100).

Definition tier_lo (v g : Q) : Q :=
  if Qltb v 0.1 then qmax (reach_lo g) (g - 30)
  else if Qltb v 0.4 then qmax (reach_lo g) (g - 60)
  else reach_lo g.

Definition tier_hi (v g : Q) : Q :=
  if Qltb v 0.1 then qmin (reach_hi g) (g + 30)
  else if Qltb v 0.4 then qmin (reach_hi g) (g + 60)
  else reach_hi g.

(** The candidate the loop computes at attempt [k] (counted from 0) for
    a previous gap [g]: the draw [rng 0] selects the variation tier and
    the draw [rng (S k)] is the one the attempt makes. *)
Definition attempt (g : Q) (rng : RNG) (k : nat) : Q :=
  candidate (tier_lo (rng 0%nat) g) (tier_hi (rng 0%nat) g) (rng (S k)).

(** The loop condition [Math.abs(targetGapY - previousGapY) < 40] at
    attempt [k]: the candidate is too close and is drawn again. *)
Definition too_close (g : Q) (rng : RNG) (k : nat) : Prop :=
  Qabs (attempt g rng k - g) < 40.

(** Where the forcing step puts the gap when the last candidate is too
    close: 40 up if that is reachable, 40 down otherwise. *)
Definition forced_gap (g : Q) : Q :=
  if Qle_bool (reach_lo g) (g - 40) then g - 40 else g + 40.

(** [n] consecutive ticks with the same step and no input in between. *)
Fixpoint ticks (n : nat) (step : number) (g : Game) : Game :=
  match n with
  | O => g
  | S n' => update step (ticks n' step g)
  end.

(** The game right after the first render, started by one jump. *)
Definition started_game : Game := flap (GameCanvas None (const_rng 0.5)).

(** The velocity cap of the integrator on a finite velocity. *)
Definition capped (v : Q) : Q := if Qltb 12 v then 12 else v.

(** The rotation derived from a finite velocity. *)
Definition rotation_of (v : Q) : Q := qmax (-30) (qmin 90 (v * 7)).

(** Consecutive ticks, one for each step of [steps], no input in
    between. *)
Definition ticks_of (steps : list Q) (g : Game) : Game :=
  fold_left (fun g step => update (Fin step) g) steps g.

(** The started game left to fall for [n] ticks of one reference frame. *)
Definition fallen_game (n : nat) : Game := ticks n (Fin 1) started_game.

(** A game that hit the ground: 64 reference frames without a jump. *)
Definition crashed_game : Game := fallen_game 64.

(** The game in the middle of an active tick, right after "PlushPepe
    physics": scroll position and body updated, nothing else yet. *)
Definition integrated (step : number) (g : Game) : Game :=
  let g := update_fart step g in
  let g := set_sharedScrollPosition
             (sharedScrollPosition g + SCROLL_SPEED * step)%js g in
  set_plushpepe (physics step (plushpepe g)) g.

(** A pipe after the first statement of the pipe loop, [pipe.x -= ...]. *)
Definition moved (step : number) (pipe : Pipe) : Pipe :=
  set_x (x pipe - SCROLL_SPEED * step)%js pipe.

(** The pipes as this tick moves them, with no recycling applied: the
    obstacle positions a collision test placed before recycling would
    read. *)
Definition pipes_before_recycling (step : number) (g : Game) : list Pipe :=
  map (moved step) (pipes g).

(** The pipe scores in this tick: not scored yet and, once moved, left of
    the threshold [PLUSHPEPE_X - PLUSHPEPE_HITBOX / 2]. *)
Definition crosses (step : number) (pipe : Pipe) : bool :=
  passed_threshold (moved step pipe).

(** The pipe is recycled in this tick. *)
Definition recycles (step : number) (pipe : Pipe) : bool :=
  off_screen (moved step pipe).

(** How many pipes score in this tick. *)
Definition crossings (step : number) (ps : list Pipe) : Z :=
  Z.of_nat (length (filter (crosses step) ps)).

(** A pipe before and after the pipe loop of one tick, in an array of
    [total] pipes. *)
Definition pipe_after (step : number) (total : nat) (p p' : Pipe) : Prop :=
  if recycles step p
  then scored p' = false /\
       x p' = (x (moved step p) + PIPE_INTERVAL * Fin (inject_Z (Z.of_nat total)))%js
  else scored p' = (scored p || crosses step p) /\
       x p' = x (moved step p) /\
       gapY p' = gapY p.

(** A started game with the body near the top and one pipe far to the
    left of the screen (ordinary play recycles a pipe as soon as it has
    left the screen, so it does not get that far). *)
Definition stray_pipe_game : Game :=
  set_pipes [ {| x := Fin (-900); gapY := Fin 300; scored := true |};
              {| x := Fin 500; gapY := Fin 300; scored := false |};
              {| x := Fin 850; gapY := Fin 300; scored := false |} ]
    (set_plushpepe {| y := Fin 50; vel := Fin 0; rot := Fin 0 |} started_game).

(** The tick gets as far as the pipe loops: the game is playing and the
    integrated body passes the ground and ceiling tests. *)
Definition reaches_pipes (step : number) (g : Game) : bool :=
  match gameState g with
  | playing =>
      let body := physics step (plushpepe g) in
      negb (ground_collision body || ceiling_collision body)
  | _ => false
  end.

(** A started game whose first pipe is one pixel right of the scoring
    threshold, the body level with the gaps. *)
Definition scoring_game : Game :=
  set_pipes [ {| x := Fin 137; gapY := Fin 300; scored := false |};
              {| x := Fin 487; gapY := Fin 300; scored := false |};
              {| x := Fin 837; gapY := Fin 300; scored := false |} ]
    (set_plushpepe {| y := Fin 330; vel := Fin 0; rot := Fin 0 |} started_game).

(** A generator that yields the draws of [l] and then [default] for ever. *)
Definition list_rng (l : list Q) (default : Q) : RNG := fun n => nth n l default.

(** Draws under which the first render separates the third gap from the
    second: the two calls [randomGapY(firstGapY)] land on opposite ends
    of the reachable window. *)
Definition first_render_draws : RNG :=
  list_rng [0.5; 0.5; 0; 0.5; 0.999; 0.5; 0.999] 0.5.

(** A started game whose body position is NaN. *)
Definition nan_game : Game :=
  set_plushpepe {| y := NaN; vel := Fin 0; rot := Fin 0 |} started_game.

(** A started game whose body position is +Infinity. *)
Definition infinite_game : Game :=
  set_plushpepe {| y := PosInf; vel := Fin 0; rot := Fin 0 |} started_game.

(** The best score in storage, read the way the first render reads it:
    0 when there is no item. *)
Definition stored_best (g : Game) : Z :=
  match localStorage_best g with Some v => v | None => 0%Z end.

(** The high score held in memory agrees with the storage. *)
Definition best_synced (g : Game) : Prop := highScore g = stored_best g.

(** A started game with 3 points against a stored best of 2. *)
Definition record_game : Game :=
  set_globalScore 3 (set_highScore 2 (set_localStorage_best (Some 2%Z) started_game)).

(** A started game with the body low over the ground: its position is
    730, so the sprite spans 730 to 826 and the ground line is at 800. *)
Definition low_game : Game :=
  set_plushpepe {| y := Fin 730; vel := Fin 0; rot := Fin 0 |} started_game.

(** A started game with the body level with the lower edge of a gap:
    the first pipe is under the body and its gap spans 300 to 462.5. *)
Definition grazing_game : Game :=
  set_pipes [ {| x := Fin 160; gapY := Fin 300; scored := false |};
              {| x := Fin 510; gapY := Fin 300; scored := false |};
              {| x := Fin 860; gapY := Fin 300; scored := false |} ]
    (set_plushpepe {| y := Fin 400; vel := Fin 0; rot := Fin 0 |} started_game).

(** A started game one tick before its first pipe is recycled: the pipe
    has been passed and is at -101, the other two follow 350 apart. *)
Definition recycling_game : Game :=
  set_pipes [ {| x := Fin (-101); gapY := Fin 318; scored := true |};
              {| x := Fin 249; gapY := Fin 278; scored := false |};
              {| x := Fin 599; gapY := Fin 238; scored := false |} ]
    (set_globalScore 1
       (set_plushpepe {| y := Fin 330; vel := Fin 0; rot := Fin 0 |} started_game)).

(** The pipes are where play keeps them: three of them, each at a finite
    position not left of [-PIPE_WIDTH] = -104. *)
Definition pool_in_view (ps : list Pipe) : Prop :=
  length ps = 3%nat /\
  Forall (fun pipe => exists q : Q, x pipe = Fin q /\ -104 <= q) ps.

(** The games play can reach: the first render, then jumps and animation
    frames in any order, each frame at a finite time not before the time
    of the frame it follows. *)
Inductive reachable : Game -> Prop :=
| reachable_first_render (saved : option Z) (rng : RNG) :
    reachable (GameCanvas saved rng)
| reachable_flap (g : Game) :
    reachable g -> reachable (flap g)
| reachable_frame (now lastTime : Q) (g : Game) :
    lastTime <= now ->
    reachable g -> reachable (snd (loop (Fin now) (Fin lastTime, g))).

(** The gap of a pipe is finite and inside the safe range. *)
Definition gap_safe (pipe : Pipe) : Prop :=
  exists q : Q, gapY pipe = Fin q /\ 130 <= q <= 507.5.

(** Three pipes in view and 350 apart: in array order their positions
    are [a; a + 350; a + 700] or one of its two rotations. *)
Definition pool_spaced (ps : list Pipe) : Prop :=
  exists (p0 p1 p2 : Pipe) (q0 q1 q2 : Q),
    ps = [p0; p1; p2] /\
    x p0 = Fin q0 /\ x p1 = Fin q1 /\ x p2 = Fin q2 /\
    -104 <= q0 /\ -104 <= q1 /\ -104 <= q2 /\
    ((q1 == q0 + 350 /\ q2 == q0 + 700) \/
     (q1 == q0 - 700 /\ q2 == q0 - 350) \/
     (q1 == q0 + 350 /\ q2 == q0 - 350)).

(** The pipe is left of [landing]. *)
Definition left_of (landing : Q) (pipe : Pipe) : Prop :=
  exists q : Q, x pipe = Fin q /\ q < landing.

(** A game one tick before its first pipe is recycled, like
    [recycling_game], with gaps that descend by 95 from pipe to pipe and
    draws that put the next gap 40 below the one it is generated from. *)
Definition unchained_game : Game :=
  set_random (list_rng [0.5; 0.5; 0.4] 0.5)
    (set_pipes [ {| x := Fin (-101); gapY := Fin 130; scored := true |};
                 {| x := Fin 249; gapY := Fin 225; scored := false |};
                 {| x := Fin 599; gapY := Fin 320; scored := false |} ]
       (set_globalScore 1
          (set_plushpepe {| y := Fin 330; vel := Fin 0; rot := Fin 0 |} started_game))).

(** A number with its rational in lowest terms, and a simulation state
    with every number so reduced.  The game never reduces a fraction (a
    JavaScript number has one representation); these are used to follow
    long runs of the model, where unreduced fractions grow large. *)
Definition lowest_terms (a : number) : number :=
  match a with
  | Fin q => Fin (Qred q)
  | other => other
  end.

Definition lowest_terms_sim (s : ManeuverSim) : ManeuverSim :=
  {| maxUpwardTravel := lowest_terms (maxUpwardTravel s);
     maxDownwardTravel := lowest_terms (maxDownwardTravel s);
     position := lowest_terms (position s);
     velocity := lowest_terms (velocity s);
     flapsUsed := flapsUsed s |}.

(** Two simulation states holding the same values. *)
Definition same_sim (s s' : ManeuverSim) : Prop :=
  same_number (maxUpwardTravel s) (maxUpwardTravel s') /\
  same_number (maxDownwardTravel s) (maxDownwardTravel s') /\
  same_number (position s) (position s') /\
  same_number (velocity s) (velocity s') /\
  flapsUsed s = flapsUsed s'.

(** The simulation of [calculatePepeManeuverability], its state kept in
    lowest terms after every frame. *)
Definition maneuver_run (frames : list nat) (s : ManeuverSim) : ManeuverSim :=
  fold_left (fun s frame => lowest_terms_sim (maneuver_frame frame s)) frames s.

Definition maneuver_start : ManeuverSim :=
  {| maxUpwardTravel := Fin 0; maxDownwardTravel := Fin 0;
     position := Fin 0; velocity := Fin 0; flapsUsed := 0 |}.

(** Two bodies at the same position with the same velocity. *)
Definition same_body (b b' : Body) : Prop :=
  same_number (y b) (y b') /\ same_number (vel b) (vel b').

Definition lowest_terms_body (b : Body) : Body :=
  {| y := lowest_terms (y b); vel := lowest_terms (vel b); rot := rot b |}.

(** [n] steps of the integrator, the body kept in lowest terms. *)
Fixpoint physics_run (n : nat) (step : number) (b : Body) : Body :=
  match n with
  | O => b
  | S n' => lowest_terms_body (physics step (physics_run n' step b))
  end.

(* ================================================================== *)
(** * Properties *)

(** ** Reasoning about rational comparisons *)

Lemma Qltb_true (a b : Q) : Qltb a b = true <-> a < b.
Proof.
  unfold Qltb. rewrite negb_true_iff, <- not_true_iff_false, Qle_bool_iff.
  split; [apply Qnot_le_lt | apply Qlt_not_le].
Qed.

Lemma Qltb_false (a b : Q) : Qltb a b = false <-> b <= a.
Proof.
  unfold Qltb. rewrite negb_false_iff. apply Qle_bool_iff.
Qed.

Lemma Qle_bool_false (a b : Q) : Qle_bool a b = false <-> b < a.
Proof.
  rewrite <- not_true_iff_false, Qle_bool_iff.
  split; [apply Qnot_le_lt | apply Qlt_not_le].
Qed.

(** Split on the first rational comparison in sight and turn it into an
    order fact. *)
Ltac qcase :=
  let E := fresh "E" in
  match goal with
  | |- context [Qltb ?a ?b] =>
      destruct (Qltb a b) eqn:E; [apply Qltb_true in E | apply Qltb_false in E]
  | |- context [Qle_bool ?a ?b] =>
      destruct (Qle_bool a b) eqn:E; [apply Qle_bool_iff in E | apply Qle_bool_false in E]
  | _ : context [Qltb ?a ?b] |- _ =>
      destruct (Qltb a b) eqn:E; [apply Qltb_true in E | apply Qltb_false in E]
  | _ : context [Qle_bool ?a ?b] |- _ =>
      destruct (Qle_bool a b) eqn:E; [apply Qle_bool_iff in E | apply Qle_bool_false in E]
  end.

Ltac qcases := repeat qcase.

(** Arithmetic of [number] on finite operands. *)
Ltac fin := cbn [nadd nsub nneg nmul nlt nle ngt nge Math_max Math_min
                 Math_abs Math_floor half fst snd].

(** ** Equal values in different representations *)

Lemma same_number_refl (a : number) : same_number a a.
Proof. destruct a; cbn; auto. reflexivity. Qed.

Lemma same_number_sym (a b : number) : same_number a b -> same_number b a.
Proof. destruct a, b; cbn; auto. intros H. symmetry. exact H. Qed.

Lemma same_number_trans (a b c : number) :
  same_number a b -> same_number b c -> same_number a c.
Proof.
  destruct a, b, c; cbn; auto; try contradiction.
  intros H1 H2. rewrite H1. exact H2.
Qed.

Lemma lowest_terms_same (a : number) : same_number (lowest_terms a) a.
Proof. destruct a; cbn; auto. apply Qred_correct. Qed.

Lemma Qltb_compat (a a' b b' : Q) : a == a' -> b == b' -> Qltb a b = Qltb a' b'.
Proof.
  intros Ha Hb. destruct (Qltb a' b') eqn:E.
  - apply Qltb_true in E. apply Qltb_true. lra.
  - apply Qltb_false in E. apply Qltb_false. lra.
Qed.

Lemma nadd_same (a a' b b' : number) :
  same_number a a' -> same_number b b' -> same_number (a + b)%js (a' + b')%js.
Proof.
  destruct a, a', b, b'; cbn; auto; try contradiction.
  intros H1 H2. rewrite H1, H2. reflexivity.
Qed.

Lemma nlt_same (a a' b b' : number) :
  same_number a a' -> same_number b b' -> (a <? b)%js = (a' <? b')%js.
Proof.
  destruct a, a', b, b'; cbn; auto; try contradiction.
  apply Qltb_compat.
Qed.

Lemma same_number_if (c : bool) (a a' b b' : number) :
  same_number a a' -> same_number b b' ->
  same_number (if c then a else b) (if c then a' else b').
Proof. destruct c; auto. Qed.

Lemma maneuver_frame_same (frame : nat) (s s' : ManeuverSim) :
  same_sim s s' -> same_sim (maneuver_frame frame s) (maneuver_frame frame s').
Proof.
  intros (H1 & H2 & H3 & H4 & H5). unfold maneuver_frame. cbv zeta. rewrite <- H5.
  set (flapNow := (frame mod optimalFlapInterval =? 0)%nat && (flapsUsed s <? maxFlaps)%nat).
  assert (Hv0 : same_number (if flapNow then JUMP_VELOCITY else velocity s)
                            (if flapNow then JUMP_VELOCITY else velocity s')).
  { apply same_number_if; [apply same_number_refl | exact H4]. }
  set (v0 := if flapNow then JUMP_VELOCITY else velocity s) in *.
  set (v0' := if flapNow then JUMP_VELOCITY else velocity s') in *.
  assert (Hv1 : same_number (v0 + GRAVITY)%js (v0' + GRAVITY)%js).
  { apply nadd_same; [exact Hv0 | apply same_number_refl]. }
  assert (Hc : (v0 + GRAVITY >? MAX_FALL_SPEED)%js = (v0' + GRAVITY >? MAX_FALL_SPEED)%js).
  { unfold ngt. apply nlt_same; [apply same_number_refl | exact Hv1]. }
  rewrite <- Hc.
  assert (Hv2 : same_number
                  (if (v0 + GRAVITY >? MAX_FALL_SPEED)%js then MAX_FALL_SPEED
                   else (v0 + GRAVITY)%js)
                  (if (v0 + GRAVITY >? MAX_FALL_SPEED)%js then MAX_FALL_SPEED
                   else (v0' + GRAVITY)%js)).
  { apply same_number_if; [apply same_number_refl | exact Hv1]. }
  set (v2 := if (v0 + GRAVITY >? MAX_FALL_SPEED)%js then MAX_FALL_SPEED
             else (v0 + GRAVITY)%js) in *.
  set (v2' := if (v0 + GRAVITY >? MAX_FALL_SPEED)%js then MAX_FALL_SPEED
              else (v0' + GRAVITY)%js) in *.
  assert (Hp : same_number (position s + v2)%js (position s' + v2')%js).
  { apply nadd_same; assumption. }
  assert (Hup : (position s + v2 <? maxUpwardTravel s)%js
                = (position s' + v2' <? maxUpwardTravel s')%js).
  { apply nlt_same; assumption. }
  assert (Hdown : (position s + v2 >? maxDownwardTravel s)%js
                  = (position s' + v2' >? maxDownwardTravel s')%js).
  { unfold ngt. apply nlt_same; assumption. }
  unfold same_sim. cbn [maxUpwardTravel maxDownwardTravel position velocity flapsUsed].
  rewrite <- Hup, <- Hdown.
  split; [apply same_number_if; assumption|].
  split; [apply same_number_if; assumption|].
  split; [exact Hp|]. split; [exact Hv2 | reflexivity].
Qed.

Lemma lowest_terms_sim_same (s : ManeuverSim) : same_sim (lowest_terms_sim s) s.
Proof.
  unfold same_sim. cbn. repeat split; apply lowest_terms_same.
Qed.

Lemma same_sim_trans (a b c : ManeuverSim) : same_sim a b -> same_sim b c -> same_sim a c.
Proof.
  intros (A1 & A2 & A3 & A4 & A5) (B1 & B2 & B3 & B4 & B5).
  unfold same_sim. repeat split; try (eapply same_number_trans; eassumption).
  congruence.
Qed.

(** The simulation kept in lowest terms follows the simulation of the
    source. *)
Lemma maneuver_run_same (frames : list nat) (s s' : ManeuverSim) :
  same_sim s' s ->
  same_sim (maneuver_run frames s')
           (fold_left (fun s frame => maneuver_frame frame s) frames s).
Proof.
  revert s s'. induction frames as [|f frames IH]; intros s s' H; cbn [fold_left];
    [exact H|].
  apply IH. eapply same_sim_trans; [apply lowest_terms_sim_same|].
  apply maneuver_frame_same. exact H.
Qed.

(** Where the 90 frames end: 146.8 up at most, 132.2 down at most. *)
Lemma maneuver_run_end :
  maneuver_run (seq 0 oneAndHalfSecondFrames) maneuver_start
  = {| maxUpwardTravel := Fin (-734 # 5); maxDownwardTravel := Fin (661 # 5);
       position := Fin (661 # 5); velocity := Fin 12; flapsUsed := 3 |}.
Proof. lazy. reflexivity. Qed.

(** The two ranges [calculatePepeManeuverability] returns: 85% of 146.8
    and 90% of 132.2. *)
Lemma calculatePepeManeuverability_values :
  exists c f : Q,
    climb calculatePepeManeuverability = Fin c /\
    fall calculatePepeManeuverability = Fin f /\
    c == 124.78 /\ f == 118.98.
Proof.
  assert (Hstart : same_sim maneuver_start maneuver_start).
  { unfold same_sim. repeat split; reflexivity. }
  pose proof (maneuver_run_same (seq 0 oneAndHalfSecondFrames) maneuver_start
                maneuver_start Hstart) as H.
  rewrite maneuver_run_end in H.
  unfold calculatePepeManeuverability. cbv zeta. fold maneuver_start.
  revert H.
  generalize (fold_left (fun s frame => maneuver_frame frame s)
                        (seq 0 oneAndHalfSecondFrames) maneuver_start).
  intros final (Hup & Hdown & _).
  cbn [climb fall maxUpwardTravel maxDownwardTravel] in *.
  destruct (maxUpwardTravel final) as [| |up|]; cbn [same_number] in Hup;
    try contradiction.
  destruct (maxDownwardTravel final) as [| |down|]; cbn [same_number] in Hdown;
    try contradiction.
  cbn [Math_abs nmul]. do 2 eexists. split; [reflexivity|]. split; [reflexivity|].
  rewrite <- Hup, <- Hdown. split; reflexivity.
Qed.

Lemma MAX_UPWARD_DELTA_eq : MAX_UPWARD_DELTA = Fin 95.
Proof.
  destruct calculatePepeManeuverability_values as (c & f & Hc & _ & Hcv & _).
  unfold MAX_UPWARD_DELTA. rewrite Hc. cbn [Math_min]. unfold qmin.
  assert (E : Qltb c 95 = false) by (apply Qltb_false; lra).
  rewrite E. reflexivity.
Qed.

Lemma MAX_DOWNWARD_DELTA_eq : MAX_DOWNWARD_DELTA = Fin 100.
Proof.
  destruct calculatePepeManeuverability_values as (c & f & _ & Hf & _ & Hfv).
  unfold MAX_DOWNWARD_DELTA. rewrite Hf. cbn [Math_min]. unfold qmin.
  assert (E : Qltb f 100 = false) by (apply Qltb_false; lra).
  rewrite E. reflexivity.
Qed.

Lemma minGapY_eq : minGapY = Fin (80 + 50).
Proof. reflexivity. Qed.

Lemma maxGapY_eq : maxGapY = Fin (1024 - 224 - 162.5 - 80 - 50).
Proof. reflexivity. Qed.

Lemma ACTUAL_GROUND_Y_eq : ACTUAL_GROUND_Y = Fin (1024 - 224).
Proof. reflexivity. Qed.

(** Evaluate a closed goal: open the handlers down to [randomGapY], put
    the two caps of the reachable window in place of the simulation that
    yields them, and compute. *)
Ltac evaluate :=
  unfold crashed_game, fallen_game, stray_pipe_game, scoring_game, nan_game,
    infinite_game, record_game, low_game, grazing_game, recycling_game, unchained_game,
    started_game,
    ticks, flap, resetGame,
    reset_pipes, GameCanvas, initial_pipes, update, update_pipes, pipe_update,
    with_random, randomGapY;
  rewrite ?MAX_UPWARD_DELTA_eq, ?MAX_DOWNWARD_DELTA_eq;
  lazy.

(** ** The gap generator *)



Lemma clamp_gap_bounds (t : Q) :
  exists q, clamp_gap (Fin t) = Fin q /\ 130 <= q <= 507.5.
Proof.
  unfold clamp_gap. rewrite minGapY_eq, maxGapY_eq. fin.
  eexists; split; [reflexivity|].
  unfold qmax, qmin. qcases; lra.
Qed.

Lemma clamp_gap_id (t : Q) :
  130 <= t <= 507.5 -> exists q, clamp_gap (Fin t) = Fin q /\ q == t.
Proof.
  intros Ht. unfold clamp_gap. rewrite minGapY_eq, maxGapY_eq. fin.
  eexists; split; [reflexivity|].
  unfold qmax, qmin. qcases; lra.
Qed.


Lemma resample_unfold more lo hi p rng :
  resample more {| range_min := Fin lo; range_max := Fin hi |} (Fin p) rng =
  let t := candidate lo hi (rng 0%nat) in
  let rng' := fun n => rng (S n) in
  match more with
  | O => (Fin t, rng')
  | S more' =>
      if Qltb (Qabs (t - p)) 40
      then resample more' {| range_min := Fin lo; range_max := Fin hi |} (Fin p) rng'
      else (Fin t, rng')
  end.
Proof.
  destruct more; [reflexivity|].
  cbn [resample]. unfold bind, Math_random, ret.
  cbn [range_min range_max]. fin. cbv zeta. unfold candidate, Qminus.
  destruct (Qltb _ _); reflexivity.
Qed.

Lemma unit_draws_tail rng : unit_draws rng -> unit_draws (fun n => rng (S n)).
Proof. intros H n. apply H. Qed.

Lemma candidate_bounds lo hi r :
  0 <= r < 1 -> lo <= hi ->
  candidate lo hi r <= hi /\
  candidate lo hi r <= inject_Z (Qfloor hi) /\
  lo - 1 < candidate lo hi r /\
  forall m : Z, inject_Z m <= lo -> inject_Z m <= candidate lo hi r.
Proof.
  intros [Hr0 Hr1] Hle. unfold candidate.
  assert (Hs : 0 <= r * (hi - lo) <= hi - lo).
  { split.
    - apply Qmult_le_0_compat; lra.
    - rewrite <- (Qmult_1_l (hi - lo)) at 2.
      apply Qmult_le_compat_r; lra. }
  split; [|split; [|split]].
  - eapply Qle_trans; [apply Qfloor_le|]. lra.
  - rewrite <- Zle_Qle. apply Qfloor_resp_le. lra.
  - pose proof (Qlt_floor (lo + r * (hi - lo))) as Hf.
    rewrite inject_Z_plus in Hf. change (inject_Z 1) with 1 in Hf. lra.
  - intros m Hm. rewrite <- Zle_Qle.
    rewrite <- (Qfloor_Z m). apply Qfloor_resp_le. lra.
Qed.

(** What the loop returns, and how many draws it uses. *)
Lemma resample_spec more lo hi p rng :
  unit_draws rng -> lo <= hi ->
  exists (t : Q) (k : nat),
    fst (resample more {| range_min := Fin lo; range_max := Fin hi |} (Fin p) rng) = Fin t /\
    (forall n, snd (resample more {| range_min := Fin lo; range_max := Fin hi |}
                             (Fin p) rng) n = rng (k + n)%nat) /\
    (1 <= k <= S more)%nat /\
    t <= hi /\ lo - 1 < t /\
    (forall m : Z, inject_Z m <= lo -> inject_Z m <= t).
Proof.
  revert rng. induction more as [|more IH]; intros rng Hu Hle;
    rewrite resample_unfold; cbv zeta.
  - exists (candidate lo hi (rng 0%nat)), 1%nat. cbn [fst snd].
    destruct (candidate_bounds lo hi (rng 0%nat) (Hu 0%nat) Hle) as (H1 & _ & H2 & H3).
    repeat split; auto.
  - destruct (Qltb (Qabs (candidate lo hi (rng 0%nat) - p)) 40).
    + destruct (IH _ (unit_draws_tail rng Hu) Hle)
        as (t & k & Ht & Hk & Hb & H1 & H2 & H3).
      exists t, (S k). repeat split; auto; lia.
    + exists (candidate lo hi (rng 0%nat)), 1%nat. cbn [fst snd].
      destruct (candidate_bounds lo hi (rng 0%nat) (Hu 0%nat) Hle) as (H1 & _ & H2 & H3).
      repeat split; auto; lia.
Qed.

(** The loop yields a finite number whatever the draws are. *)
Lemma resample_finite more lo hi p rng :
  exists t : Q,
    fst (resample more {| range_min := Fin lo; range_max := Fin hi |} (Fin p) rng) = Fin t.
Proof.
  revert rng. induction more as [|more IH]; intros rng;
    rewrite resample_unfold; cbv zeta.
  - eexists; reflexivity.
  - destruct (Qltb _ _); [apply IH | eexists; reflexivity].
Qed.


(** The loop returns its first candidate that is 40 or more away from
    [p], or the candidate of its last attempt when there is none before;
    every attempt uses one draw. *)
Lemma resample_first more lo hi p rng :
  exists k : nat,
    (k <= more)%nat /\
    (forall j, (j < k)%nat -> Qabs (candidate lo hi (rng j) - p) < 40) /\
    ((k < more)%nat -> 40 <= Qabs (candidate lo hi (rng k) - p)) /\
    fst (resample more {| range_min := Fin lo; range_max := Fin hi |} (Fin p) rng)
    = Fin (candidate lo hi (rng k)) /\
    (forall n, snd (resample more {| range_min := Fin lo; range_max := Fin hi |}
                             (Fin p) rng) n = rng (S k + n)%nat).
Proof.
  revert rng. induction more as [|more IH]; intros rng;
    rewrite resample_unfold; cbv zeta.
  - exists 0%nat. cbn [fst snd]. repeat split; auto; intros; lia.
  - destruct (Qltb (Qabs (candidate lo hi (rng 0%nat) - p)) 40) eqn:E.
    + apply Qltb_true in E.
      destruct (IH (fun n => rng (S n))) as (k & Hk & Hbefore & Hat & Hfst & Hsnd).
      exists (S k). split; [lia|]. split; [|split; [|split]].
      * intros [|j] Hj; [exact E | apply Hbefore; lia].
      * intros Hlt. apply Hat. lia.
      * exact Hfst.
      * exact Hsnd.
    + apply Qltb_false in E. exists 0%nat. cbn [fst snd].
      split; [lia|]. split; [intros j Hj; lia|]. split; [intros _; exact E|].
      split; reflexivity.
Qed.

(** [randomGapY] with a finite previous gap, step by step. *)
Lemma randomGapY_some (g : Q) (rng : RNG) :
  randomGapY (Some (Fin g)) rng =
  let finalRange := {| range_min := Fin (tier_lo (rng 0%nat) g);
                       range_max := Fin (tier_hi (rng 0%nat) g) |} in
  let drawn := resample (pred maxAttempts) finalRange (Fin g) (fun n => rng (S n)) in
  (clamp_gap (force_delta (Fin (reach_lo g)) (Fin (reach_hi g)) (Fin g) (fst drawn)),
   snd drawn).
Proof.
  unfold randomGapY, bind, ret, Math_random.
  rewrite MAX_UPWARD_DELTA_eq, MAX_DOWNWARD_DELTA_eq, minGapY_eq, maxGapY_eq.
  fin. cbv zeta. unfold tier_lo, tier_hi, clamp_gap, reach_lo, reach_hi, Qminus.
  rewrite minGapY_eq, maxGapY_eq.
  destruct (Qltb (rng 0%nat) 0.1); [|destruct (Qltb (rng 0%nat) 0.4)];
    destruct (resample _ _ _ _); reflexivity.
Qed.

Lemma force_delta_finite (lo hi g t : Q) :
  exists q, force_delta (Fin lo) (Fin hi) (Fin g) (Fin t) = Fin q.
Proof.
  unfold force_delta. fin.
  repeat match goal with
         | |- context [if ?c then _ else _] => destruct c
         end; eexists; reflexivity.
Qed.

Lemma tier_window (v g : Q) :
  130 <= g <= 507.5 ->
  130 <= tier_lo v g /\ tier_lo v g <= tier_hi v g /\ tier_hi v g <= 507.5.
Proof.
  intros Hg. unfold tier_lo, tier_hi, reach_lo, reach_hi, qmax, qmin.
  qcases; lra.
Qed.

Lemma tier_inside_reach (v g : Q) :
  130 <= g <= 507.5 ->
  g - 95 <= tier_lo v g /\ tier_hi v g <= g + 100.
Proof.
  intros Hg. unfold tier_lo, tier_hi, reach_lo, reach_hi, qmax, qmin.
  qcases; lra.
Qed.

(** After the loop and the forcing step the candidate is 40 or more away
    from a previous gap inside the safe range, still inside that range,
    and inside the window it was in. *)
Lemma force_delta_spec (g t : Q) :
  130 <= g <= 507.5 -> 130 <= t <= 507.5 ->
  exists q, force_delta (Fin (reach_lo g)) (Fin (reach_hi g)) (Fin g) (Fin t) = Fin q /\
            130 <= q <= 507.5 /\ 40 <= Qabs (q - g) /\
            (g - 96 < t <= g + 100 -> g - 96 < q <= g + 100).
Proof.
  intros Hg Ht. unfold force_delta. fin. unfold Qminus.
  destruct (Qltb (Qabs (t + - g)) 40) eqn:E.
  - destruct (Qle_bool (reach_lo g) _) eqn:Eup.
    + apply Qle_bool_iff in Eup. eexists; split; [reflexivity|].
      revert Eup. unfold reach_lo, qmax. intros Eup. split; [|split].
      * qcases; lra.
      * apply Qabs_case; intros; lra.
      * intros _. lra.
    + apply Qle_bool_false in Eup.
      assert (Hdown : Qle_bool (g + 40) (reach_hi g) = true).
      { apply Qle_bool_iff. revert Eup. unfold reach_lo, reach_hi, qmax, qmin.
        intros Eup. qcases; lra. }
      rewrite Hdown. eexists; split; [reflexivity|].
      apply Qle_bool_iff in Hdown. revert Hdown. unfold reach_hi, qmin.
      intros Hdown. split; [|split].
      * qcases; lra.
      * apply Qabs_case; intros; lra.
      * intros _. lra.
  - apply Qltb_false in E. exists t. auto.
Qed.

(** The forcing step leaves a candidate that is far enough alone and
    replaces one that is too close by [forced_gap]. *)
Lemma force_delta_value (g t : Q) :
  130 <= g <= 507.5 ->
  exists q, force_delta (Fin (reach_lo g)) (Fin (reach_hi g)) (Fin g) (Fin t) = Fin q /\
            (40 <= Qabs (t - g) -> q = t) /\
            (Qabs (t - g) < 40 -> q == forced_gap g).
Proof.
  intros Hg. unfold force_delta, forced_gap. fin. unfold Qminus.
  destruct (Qltb (Qabs (t + - g)) 40) eqn:E.
  - apply Qltb_true in E.
    destruct (Qle_bool (reach_lo g) _) eqn:Eup.
    + eexists; split; [reflexivity|]. split; [intros H; lra | intros _; reflexivity].
    + apply Qle_bool_false in Eup.
      assert (Hdown : Qle_bool (g + 40) (reach_hi g) = true).
      { apply Qle_bool_iff. revert Eup. unfold reach_lo, reach_hi, qmax, qmin.
        intros Eup. qcases; lra. }
      rewrite Hdown. eexists; split; [reflexivity|].
      split; [intros H; lra | intros _; reflexivity].
  - apply Qltb_false in E. exists t. split; [reflexivity|].
    split; [reflexivity | intros H; lra].
Qed.

Lemma randomGapY_none (rng : RNG) :
  exists t, randomGapY None rng = (clamp_gap (Fin t), fun n => rng (S n)).
Proof.
  unfold randomGapY, bind, ret, Math_random.
  rewrite minGapY_eq, maxGapY_eq. fin. cbv zeta.
  eexists. unfold clamp_gap. rewrite minGapY_eq, maxGapY_eq. reflexivity.
Qed.

Lemma shafts_of_gap (gap : Q) :
  130 <= gap <= 507.5 ->
  exists top bot : Q,
    topPipeHeight (Fin gap) = Fin top /\ bottomPipeHeight (Fin gap) = Fin bot /\
    80 + 50 <= top /\ 80 + 50 <= bot.
Proof.
  intros Hgap. unfold topPipeHeight, bottomPipeHeight, PIPE_GAP.
  rewrite ACTUAL_GROUND_Y_eq. fin.
  do 2 eexists. split; [reflexivity|]. split; [reflexivity|]. lra.
Qed.

Example randomGapY_first : fst (randomGapY None (const_rng 0.5)) = Fin 318.
Proof. evaluate. reflexivity. Qed.

Example randomGapY_far_above : fst (randomGapY (Some (Fin (-1000))) (const_rng 0.5)) = Fin 130.
Proof. evaluate. reflexivity. Qed.

Example randomGapY_far_below : fst (randomGapY (Some (Fin 5000)) (const_rng 0.5)) = Fin 507.5.
Proof. evaluate. reflexivity. Qed.

Example randomGapY_forced_up : fst (randomGapY (Some (Fin 318)) (const_rng 0.5)) = Fin 278.
Proof. evaluate. reflexivity. Qed.

Example randomGapY_sampled :
  fst (randomGapY (Some (Fin 318)) (list_rng [0.5; 0] 0.5)) = Fin 223.
Proof. evaluate. reflexivity. Qed.

(** C1.  Whatever the previous gap (any finite value, inside the safe
    range or not, or none) and whatever the draws, [randomGapY] returns a
    finite gap inside [[minGapY, maxGapY]] = [[130, 507.5]]; the top pipe
    (height [gap]) and the bottom pipe (from the gap's lower edge to the
    ground line at 800) are then both at least 80 + 50 high. *)
Theorem randomGapY_within_safe_range (previousGapY : option Q) (rng : RNG) :
  same_number minGapY (Fin 130) /\ same_number maxGapY (Fin 507.5) /\
  exists gap top bot : Q,
    fst (randomGapY (option_map Fin previousGapY) rng) = Fin gap /\
    130 <= gap <= 507.5 /\
    topPipeHeight (Fin gap) = Fin top /\
    bottomPipeHeight (Fin gap) = Fin bot /\
    80 + 50 <= top /\ 80 + 50 <= bot.
Proof.
  split; [reflexivity|]. split; [reflexivity|].
  assert (Hgap : exists gap, fst (randomGapY (option_map Fin previousGapY) rng) = Fin gap
                             /\ 130 <= gap <= 507.5).
  { destruct previousGapY as [g|]; cbn [option_map].
    - rewrite randomGapY_some. cbv zeta. cbn [fst].
      destruct (resample_finite (pred maxAttempts) (tier_lo (rng 0%nat) g)
                  (tier_hi (rng 0%nat) g) g (fun n => rng (S n))) as [t Ht].
      rewrite Ht.
      destruct (force_delta_finite (reach_lo g) (reach_hi g) g t) as [q Hq].
      rewrite Hq. apply clamp_gap_bounds.
    - destruct (randomGapY_none rng) as [t Ht]. rewrite Ht. cbn [fst].
      apply clamp_gap_bounds. }
  destruct Hgap as (gap & Hgap & Hrange).
  destruct (shafts_of_gap gap Hrange) as (top & bot & Htop & Hbot & H1 & H2).
  exists gap, top, bot. auto 10.
Qed.

(** C2.  For a previous gap [g] inside the safe range and draws in
    [[0, 1)], the gap returned by [randomGapY(g)] is at least 40 away
    from [g], and this is how the draws give it.  After the draw that
    selects the variation tier, the loop draws one candidate per attempt
    and stops at the first that is 40 or more away from [g]: that
    candidate is the gap returned, after [2 + k] draws when it is attempt
    [k] (counted from 0, below [maxAttempts] = 20).  When all 20
    candidates are too close, the call has used 21 draws and the forcing
    step returns [g - 40] if that is reachable and [g + 40] otherwise;
    its escape clause is never needed there, since [g - 40] is reachable
    or [g + 40] is. *)
Theorem randomGapY_min_delta (g : Q) (rng : RNG) :
  unit_draws rng -> 130 <= g <= 507.5 ->
  exists (gap : Q) (draws : nat),
    fst (randomGapY (Some (Fin g)) rng) = Fin gap /\
    40 <= Qabs (gap - g) /\
    130 <= gap <= 507.5 /\
    (forall n, snd (randomGapY (Some (Fin g)) rng) n = rng (draws + n)%nat) /\
    (2 <= draws <= 1 + maxAttempts)%nat /\
    ((Fin g - Fin 40 >=? Math_max minGapY (Fin g - MAX_UPWARD_DELTA))%js ||
     (Fin g + Fin 40 <=? Math_min maxGapY (Fin g + MAX_DOWNWARD_DELTA))%js = true) /\
    ((exists k : nat,
        (k < maxAttempts)%nat /\
        (forall j, (j < k)%nat -> too_close g rng j) /\
        ~ too_close g rng k /\
        gap == attempt g rng k /\
        draws = (2 + k)%nat) \/
     ((forall j, (j < maxAttempts)%nat -> too_close g rng j) /\
      gap == forced_gap g /\
      draws = (1 + maxAttempts)%nat)).
Proof.
  intros Hu Hg. rewrite randomGapY_some. cbv zeta. cbn [fst snd].
  destruct (tier_window (rng 0%nat) g Hg) as (Hlo & Hle & Hhi).
  destruct (resample_first (pred maxAttempts) (tier_lo (rng 0%nat) g)
              (tier_hi (rng 0%nat) g) g (fun n => rng (S n)))
    as (k & Hk & Hbefore & Hat & Ht & Hrest).
  fold (attempt g rng k) in Ht, Hat.
  rewrite Ht.
  destruct (candidate_bounds _ _ (rng (S k)) (Hu (S k)) Hle) as (Hthi & _ & _ & Htlo).
  fold (attempt g rng k) in Hthi, Htlo.
  assert (Htr : 130 <= attempt g rng k <= 507.5).
  { split; [apply (Htlo 130%Z); exact Hlo | lra]. }
  destruct (force_delta_spec g _ Hg Htr) as (q & Hq & Hqr & Hqd & _).
  destruct (force_delta_value g (attempt g rng k) Hg) as (q' & Hq' & Hfar & Hnear).
  assert (q' = q) by congruence. subst q'.
  rewrite Hq.
  destruct (clamp_gap_id q Hqr) as (gap & Hgap & Heq).
  exists gap, (S (S k)). rewrite Hgap.
  unfold maxAttempts in *. cbn [pred] in Hk, Hat.
  split; [reflexivity|].
  split; [rewrite Heq; exact Hqd|].
  split; [rewrite Heq; exact Hqr|].
  split; [intros n; rewrite Hrest; reflexivity|].
  split; [lia|].
  split.
  { rewrite MAX_UPWARD_DELTA_eq, MAX_DOWNWARD_DELTA_eq, minGapY_eq, maxGapY_eq. fin.
    apply orb_true_iff. unfold qmax, qmin.
    destruct (Qlt_le_dec g 170) as [Hs|Hs].
    - right. apply Qle_bool_iff. qcases; lra.
    - left. apply Qle_bool_iff. qcases; lra. }
  destruct (Qlt_le_dec (Qabs (attempt g rng k - g)) 40) as [Hclose|Hok].
  - right.
    assert (Hlast : k = 19%nat).
    { destruct (Nat.eq_dec k 19) as [E|E]; [exact E|].
      assert (Hlt : (k < 19)%nat) by lia. specialize (Hat Hlt). lra. }
    subst k. split; [|split].
    + intros j Hj. destruct (Nat.eq_dec j 19) as [E|E].
      * subst j. exact Hclose.
      * apply (Hbefore j). lia.
    + rewrite Heq. apply Hnear. exact Hclose.
    + reflexivity.
  - left. exists k. split; [lia|]. split; [exact Hbefore|].
    split; [unfold too_close; lra|]. split; [|reflexivity].
    rewrite Heq, (Hfar Hok). reflexivity.
Qed.

Lemma randomGapY_min_delta_witness :
  unit_draws (list_rng [0.5; 0] 0.5) /\ 130 <= 318 <= 507.5 /\
  exists (gap : Q) (draws : nat),
    fst (randomGapY (Some (Fin 318)) (list_rng [0.5; 0] 0.5)) = Fin gap /\
    gap == 223 /\ draws = 2%nat /\
    (forall n, snd (randomGapY (Some (Fin 318)) (list_rng [0.5; 0] 0.5)) n
               = list_rng [0.5; 0] 0.5 (draws + n)%nat).
Proof.
  assert (Hu : unit_draws (list_rng [0.5; 0] 0.5)).
  { intros [|[|[|n]]]; unfold list_rng; cbn [nth]; lra. }
  assert (Hg : 130 <= 318 <= 507.5) by lra.
  split; [exact Hu|]. split; [exact Hg|].
  destruct (randomGapY_min_delta 318 (list_rng [0.5; 0] 0.5) Hu Hg)
    as (gap & draws & Hgap & _ & _ & Hrest & _ & _ & Hhow).
  assert (Hfirst : ~ too_close 318 (list_rng [0.5; 0] 0.5) 0).
  { unfold too_close. intros H. revert H. lazy. intros H. discriminate H. }
  exists gap, draws. split; [exact Hgap|].
  destruct Hhow as [(k & _ & Hbefore & _ & Heq & Hdraws) | (Hall & _)].
  - destruct k as [|k].
    + split; [rewrite Heq; reflexivity|]. split; [exact Hdraws | exact Hrest].
    + exfalso. apply Hfirst. apply Hbefore. lia.
  - exfalso. apply Hfirst. apply Hall. unfold maxAttempts. lia.
Defined.

(** ** What each stage of [update] leaves untouched *)

(** Split on the tests and the pairs of a stage until it is a chain of
    field updates. *)
Ltac stage_cases :=
  repeat match goal with
         | |- context [if ?c then _ else _] => destruct c
         | |- context [let (_, _) := ?e in _] => destruct e
         | |- context [match ?e with Some _ => _ | None => _ end] => destruct e
         end.

Lemma update_fart_keeps (step : number) (g : Game) :
  gameState (update_fart step g) = gameState g /\
  plushpepe (update_fart step g) = plushpepe g /\
  pipes (update_fart step g) = pipes g /\
  globalScore (update_fart step g) = globalScore g /\
  highScore (update_fart step g) = highScore g /\
  localStorage_best (update_fart step g) = localStorage_best g.
Proof. unfold update_fart. stage_cases; repeat split. Qed.

Lemma handleGameOver_keeps (g : Game) :
  gameState (handleGameOver g) = gameover /\
  plushpepe (handleGameOver g) = plushpepe g /\
  pipes (handleGameOver g) = pipes g /\
  globalScore (handleGameOver g) = globalScore g.
Proof. unfold handleGameOver. stage_cases; repeat split. Qed.

Lemma update_clouds_keeps (step : number) (g : Game) :
  gameState (update_clouds step g) = gameState g /\
  plushpepe (update_clouds step g) = plushpepe g /\
  pipes (update_clouds step g) = pipes g /\
  globalScore (update_clouds step g) = globalScore g /\
  highScore (update_clouds step g) = highScore g /\
  localStorage_best (update_clouds step g) = localStorage_best g.
Proof.
  unfold update_clouds, with_random, Math_random. cbn [random set_cloudSpawnTimer].
  stage_cases; repeat split.
Qed.

Lemma pipe_update_keeps (step : number) (index : nat) (g : Game) :
  gameState (pipe_update step index g) = gameState g /\
  plushpepe (pipe_update step index g) = plushpepe g /\
  highScore (pipe_update step index g) = highScore g /\
  localStorage_best (pipe_update step index g) = localStorage_best g.
Proof.
  unfold pipe_update, with_random.
  destruct (nth_error (pipes g) index) as [pipe|]; [|repeat split].
  destruct (passed_threshold _), (off_screen _); cbn [random set_globalScore];
    try match goal with
        | |- context [randomGapY ?a ?r] => destruct (randomGapY a r)
        end; repeat split.
Qed.

Lemma update_pipes_keeps (step : number) (g : Game) :
  gameState (update_pipes step g) = gameState g /\
  plushpepe (update_pipes step g) = plushpepe g /\
  highScore (update_pipes step g) = highScore g /\
  localStorage_best (update_pipes step g) = localStorage_best g.
Proof.
  unfold update_pipes. generalize (seq 0 (length (pipes g))). intros indices.
  revert g. induction indices as [|i rest IH]; intros g; cbn [fold_left].
  - repeat split.
  - destruct (IH (pipe_update step i g)) as (H1 & H2 & H3 & H4).
    destruct (pipe_update_keeps step i g) as (K1 & K2 & K3 & K4).
    rewrite H1, H2, H3, H4. auto.
Qed.

Lemma collide_pipes_keeps (g : Game) :
  plushpepe (collide_pipes g) = plushpepe g /\
  pipes (collide_pipes g) = pipes g /\
  globalScore (collide_pipes g) = globalScore g.
Proof.
  unfold collide_pipes.
  set (hit := fun (g : Game) (pipe : Pipe) =>
                if pipe_collision (plushpepe g) pipe then handleGameOver g else g).
  enough (H : forall ps g0,
             plushpepe (fold_left hit ps g0) = plushpepe g0 /\
             pipes (fold_left hit ps g0) = pipes g0 /\
             globalScore (fold_left hit ps g0) = globalScore g0) by apply H.
  induction ps as [|p rest IH]; intros g0; cbn [fold_left].
  - repeat split.
  - destruct (IH (hit g0 p)) as (H1 & H2 & H3). rewrite H1, H2, H3.
    unfold hit. destruct (pipe_collision (plushpepe g0) p); [|repeat split].
    destruct (handleGameOver_keeps g0) as (_ & K1 & K2 & K3). auto.
Qed.

(** An active tick leaves the body exactly as the integrator produced
    it, whether or not the tick ends the game. *)
Lemma update_body (step : number) (g : Game) :
  gameState g = playing ->
  plushpepe (update step g) = physics step (plushpepe g).
Proof.
  intros Hplay. unfold update. cbv zeta.
  destruct (update_fart_keeps step g) as (F1 & F2 & _).
  rewrite F1, Hplay.
  cbn [plushpepe set_plushpepe set_sharedScrollPosition]. rewrite F2.
  destruct (ground_collision _); [apply handleGameOver_keeps|].
  destruct (ceiling_collision _); [apply handleGameOver_keeps|].
  match goal with
  | |- plushpepe (collide_pipes ?a) = _ =>
      destruct (collide_pipes_keeps a) as (C1 & _); rewrite C1
  end.
  match goal with
  | |- plushpepe (update_pipes _ ?a) = _ =>
      destruct (update_pipes_keeps step a) as (_ & P1 & _); rewrite P1
  end.
  match goal with
  | |- plushpepe (update_clouds _ ?a) = _ =>
      destruct (update_clouds_keeps step a) as (_ & U1 & _); rewrite U1
  end.
  reflexivity.
Qed.

(** ** The integrator *)

Lemma physics_finite (step v p : Q) (b : Body) :
  vel b = Fin v -> y b = Fin p ->
  let v' := capped (v + 0.4 * step) in
  vel (physics (Fin step) b) = Fin v' /\
  y (physics (Fin step) b) = Fin (p + v' * step) /\
  rot (physics (Fin step) b) = Fin (rotation_of v').
Proof.
  destruct b as [by0 bv br]. cbn [vel y]. intros -> ->.
  unfold physics, capped, rotation_of, GRAVITY, MAX_FALL_SPEED.
  cbn [set_vel set_y set_rot vel y rot]. fin.
  destruct (Qltb 12 (v + 0.4 * step)); cbn [set_vel set_y set_rot vel y rot]; fin;
    repeat split.
Qed.

Lemma physics_velocity (step v : Q) (b : Body) :
  vel b = Fin v ->
  vel (physics (Fin step) b) = Fin (capped (v + 0.4 * step)).
Proof.
  destruct b as [by0 bv br]. cbn [vel]. intros ->.
  unfold physics, capped, GRAVITY, MAX_FALL_SPEED.
  cbn [set_vel set_y set_rot vel y rot]. fin.
  destruct (Qltb 12 (v + 0.4 * step)); reflexivity.
Qed.

Lemma physics_ignores_rot (step r : number) (b : Body) :
  vel (physics step (set_rot r b)) = vel (physics step b) /\
  y (physics step (set_rot r b)) = y (physics step b) /\
  rot (physics step (set_rot r b)) = rot (physics step b).
Proof.
  destruct b as [by0 bv br]. unfold physics.
  cbn [set_vel set_y set_rot vel y rot].
  destruct (_ >? _)%js; repeat split.
Qed.

Lemma capped_rises (step v : Q) :
  0 < step -> v <= 12 ->
  capped (v + 0.4 * step) <= 12 /\
  (v < 12 -> v < capped (v + 0.4 * step)) /\
  (v == 12 -> capped (v + 0.4 * step) == 12).
Proof.
  intros Hs Hv. unfold capped. qcase; repeat split; intros; lra.
Qed.

(** [update] never brings a game back to 'playing'. *)
Lemma update_playing_back (step : number) (g : Game) :
  gameState (update step g) = playing -> gameState g = playing.
Proof.
  unfold update. cbv zeta.
  destruct (update_fart_keeps step g) as (F1 & _).
  rewrite F1. destruct (gameState g) eqn:E; auto; rewrite F1; intros H; discriminate H.
Qed.

Lemma capped_step (a v w : Q) :
  0 <= a -> w == qmin 12 v -> capped (w + a) == qmin 12 (v + a).
Proof.
  intros Ha Hw. unfold capped, qmin in *. qcases; lra.
Qed.

Lemma qmin_compat (c a b : Q) : a == b -> qmin c a == qmin c b.
Proof. intros H. unfold qmin. qcases; lra. Qed.

(** Velocity after [n] ticks that were all active: the closed form. *)
Lemma ticks_velocity (step v : Q) (g : Game) (n : nat) :
  0 <= step -> v <= 12 -> vel (plushpepe g) = Fin v ->
  gameState (ticks (pred n) (Fin step) g) = playing ->
  exists q, vel (plushpepe (ticks n (Fin step) g)) = Fin q /\
            q == qmin 12 (v + inject_Z (Z.of_nat n) * (0.4 * step)).
Proof.
  intros Hs Hv Hvel. induction n as [|n IH]; intros Hplay.
  - exists v. split; [exact Hvel|]. cbn [Z.of_nat]. change (inject_Z 0) with 0.
    unfold qmin. qcases; lra.
  - cbn [pred] in Hplay. cbn [ticks].
    destruct IH as (q & Hq & Heq).
    { destruct n; [exact Hplay|]. cbn [pred]. cbn [ticks] in Hplay.
      eapply update_playing_back; eauto. }
    rewrite (update_body _ _ Hplay), (physics_velocity step q _ Hq).
    eexists; split; [reflexivity|].
    rewrite (capped_step (0.4 * step) (v + inject_Z (Z.of_nat n) * (0.4 * step)) q);
      [|lra|exact Heq].
    apply qmin_compat.
    rewrite Nat2Z.inj_succ. unfold Z.succ. rewrite inject_Z_plus.
    change (inject_Z 1) with 1. ring.
Qed.

Lemma body_eq (a b : Body) :
  vel a = vel b -> y a = y b -> rot a = rot b -> a = b.
Proof. destruct a, b; cbn; intros; subst; reflexivity. Qed.

(** The first render, whatever the stored best and the draws. *)
Lemma GameCanvas_fields (saved : option Z) (rng : RNG) :
  gameState (GameCanvas saved rng) = ready /\
  plushpepe (GameCanvas saved rng) = spawn_body /\
  globalScore (GameCanvas saved rng) = 0%Z /\
  pipes (GameCanvas saved rng) = fst (initial_pipes rng).
Proof. unfold GameCanvas. destruct (initial_pipes rng). repeat split. Qed.

Lemma started_game_fields :
  gameState started_game = playing /\
  plushpepe started_game = set_vel JUMP_VELOCITY spawn_body /\
  globalScore started_game = 0%Z /\
  highScore started_game = 0%Z /\
  localStorage_best started_game = None.
Proof.
  unfold started_game, GameCanvas. destruct (initial_pipes _). repeat split.
Qed.

(** The pool and the generator after a first render whose draws are all
    0.5: every later gap is forced 40 up from the one before. *)
Lemma initial_pipes_explicit :
  initial_pipes (const_rng 0.5)
  = ([ {| x := Fin 626; gapY := Fin 318; scored := false |};
       {| x := Fin 976; gapY := Fin 278; scored := false |};
       {| x := Fin 1326; gapY := Fin 238; scored := false |} ],
     const_rng 0.5).
Proof. evaluate. reflexivity. Qed.

(** The started game, field by field. *)
Lemma started_game_explicit :
  started_game
  = {| gameState := playing;
       plushpepe := {| y := Fin 412.0; vel := Fin (-6.5); rot := Fin 0 |};
       pipes := [ {| x := Fin 626; gapY := Fin 318; scored := false |};
                  {| x := Fin 976; gapY := Fin 278; scored := false |};
                  {| x := Fin 1326; gapY := Fin 238; scored := false |} ];
       globalScore := 0%Z;
       highScore := 0%Z;
       localStorage_best := None;
       clouds := [];
       cloudSpawnTimer := Fin 0;
       sharedScrollPosition := Fin 0;
       fartTimer := Fin 30;
       fartVisible := true;
       random := const_rng 0.5 |}.
Proof.
  unfold started_game, GameCanvas. rewrite initial_pipes_explicit.
  lazy. reflexivity.
Qed.

(** Make the games built on the started game explicit. *)
Ltac concrete :=
  unfold stray_pipe_game, scoring_game, nan_game, infinite_game, record_game, low_game,
    grazing_game, recycling_game, unchained_game;
  rewrite ?started_game_explicit.

Lemma started_game_is_playing : gameState started_game = playing.
Proof. exact (proj1 started_game_fields). Qed.

Lemma started_game_body : plushpepe started_game = set_vel JUMP_VELOCITY spawn_body.
Proof. exact (proj1 (proj2 started_game_fields)). Qed.

(** The state of a game built from the started game by replacing body,
    pipes or scores. *)
Ltac still_playing := concrete; reflexivity.

Example started_game_playing :
  gameState started_game = playing /\
  vel (plushpepe started_game) = Fin (-6.5) /\
  y (plushpepe started_game) = Fin (1024 * 0.5 - 100).
Proof.
  rewrite started_game_is_playing, started_game_body. repeat split.
Qed.

Example first_tick_velocity :
  vel (plushpepe (update (Fin 1) started_game)) = Fin (-6.5 + 0.4 * 1).
Proof.
  rewrite (update_body (Fin 1) started_game started_game_is_playing), started_game_body.
  reflexivity.
Qed.

(** C3.  An active tick with a finite step runs the integrator in the
    order of the source: gravity is added to the velocity, the velocity
    is capped at [MAX_FALL_SPEED], the position advances by the capped
    velocity, and the rotation is the clamp of seven times that velocity
    to [[-30, 90]].  The rotation does not feed back: the tick yields the
    same body whatever rotation it starts with.  For a positive step and
    a velocity not above the cap, a tick raises the velocity strictly
    while it is below the cap and keeps it at the cap afterwards; after
    [n + 1] active ticks the velocity is [min(12, v + (n + 1) * 0.4 * step)]. *)
Theorem update_integrates_in_order (step v p : Q) (g : Game) :
  gameState g = playing ->
  vel (plushpepe g) = Fin v ->
  y (plushpepe g) = Fin p ->
  let body := plushpepe (update (Fin step) g) in
  let v' := capped (v + 0.4 * step) in
  (vel body = Fin v' /\ y body = Fin (p + v' * step) /\ rot body = Fin (rotation_of v')) /\
  (forall r, plushpepe (update (Fin step) (set_plushpepe (set_rot r (plushpepe g)) g))
             = body) /\
  (0 < step -> v <= 12 ->
   v' <= 12 /\ (v < 12 -> v < v') /\ (v == 12 -> v' == 12)) /\
  (0 < step -> v <= 12 -> forall n,
   gameState (ticks n (Fin step) g) = playing ->
   exists q, vel (plushpepe (ticks (S n) (Fin step) g)) = Fin q /\
             q == qmin 12 (v + inject_Z (Z.of_nat (S n)) * (0.4 * step))).
Proof.
  intros Hplay Hvel Hy body v'. subst body v'.
  rewrite (update_body _ _ Hplay).
  split; [apply physics_finite; assumption|].
  split.
  { intros r. rewrite update_body by exact Hplay.
    cbn [plushpepe set_plushpepe].
    destruct (physics_ignores_rot (Fin step) r (plushpepe g)) as (H1 & H2 & H3).
    apply body_eq; assumption. }
  split.
  { intros Hs Hv. apply capped_rises; assumption. }
  intros Hs Hv n Hn.
  apply (ticks_velocity step v g (S n)); auto. lra.
Qed.

Lemma update_integrates_in_order_witness :
  let g := started_game in
  let step := 1 in let v := -6.5 in let p := 1024 * 0.5 - 100 in
  let body := plushpepe (update (Fin step) g) in
  let v' := capped (v + 0.4 * step) in
  (vel body = Fin v' /\ y body = Fin (p + v' * step) /\ rot body = Fin (rotation_of v')) /\
  (forall r, plushpepe (update (Fin step) (set_plushpepe (set_rot r (plushpepe g)) g))
             = body) /\
  (0 < step -> v <= 12 ->
   v' <= 12 /\ (v < 12 -> v < v') /\ (v == 12 -> v' == 12)) /\
  (0 < step -> v <= 12 -> forall n,
   gameState (ticks n (Fin step) g) = playing ->
   exists q, vel (plushpepe (ticks (S n) (Fin step) g)) = Fin q /\
             q == qmin 12 (v + inject_Z (Z.of_nat (S n)) * (0.4 * step))).
Proof.
  apply (update_integrates_in_order 1 (-6.5) (1024 * 0.5 - 100) started_game);
    apply started_game_playing.
Defined.

(** ** The pipe collision test *)

(** Write a comparison in the goal with the operands [a'] and [b'],
    equal to its own. *)
Ltac qltb_as a' b' :=
  match goal with
  | |- context [Qltb ?a ?b] =>
      first [ constr_eq a a'; constr_eq b b'; fail 1
            | rewrite (Qltb_compat a a' b b') by lra ]
  end.

(** Horizontally the body occupies [[184, 232]] against every pipe. *)
Lemma hitbox_sides : plushpepeLeft = Fin (160 + (96 - 48) * 0.5)
                     /\ plushpepeRight = Fin (160 + (96 - 48) * 0.5 + 48).
Proof. split; reflexivity. Qed.

(** A pipe whose collision rectangles do not reach into [[184, 232]] is
    not hit, wherever the body and the gap are: the rectangles span
    [[x + 2, x + 102]]. *)
Lemma pipe_collision_out_of_reach (b : Body) (pipe : Pipe) (q : Q) :
  x pipe = Fin q -> q <= 82 \/ 230 <= q -> pipe_collision b pipe = false.
Proof.
  intros Hx Hq. unfold pipe_collision, overlaps, getPipeCollisionBounds.
  cbv zeta. cbn [topPipe bottomPipe left right top bottom].
  destruct hitbox_sides as (Hl & Hr). rewrite Hl, Hr, Hx.
  unfold PIPE_WIDTH. fin.
  destruct Hq as [Hq|Hq].
  - qltb_as 184 (q + 102).
    assert (E : Qltb 184 (q + 102) = false) by (apply Qltb_false; lra).
    rewrite E, !andb_false_r. reflexivity.
  - qltb_as (q + 2) 232.
    assert (E : Qltb (q + 2) 232 = false) by (apply Qltb_false; lra).
    rewrite E. reflexivity.
Qed.

(** The pipe test on a finite body position [p] against a pipe at [q]
    with its gap at [gy]: the body's hitbox is the square
    [[184, 232] x [p + 24, p + 72]], the top pipe the rectangle
    [[q + 2, q + 102] x [0, gy - 2]] and the bottom pipe
    [[q + 2, q + 102] x [gy + 164.5, 800]]; a pipe is hit when the square
    overlaps one of the two, edges excluded. *)
Lemma pipe_collision_finite (b : Body) (pipe : Pipe) (p q gy : Q) :
  y b = Fin p -> x pipe = Fin q -> gapY pipe = Fin gy ->
  pipe_collision b pipe
  = (Qltb (q + 2) 232 && Qltb 184 (q + 102)) &&
    ((Qltb 0 (p + 72) && Qltb (p + 24) (gy - 2)) ||
     (Qltb (gy + 164.5) (p + 72) && Qltb (p + 24) 800)).
Proof.
  intros Hy Hx Hg. unfold pipe_collision, overlaps, getPipeCollisionBounds.
  cbv zeta. cbn [topPipe bottomPipe left right top bottom].
  destruct hitbox_sides as (Hl & Hr). rewrite Hl, Hr, Hx, Hg.
  unfold plushpepeTop, plushpepeBottom, hitboxOffsetY, PLUSHPEPE_SIZE,
    PLUSHPEPE_HITBOX, PIPE_WIDTH, PIPE_GAP, V_HEIGHT, FIXED_GROUND_HEIGHT.
  rewrite Hy. fin.
  qltb_as (q + 2) 232. qltb_as 184 (q + 102).
  qltb_as 0 (p + 72). qltb_as (p + 24) (gy - 2).
  qltb_as (gy + 164.5) (p + 72). qltb_as (p + 24) 800.
  destruct (Qltb (q + 2) 232), (Qltb 184 (q + 102)), (Qltb 0 (p + 72)),
    (Qltb (p + 24) (gy - 2)), (Qltb (gy + 164.5) (p + 72)), (Qltb (p + 24) 800);
    reflexivity.
Qed.

(** The pipe test reads the pipe's position and gap only. *)
Lemma pipe_collision_reads (b : Body) (pipe pipe' : Pipe) :
  x pipe' = x pipe -> gapY pipe' = gapY pipe ->
  pipe_collision b pipe' = pipe_collision b pipe.
Proof.
  intros Hx Hg. unfold pipe_collision, overlaps, getPipeCollisionBounds.
  cbv zeta. cbn [topPipe bottomPipe left right top bottom].
  rewrite Hx, Hg. reflexivity.
Qed.


(** ** The order of the stages of a tick *)

Lemma handleGameOver_twice (g : Game) :
  handleGameOver (handleGameOver g) = handleGameOver g.
Proof.
  destruct g as [gs b ps score hs best cl ct sc ft fv rng].
  unfold handleGameOver. cbn [globalScore highScore].
  destruct (score >? hs)%Z eqn:E; cbn.
  - rewrite Z.gtb_ltb, Z.ltb_irrefl. reflexivity.
  - rewrite E. reflexivity.
Qed.

(** The second [forEach] as a whole: the game is over if some pipe is
    hit, and nothing else changes. *)
Lemma collide_pipes_existsb (g : Game) :
  collide_pipes g =
  if existsb (pipe_collision (plushpepe g)) (pipes g) then handleGameOver g else g.
Proof.
  unfold collide_pipes.
  set (hit := fun (g : Game) (pipe : Pipe) =>
                if pipe_collision (plushpepe g) pipe then handleGameOver g else g).
  assert (Hover : forall ps g0, fold_left hit ps (handleGameOver g0) = handleGameOver g0).
  { induction ps as [|p rest IH]; intros g0; cbn [fold_left]; [reflexivity|].
    unfold hit at 2. destruct (pipe_collision _ p); [|apply IH].
    rewrite handleGameOver_twice. apply IH. }
  generalize (pipes g). intros ps. revert g.
  induction ps as [|p rest IH]; intros g; cbn [fold_left existsb]; [reflexivity|].
  unfold hit at 2. destruct (pipe_collision (plushpepe g) p); cbn [orb].
  - apply Hover.
  - apply IH.
Qed.

Lemma update_playing (step : number) (g : Game) :
  gameState g = playing ->
  update step g =
  if ground_collision (physics step (plushpepe g)) then handleGameOver (integrated step g)
  else if ceiling_collision (physics step (plushpepe g)) then handleGameOver (integrated step g)
  else collide_pipes (update_pipes step (update_clouds step (integrated step g))).
Proof.
  intros Hplay. unfold update, integrated. cbv zeta.
  destruct (update_fart_keeps step g) as (F1 & F2 & _).
  rewrite F1, Hplay. cbn [plushpepe set_plushpepe set_sharedScrollPosition].
  rewrite F2. reflexivity.
Qed.

Lemma integrated_keeps (step : number) (g : Game) :
  gameState (integrated step g) = gameState g /\
  plushpepe (integrated step g) = physics step (plushpepe g) /\
  pipes (integrated step g) = pipes g /\
  globalScore (integrated step g) = globalScore g /\
  highScore (integrated step g) = highScore g /\
  localStorage_best (integrated step g) = localStorage_best g.
Proof.
  unfold integrated. cbv zeta.
  destruct (update_fart_keeps step g) as (F1 & F2 & F3 & F4 & F5 & F6).
  cbn. rewrite F1, F2, F3, F4, F5, F6. repeat split.
Qed.

(** The game between the two loops over the pipes. *)
Lemma pipes_updated_keeps (step : number) (g : Game) :
  let g2 := update_pipes step (update_clouds step (integrated step g)) in
  gameState g2 = gameState g /\
  plushpepe g2 = physics step (plushpepe g) /\
  highScore g2 = highScore g /\
  localStorage_best g2 = localStorage_best g.
Proof.
  cbv zeta.
  destruct (update_pipes_keeps step (update_clouds step (integrated step g)))
    as (P1 & P2 & P3 & P4).
  destruct (update_clouds_keeps step (integrated step g)) as (U1 & U2 & _ & _ & U5 & U6).
  destruct (integrated_keeps step g) as (I1 & I2 & _ & _ & I5 & I6).
  rewrite P1, P2, P3, P4, U1, U2, U5, U6, I1, I2, I5, I6. repeat split.
Qed.

(** The outcome of an active tick, stage by stage. *)
Lemma update_collision_order_aux (step : number) (g : Game) :
  gameState g = playing ->
  let body := physics step (plushpepe g) in
  let after := update step g in
  plushpepe after = body /\
  if ground_collision body || ceiling_collision body
  then gameState after = gameover /\
       pipes after = pipes g /\ globalScore after = globalScore g
  else pipes after = pipes (update_pipes step (update_clouds step (integrated step g))) /\
       gameState after =
       if existsb (pipe_collision body) (pipes after) then gameover else playing.
Proof.
  intros Hplay body after. subst body after.
  split; [apply update_body; exact Hplay|].
  rewrite (update_playing _ _ Hplay).
  destruct (integrated_keeps step g) as (I1 & I2 & I3 & I4 & _).
  destruct (handleGameOver_keeps (integrated step g)) as (H1 & H2 & H3 & H4).
  destruct (ground_collision _); cbn [orb].
  { rewrite H1, H3, H4, I3, I4. repeat split. }
  destruct (ceiling_collision _).
  { rewrite H1, H3, H4, I3, I4. repeat split. }
  destruct (pipes_updated_keeps step g) as (G1 & G2 & _).
  rewrite collide_pipes_existsb, G2.
  destruct (existsb _ _) eqn:E.
  - destruct (handleGameOver_keeps
                (update_pipes step (update_clouds step (integrated step g))))
      as (K1 & _ & K3 & _).
    rewrite K1, K3, E. split; reflexivity.
  - rewrite E, G1, Hplay. split; reflexivity.
Qed.


Example stray_pipe_recycled :
  map x (pipes (update (Fin 1) stray_pipe_game))
  = [Fin (-900 - 4.025 * 1 + 350 * inject_Z 3); Fin (500 - 4.025 * 1); Fin (850 - 4.025 * 1)].
Proof. concrete; evaluate. reflexivity. Qed.

(** The order of the two pipe loops shows only where play does not get:
    with a pipe 900 pixels left of the screen, no pipe is hit at the
    positions before recycling, the boundary tests pass, and the tick
    ends the game on the pipe it has just recycled. *)
Example stray_pipe_hit_after_recycling :
  let g := stray_pipe_game in
  let body := physics (Fin 1) (plushpepe g) in
  gameState g = playing /\
  ground_collision body = false /\ ceiling_collision body = false /\
  existsb (pipe_collision body) (pipes g) = false /\
  existsb (pipe_collision body) (pipes_before_recycling (Fin 1) g) = false /\
  gameState (update (Fin 1) g) = gameover /\
  map (pipe_collision body) (pipes (update (Fin 1) g)) = [true; false; false].
Proof. concrete; evaluate. repeat split. Qed.

Lemma update_not_playing (step : number) (g : Game) :
  gameState g <> playing -> update step g = update_fart step g.
Proof.
  intros Hn. unfold update. cbv zeta.
  destruct (update_fart_keeps step g) as (F1 & _). rewrite F1.
  destruct (gameState g); congruence.
Qed.
(** ** The jump action *)

Lemma update_gameover_stays (step : number) (g : Game) :
  gameState g = gameover -> gameState (update step g) = gameover.
Proof.
  intros H. rewrite update_not_playing by congruence.
  destruct (update_fart_keeps step g) as (F1 & _). congruence.
Qed.

Lemma update_state_cases (step : number) (g : Game) :
  gameState g = playing ->
  gameState (update step g) = playing \/ gameState (update step g) = gameover.
Proof.
  intros H. destruct (update_collision_order_aux step g H) as (_ & Hc).
  destruct (_ || _); [right; apply Hc|].
  destruct Hc as (_ & ->). destruct (existsb _ _); auto.
Qed.

Lemma ticks_state_cases (n : nat) (step : number) (g : Game) :
  gameState g = playing ->
  gameState (ticks n step g) = playing \/ gameState (ticks n step g) = gameover.
Proof.
  intros H. induction n as [|n [IH | IH]]; cbn [ticks]; auto.
  - apply update_state_cases. exact IH.
  - right. apply update_gameover_stays. exact IH.
Qed.

Lemma ticks_succ (n : nat) (step : number) (g : Game) :
  ticks (S n) step g = update step (ticks n step g).
Proof. reflexivity. Qed.

Lemma iter_succ {A} (n : nat) (f : A -> A) (a : A) :
  Nat.iter (S n) f a = f (Nat.iter n f a).
Proof. reflexivity. Qed.

(** While the game is playing the body is what the integrator alone
    makes of it. *)
Lemma ticks_body (n : nat) (step : number) (g : Game) :
  gameState (ticks n step g) = playing ->
  plushpepe (ticks n step g) = Nat.iter n (physics step) (plushpepe g).
Proof.
  induction n as [|n IH]; cbn [ticks Nat.iter nat_rect]; [reflexivity|].
  intros H. pose proof (update_playing_back _ _ H) as Hn.
  rewrite (update_body _ _ Hn), (IH Hn). reflexivity.
Qed.

Lemma nmul_same (a a' b b' : number) :
  same_number a a' -> same_number b b' -> same_number (a * b)%js (a' * b')%js.
Proof.
  assert (Hinf : forall s q q', q == q' -> inf_times s q = inf_times s q').
  { intros s q q' Hq. unfold inf_times, Qsign_pos, Qsign_neg.
    rewrite (Qltb_compat 0 0 q q'), (Qltb_compat q q' 0 0);
      [reflexivity | exact Hq | reflexivity | reflexivity | exact Hq]. }
  destruct a, a', b, b'; cbn [same_number nmul]; auto; try contradiction;
    intros H1 H2;
    try (rewrite (Hinf _ _ _ H1) || rewrite (Hinf _ _ _ H2); apply same_number_refl).
  rewrite H1, H2. reflexivity.
Qed.

Lemma physics_same (step : number) (b b' : Body) :
  same_body b b' -> same_body (physics step b) (physics step b').
Proof.
  intros (Hy & Hv). unfold same_body, physics.
  cbn [set_vel set_y set_rot vel y rot].
  assert (Hv1 : same_number (vel b + GRAVITY * step)%js (vel b' + GRAVITY * step)%js).
  { apply nadd_same; [exact Hv | apply same_number_refl]. }
  assert (Hc : (vel b + GRAVITY * step >? MAX_FALL_SPEED)%js
               = (vel b' + GRAVITY * step >? MAX_FALL_SPEED)%js).
  { unfold ngt. apply nlt_same; [apply same_number_refl | exact Hv1]. }
  rewrite <- Hc. destruct (_ >? _)%js; cbn [set_vel set_y set_rot vel y rot].
  - split; [|apply same_number_refl].
    apply nadd_same; [exact Hy | apply same_number_refl].
  - split; [|exact Hv1].
    apply nadd_same; [exact Hy|]. apply nmul_same; [exact Hv1 | apply same_number_refl].
Qed.

Lemma physics_run_same (n : nat) (step : number) (b b' : Body) :
  same_body b' b ->
  same_body (physics_run n step b') (Nat.iter n (physics step) b).
Proof.
  intros H. induction n as [|n IH]; cbn [physics_run Nat.iter nat_rect]; [exact H|].
  destruct (physics_same step _ _ IH) as (Hy & Hv).
  split; cbn [lowest_terms_body y vel];
    (eapply same_number_trans; [apply lowest_terms_same | assumption]).
Qed.

Lemma ground_collision_same (b b' : Body) :
  same_body b b' -> ground_collision b = ground_collision b'.
Proof.
  intros (Hy & _). unfold ground_collision, nge, nle.
  destruct (y b) as [| |p|], (y b') as [| |p'|]; cbn [same_number] in Hy;
    try contradiction; try reflexivity.
  cbn [nadd PLUSHPEPE_HITBOX actualGroundY V_HEIGHT FIXED_GROUND_HEIGHT nsub nneg].
  destruct (Qle_bool _ (p' + 48)) eqn:E.
  - apply Qle_bool_iff in E. apply Qle_bool_iff. lra.
  - apply Qle_bool_false in E. apply Qle_bool_false. lra.
Qed.

(** 64 reference frames after the first jump the body is on the ground,
    wherever the pipes are. *)
Example crashed_game_over : gameState crashed_game = gameover.
Proof.
  pose proof started_game_is_playing as Hplay.
  pose proof started_game_body as Hbody.
  unfold crashed_game, fallen_game. rewrite (ticks_succ 63 (Fin 1) started_game).
  destruct (ticks_state_cases 63 (Fin 1) started_game Hplay) as [H | H];
    [|apply update_gameover_stays; exact H].
  destruct (update_collision_order_aux (Fin 1) (ticks 63 (Fin 1) started_game) H)
    as (_ & Hc).
  rewrite (ticks_body 63 (Fin 1) started_game H), Hbody in Hc.
  rewrite <- (iter_succ 63 (physics (Fin 1)) (set_vel JUMP_VELOCITY spawn_body)) in Hc.
  assert (Hsame : same_body (set_vel JUMP_VELOCITY spawn_body)
                            (set_vel JUMP_VELOCITY spawn_body)).
  { split; apply same_number_refl. }
  rewrite <- (ground_collision_same _ _
                (physics_run_same 64 (Fin 1) (set_vel JUMP_VELOCITY spawn_body)
                                  (set_vel JUMP_VELOCITY spawn_body) Hsame)) in Hc.
  assert (Hground : ground_collision
                      (physics_run 64 (Fin 1) (set_vel JUMP_VELOCITY spawn_body)) = true)
    by (lazy; reflexivity).
  rewrite Hground in Hc. cbn [orb] in Hc. destruct Hc as (Hover & _). exact Hover.
Qed.

Lemma resetGame_fields (g : Game) :
  plushpepe (resetGame g) = spawn_body /\
  gameState (resetGame g) = ready /\
  globalScore (resetGame g) = 0%Z /\
  highScore (resetGame g) = highScore g /\
  localStorage_best (resetGame g) = localStorage_best g /\
  pipes (resetGame g) = fst (reset_pipes (random g)).
Proof.
  unfold resetGame, with_random. cbn [random set_plushpepe].
  destruct (reset_pipes (random g)); repeat split.
Qed.

(** C4, as stated, fails: on a finished game the jump action restarts
    the game and leaves the velocity at 0, not at [JUMP_VELOCITY]. *)
Lemma flap_on_gameover_counterexample :
  gameState crashed_game = gameover /\
  vel (plushpepe (flap crashed_game)) = Fin 0 /\
  vel (plushpepe (flap crashed_game)) <> JUMP_VELOCITY.
Proof.
  pose proof crashed_game_over as Hover.
  split; [exact Hover|].
  assert (H : vel (plushpepe (flap crashed_game)) = Fin 0).
  { unfold flap. rewrite Hover.
    destruct (resetGame_fields crashed_game) as (Hb & _). rewrite Hb. reflexivity. }
  split; [exact H|]. rewrite H. unfold JUMP_VELOCITY. intros E. discriminate E.
Qed.

(** C4, amended.  In the states 'ready' and 'playing' the jump action
    sets the velocity to exactly [JUMP_VELOCITY], whatever it was, keeps
    position and rotation, and leaves the game playing.  In the state
    'gameover' it is the restart: the body is the spawn body, with
    velocity 0, and the game is ready.  Nothing else writes the velocity
    outside the integrator: a tick leaves the body alone unless the game
    is playing, and then the body is the one the integrator yields;
    [handleGameOver] and the fart timer leave the body alone. *)
Theorem flap_sets_velocity (g : Game) :
  match gameState g with
  | ready | playing =>
      vel (plushpepe (flap g)) = JUMP_VELOCITY /\
      y (plushpepe (flap g)) = y (plushpepe g) /\
      rot (plushpepe (flap g)) = rot (plushpepe g) /\
      gameState (flap g) = playing
  | gameover =>
      plushpepe (flap g) = spawn_body /\
      vel (plushpepe (flap g)) = Fin 0 /\
      gameState (flap g) = ready
  end /\
  (forall step,
     plushpepe (update step g)
     = match gameState g with
       | playing => physics step (plushpepe g)
       | _ => plushpepe g
       end) /\
  plushpepe (handleGameOver g) = plushpepe g /\
  (forall step, plushpepe (update_fart step g) = plushpepe g).
Proof.
  split; [|split; [|split]].
  - unfold flap. destruct (gameState g) eqn:E.
    + cbn. repeat split.
    + cbn. repeat split. exact E.
    + destruct (resetGame_fields g) as (H1 & H2 & _). rewrite H1, H2. repeat split.
  - intros step. destruct (gameState g) eqn:E.
    + rewrite update_not_playing by congruence. apply update_fart_keeps.
    + apply update_body. exact E.
    + rewrite update_not_playing by congruence. apply update_fart_keeps.
  - apply handleGameOver_keeps.
  - intros step. apply update_fart_keeps.
Qed.

(** ** Scoring and recycling *)

Lemma array_set_app {A} (done : list A) (old v : A) (rest : list A) :
  array_set (length done) v (done ++ old :: rest) = done ++ v :: rest.
Proof.
  induction done as [|d done IH]; cbn [length app array_set]; [reflexivity|].
  rewrite IH. reflexivity.
Qed.

Lemma nth_error_middle {A} (done : list A) (p : A) (rest : list A) :
  nth_error (done ++ p :: rest) (length done) = Some p.
Proof.
  induction done as [|d done IH]; cbn [length app nth_error]; auto.
Qed.

(** One call of the pipe callback, on the pipe at the index it is
    called with. *)
Lemma pipe_update_at (step : number) (g : Game) (done : list Pipe) (p : Pipe)
      (rest : list Pipe) :
  pipes g = done ++ p :: rest ->
  exists p',
    pipes (pipe_update step (length done) g) = done ++ p' :: rest /\
    pipe_after step (length (pipes g)) p p' /\
    globalScore (pipe_update step (length done) g)
    = (globalScore g + if crosses step p then 1 else 0)%Z.
Proof.
  intros Hps.
  destruct g as [gs b ps score hs best cl ct sc ft fv rng].
  cbn [pipes] in Hps. subst ps.
  unfold pipe_update, pipe_after, recycles, crosses. cbn [pipes globalScore].
  rewrite nth_error_middle. fold (moved step p).
  destruct (passed_threshold (moved step p)) eqn:Epass;
    try change (off_screen (set_scored true (moved step p)))
      with (off_screen (moved step p));
    destruct (off_screen (moved step p)) eqn:Eoff;
    unfold with_random; cbn [random set_globalScore pipes];
    try match goal with
        | |- context [randomGapY ?a ?r] => destruct (randomGapY a r) as [gap rng']
        end;
    cbn [pipes set_pipes set_random set_globalScore globalScore];
    rewrite ?array_set_app;
    (eexists; split; [reflexivity|]); cbn [scored x gapY set_scored set_gapY set_x];
    rewrite ?Z.add_0_r, ?orb_false_r; repeat split.
  unfold passed_threshold in Epass. apply andb_true_iff in Epass.
  destruct Epass as [Ens _]. cbn in Ens. apply negb_true_iff in Ens.
  rewrite Ens. reflexivity.
Qed.

Lemma crossings_cons (step : number) (p : Pipe) (ps : list Pipe) :
  crossings step (p :: ps) = ((if crosses step p then 1 else 0) + crossings step ps)%Z.
Proof.
  unfold crossings. cbn [filter]. destruct (crosses step p); cbn [length]; lia.
Qed.

Lemma crossings_nonneg (step : number) (ps : list Pipe) : (0 <= crossings step ps)%Z.
Proof. unfold crossings. lia. Qed.

(** The first [forEach], from the index it has reached. *)
Lemma update_pipes_from (step : number) (rest : list Pipe) :
  forall (done : list Pipe) (g : Game),
    pipes g = done ++ rest ->
    exists rest',
      pipes (fold_left (fun g index => pipe_update step index g)
                       (seq (length done) (length rest)) g) = done ++ rest' /\
      Forall2 (pipe_after step (length (pipes g))) rest rest' /\
      globalScore (fold_left (fun g index => pipe_update step index g)
                             (seq (length done) (length rest)) g)
      = (globalScore g + crossings step rest)%Z.
Proof.
  induction rest as [|p rest IH]; intros done g Hps.
  - exists []. cbn [length seq fold_left]. unfold crossings. cbn.
    rewrite Z.add_0_r. auto.
  - cbn [length seq fold_left].
    destruct (pipe_update_at step g done p rest Hps) as (p' & Hp' & Hafter & Hscore).
    set (g1 := pipe_update step (length done) g) in *.
    assert (Hps1 : pipes g1 = (done ++ [p']) ++ rest).
    { rewrite Hp', <- app_assoc. reflexivity. }
    assert (Hlen : length (pipes g1) = length (pipes g)).
    { rewrite Hp', Hps, !length_app. reflexivity. }
    destruct (IH (done ++ [p']) g1 Hps1) as (rest' & Hrest & Hall & Hsc).
    rewrite length_app, Nat.add_comm in Hrest, Hsc. cbn [length Nat.add] in Hrest, Hsc.
    exists (p' :: rest'). rewrite Hrest, Hsc, Hscore, crossings_cons, <- app_assoc.
    rewrite Hlen in Hall.
    split; [reflexivity|]. split; [constructor; assumption | lia].
Qed.

Lemma update_pipes_scores (step : number) (g : Game) :
  Forall2 (pipe_after step (length (pipes g))) (pipes g) (pipes (update_pipes step g)) /\
  globalScore (update_pipes step g) = (globalScore g + crossings step (pipes g))%Z.
Proof.
  destruct (update_pipes_from step (pipes g) [] g eq_refl) as (rest' & H1 & H2 & H3).
  unfold update_pipes. cbn [length app] in H1, H3. rewrite H1, H3. auto.
Qed.



(** Score and pipes across one call of [update]. *)
Lemma update_scores (step : number) (g : Game) :
  globalScore (update step g)
  = (globalScore g + if reaches_pipes step g then crossings step (pipes g) else 0)%Z /\
  if reaches_pipes step g
  then Forall2 (pipe_after step (length (pipes g))) (pipes g) (pipes (update step g))
  else pipes (update step g) = pipes g.
Proof.
  unfold reaches_pipes.
  destruct (update_fart_keeps step g) as (F1 & F2 & F3 & F4 & _).
  destruct (gameState g) eqn:Egs;
    try (rewrite update_not_playing by congruence; rewrite F3, F4, Z.add_0_r; auto).
  rewrite (update_playing _ _ Egs). cbv zeta.
  destruct (integrated_keeps step g) as (I1 & I2 & I3 & I4 & _).
  destruct (handleGameOver_keeps (integrated step g)) as (_ & _ & H3 & H4).
  destruct (ground_collision _); cbn [orb negb].
  { rewrite H3, H4, I3, I4, Z.add_0_r. auto. }
  destruct (ceiling_collision _); cbn [negb].
  { rewrite H3, H4, I3, I4, Z.add_0_r. auto. }
  destruct (collide_pipes_keeps
              (update_pipes step (update_clouds step (integrated step g))))
    as (_ & C2 & C3).
  destruct (update_pipes_scores step (update_clouds step (integrated step g)))
    as (S1 & S2).
  destruct (update_clouds_keeps step (integrated step g)) as (_ & _ & U3 & U4 & _).
  rewrite C2, C3, S2, U4, I4. rewrite U3, I3 in S1. rewrite U3, I3. auto.
Qed.

Example scoring_game_tick :
  globalScore scoring_game = 0%Z /\
  globalScore (update (Fin 1) scoring_game) = 1%Z /\
  map scored (pipes (update (Fin 1) scoring_game)) = [true; false; false].
Proof.
  concrete. evaluate. repeat split.
Qed.

(** C6.  In a tick that reaches the pipe loops the score grows by the
    number of pipes that cross the threshold in it, one point each, and
    in any other call of [update] score and pipes are unchanged.  A pipe
    crosses exactly if it is not scored yet and, once moved, lies left of
    [PLUSHPEPE_X - PLUSHPEPE_HITBOX / 2]; after the loop its flag is set,
    and stays set on later ticks, unless the pipe is recycled, which
    clears the flag.  So the score never decreases under [update]; a jump
    during a session leaves score and pipes alone, and the jump that
    restarts a finished game sets the score to 0. *)
Theorem scoring_once_per_pass (step : number) (g : Game) :
  globalScore (update step g)
  = (globalScore g + if reaches_pipes step g then crossings step (pipes g) else 0)%Z /\
  (if reaches_pipes step g
   then Forall2 (pipe_after step (length (pipes g))) (pipes g) (pipes (update step g))
   else pipes (update step g) = pipes g) /\
  (forall p : Pipe,
      crosses step p
      = negb (scored p) &&
        (x p - SCROLL_SPEED * step <? PLUSHPEPE_X - half PLUSHPEPE_HITBOX)%js) /\
  (globalScore g <= globalScore (update step g))%Z /\
  match gameState g with
  | gameover => globalScore (flap g) = 0%Z
  | _ => globalScore (flap g) = globalScore g /\ pipes (flap g) = pipes g
  end.
Proof.
  destruct (update_scores step g) as (Hscore & Hpipes).
  split; [exact Hscore|]. split; [exact Hpipes|].
  split; [intros p; reflexivity|].
  split.
  { rewrite Hscore. pose proof (crossings_nonneg step (pipes g)).
    destruct (reaches_pipes step g); lia. }
  unfold flap. destruct (gameState g).
  - cbn. auto.
  - cbn. auto.
  - apply resetGame_fields.
Qed.
(** ** Recycling and the pipe test *)

(** [loop] never hands [update] more than 32 ms worth of frames. *)
Lemma timeStep_bound (now lastTime : Q) :
  exists s : Q, timeStep (Fin now) (Fin lastTime) = Fin s /\ s <= 32 / 16.67.
Proof.
  unfold timeStep. cbv zeta. fin. unfold ndiv.
  assert (E : Qeq_bool 16.67 0 = false) by reflexivity.
  rewrite E. eexists. split; [reflexivity|].
  apply Qmult_le_compat_r; [|discriminate].
  unfold qmin. qcases; lra.
Qed.

(** One pipe across the pipe loop, when it starts in view and the step
    is one [loop] can pass: it ends in view, and the pipe test gives the
    same on it as on the pipe moved and not recycled.  A pipe that is
    recycled is left of the body before and right of it after. *)
Lemma pipe_after_in_view (s q : Q) (p p' : Pipe) :
  x p = Fin q -> -104 <= q -> s <= 32 / 16.67 ->
  pipe_after (Fin s) 3 p p' ->
  (exists q', x p' = Fin q' /\ -104 <= q') /\
  forall b, pipe_collision b p' = pipe_collision b (moved (Fin s) p).
Proof.
  intros Hx Hq Hs. unfold pipe_after, recycles, off_screen.
  assert (Hm : x (moved (Fin s) p) = Fin (q - 4.025 * s)).
  { unfold moved, SCROLL_SPEED. cbn [x set_x]. rewrite Hx. reflexivity. }
  rewrite Hm. unfold PIPE_WIDTH, PIPE_INTERVAL. fin.
  assert (Hmax : 4.025 * s <= 8).
  { assert (H : 32 / 16.67 <= 1.92) by (apply Qle_bool_iff; reflexivity). lra. }
  destruct (Qltb (q - 4.025 * s + 104) 0) eqn:E.
  - apply Qltb_true in E. intros (_ & Hx').
    change (inject_Z (Z.of_nat 3)) with 3 in Hx'.
    split; [eexists; split; [exact Hx'|]; lra|].
    intros b.
    rewrite (pipe_collision_out_of_reach b p' _ Hx') by (right; lra).
    rewrite (pipe_collision_out_of_reach b (moved (Fin s) p) _ Hm) by (left; lra).
    reflexivity.
  - apply Qltb_false in E. intros (_ & Hx' & Hg').
    split; [eexists; split; [rewrite Hx'; reflexivity|]; lra|].
    intros b. apply pipe_collision_reads; [rewrite Hx', Hm; reflexivity | exact Hg'].
Qed.


Lemma pipes_after_in_view (s : Q) (ps ps' : list Pipe) :
  s <= 32 / 16.67 ->
  Forall (fun pipe => exists q : Q, x pipe = Fin q /\ -104 <= q) ps ->
  Forall2 (pipe_after (Fin s) 3) ps ps' ->
  Forall (fun pipe => exists q : Q, x pipe = Fin q /\ -104 <= q) ps' /\
  length ps' = length ps /\
  forall b, existsb (pipe_collision b) ps' = existsb (pipe_collision b) (map (moved (Fin s)) ps).
Proof.
  intros Hs Hview Hafter. induction Hafter as [|p p' ps ps' Hp Hrest IH].
  - split; [constructor|]. split; reflexivity.
  - inversion Hview as [|? ? (q & Hx & Hq) Hview']; subst.
    destruct (IH Hview') as (IH1 & IH2 & IH3).
    destruct (pipe_after_in_view s q p p' Hx Hq Hs Hp) as (Hin & Hsame).
    split; [constructor; assumption|]. split; [cbn [length]; rewrite IH2; reflexivity|].
    intros b. cbn [existsb map]. rewrite Hsame, IH3. reflexivity.
Qed.

(** An active tick on pipes in view, with a step [loop] can pass. *)
Lemma update_in_view (s : Q) (g : Game) :
  gameState g = playing -> pool_in_view (pipes g) -> s <= 32 / 16.67 ->
  let body := physics (Fin s) (plushpepe g) in
  let after := update (Fin s) g in
  pool_in_view (pipes after) /\
  gameState after
  = (if ground_collision body || ceiling_collision body
        || existsb (pipe_collision body) (pipes_before_recycling (Fin s) g)
     then gameover else playing) /\
  (ground_collision body || ceiling_collision body = false ->
   Forall2 (pipe_after (Fin s) 3) (pipes g) (pipes after) /\
   existsb (pipe_collision body) (pipes after)
   = existsb (pipe_collision body) (pipes_before_recycling (Fin s) g)).
Proof.
  intros Hplay (Hlen & Hview) Hs. cbv zeta.
  destruct (update_collision_order_aux (Fin s) g Hplay) as (_ & Hcases).
  destruct (ground_collision _ || ceiling_collision _) eqn:Ebound.
  - destruct Hcases as (Hover & Hpipes & _). rewrite Hpipes.
    split; [split; assumption|]. split; [exact Hover|]. intros H; discriminate H.
  - destruct Hcases as (Hpipes & Hstate).
    destruct (update_pipes_scores (Fin s) (update_clouds (Fin s) (integrated (Fin s) g)))
      as (Hafter & _).
    destruct (update_clouds_keeps (Fin s) (integrated (Fin s) g)) as (_ & _ & U3 & _).
    destruct (integrated_keeps (Fin s) g) as (_ & _ & I3 & _).
    rewrite <- Hpipes, U3, I3, Hlen in Hafter.
    destruct (pipes_after_in_view s _ _ Hs Hview Hafter) as (Hview' & Hlen' & Hsame).
    unfold pipes_before_recycling.
    split; [split; [rewrite Hlen'; exact Hlen | exact Hview']|].
    cbn [orb]. rewrite <- Hsame.
    split; [exact Hstate|]. intros _. split; [exact Hafter | reflexivity].
Qed.

Lemma fresh_pool_in_view (a b c : number) :
  pool_in_view
    [ {| x := (V_WIDTH + Fin 50)%js; gapY := a; scored := false |};
      {| x := (V_WIDTH + Fin 50 + PIPE_INTERVAL)%js; gapY := b; scored := false |};
      {| x := (V_WIDTH + Fin 50 + PIPE_INTERVAL * Fin 2)%js; gapY := c; scored := false |} ].
Proof.
  split; [reflexivity|].
  unfold V_WIDTH, PIPE_INTERVAL. fin.
  repeat constructor; cbn [x]; eexists; (split; [reflexivity|]); lra.
Qed.

Lemma initial_pipes_in_view (rng : RNG) : pool_in_view (fst (initial_pipes rng)).
Proof.
  unfold initial_pipes, bind, ret.
  destruct (randomGapY None rng) as [a r1].
  destruct (randomGapY (Some a) r1) as [b r2].
  destruct (randomGapY (Some a) r2) as [i r3].
  destruct (randomGapY (Some i) r3) as [c r4].
  cbn [fst]. apply fresh_pool_in_view.
Qed.

Lemma reset_pipes_in_view (rng : RNG) : pool_in_view (fst (reset_pipes rng)).
Proof.
  unfold reset_pipes, bind, ret.
  destruct (randomGapY None rng) as [a r1].
  destruct (randomGapY (Some a) r1) as [b r2].
  destruct (randomGapY (Some b) r2) as [c r3].
  cbn [fst]. apply fresh_pool_in_view.
Qed.

(** Play keeps the pipes in view: a pipe that has left the screen is
    recycled by the tick that moved it there, less than 8 pixels past
    the edge. *)
Lemma reachable_in_view (g : Game) : reachable g -> pool_in_view (pipes g).
Proof.
  induction 1 as [saved rng | g Hg IH | now lastTime g Htime Hg IH].
  - destruct (GameCanvas_fields saved rng) as (_ & _ & _ & Hp). rewrite Hp.
    apply initial_pipes_in_view.
  - unfold flap. destruct (gameState g).
    + exact IH.
    + exact IH.
    + destruct (resetGame_fields g) as (_ & _ & _ & _ & _ & Hp). rewrite Hp.
      apply reset_pipes_in_view.
  - cbn [loop snd].
    destruct (timeStep_bound now lastTime) as (s & Hstep & Hs). rewrite Hstep.
    destruct (gameState g) eqn:E.
    + rewrite update_not_playing by congruence.
      destruct (update_fart_keeps (Fin s) g) as (_ & _ & F3 & _). rewrite F3. exact IH.
    + apply (update_in_view s g E IH Hs).
    + rewrite update_not_playing by congruence.
      destruct (update_fart_keeps (Fin s) g) as (_ & _ & F3 & _). rewrite F3. exact IH.
Qed.

Lemma started_game_reachable : reachable started_game.
Proof. unfold started_game. apply reachable_flap, reachable_first_render. Qed.



(** ** The pool of pipes in play *)

Lemma randomGapY_in_range (previousGapY : option Q) (rng : RNG) :
  exists gap : Q,
    fst (randomGapY (option_map Fin previousGapY) rng) = Fin gap /\ 130 <= gap <= 507.5.
Proof.
  destruct previousGapY as [g|]; cbn [option_map].
  - rewrite randomGapY_some. cbv zeta. cbn [fst].
    destruct (resample_finite (pred maxAttempts) (tier_lo (rng 0%nat) g)
                (tier_hi (rng 0%nat) g) g (fun n => rng (S n))) as [t Ht].
    rewrite Ht.
    destruct (force_delta_finite (reach_lo g) (reach_hi g) g t) as [q Hq].
    rewrite Hq. apply clamp_gap_bounds.
  - destruct (randomGapY_none rng) as [t Ht]. rewrite Ht. cbn [fst].
    apply clamp_gap_bounds.
Qed.

Lemma Forall_array_set {A} (P : A -> Prop) (index : nat) (v : A) (array : list A) :
  Forall P array -> P v -> Forall P (array_set index v array).
Proof.
  intros Hall Hv. revert index.
  induction Hall as [|a rest Ha Hrest IH]; intros index; destruct index;
    cbn [array_set]; constructor; auto.
Qed.

Lemma Forall_nth_default {A} (P : A -> Prop) (n : nat) (l : list A) (d : A) :
  Forall P l -> P d -> P (nth n l d).
Proof.
  intros Hall Hd. revert n. induction Hall as [|a rest Ha Hrest IH]; intros n.
  - destruct n; exact Hd.
  - destruct n; cbn [nth]; auto.
Qed.

(** The [reduce] returns one of the pipes it is given. *)
Lemma rightmost_of_P (P : Pipe -> Prop) (array : list Pipe) (first : Pipe) :
  Forall P array -> P first -> P (rightmost_of array first).
Proof.
  unfold rightmost_of. intros Hall. revert first.
  induction Hall as [|p rest Hp Hrest IH]; intros first Hf; cbn [fold_left];
    [exact Hf|].
  apply IH. destruct (_ >? _)%js; assumption.
Qed.

(** The [reduce] keeps a pipe that every later pipe is left of. *)
Lemma rightmost_of_stays (array : list Pipe) (m : Pipe) (landing : Q) :
  x m = Fin landing -> Forall (left_of landing) array -> rightmost_of array m = m.
Proof.
  unfold rightmost_of. intros Hm Hall.
  induction Hall as [|p rest (q & Hq & Hlt) Hrest IH]; cbn [fold_left];
    [reflexivity|].
  rewrite Hq, Hm. unfold ngt. fin.
  assert (E : Qltb landing q = false) by (apply Qltb_false; lra).
  rewrite E. exact IH.
Qed.

(** The [reduce] finds the pipe that every other pipe is left of. *)
Lemma rightmost_of_finds (done rest : list Pipe) (m : Pipe) (landing : Q) :
  x m = Fin landing ->
  Forall (left_of landing) done -> Forall (left_of landing) rest ->
  rightmost_of (done ++ m :: rest) (nth 0 (done ++ m :: rest) m) = m.
Proof.
  intros Hm Hdone Hrest. unfold rightmost_of. rewrite fold_left_app.
  fold (rightmost_of done (nth 0 (done ++ m :: rest) m)).
  assert (Hr : left_of landing (rightmost_of done (nth 0 (done ++ m :: rest) m))
               \/ rightmost_of done (nth 0 (done ++ m :: rest) m) = m).
  { destruct done as [|d done]; [right; reflexivity|].
    left. apply rightmost_of_P; [exact Hdone|].
    cbn [app nth]. apply Forall_cons_iff in Hdone. apply Hdone. }
  cbn [fold_left].
  assert (Hstep : (if (x m >? x (rightmost_of done (nth 0 (done ++ m :: rest) m)))%js
                   then m else rightmost_of done (nth 0 (done ++ m :: rest) m)) = m).
  { destruct Hr as [(q & Hq & Hlt) | Heq].
    - rewrite Hq, Hm. unfold ngt. fin.
      assert (E : Qltb q landing = true) by (apply Qltb_true; exact Hlt).
      rewrite E. reflexivity.
    - rewrite Heq. destruct (_ >? _)%js; reflexivity. }
  rewrite Hstep. apply (rightmost_of_stays rest m landing Hm Hrest).
Qed.

(** One call of the pipe callback at the index of [p]: what becomes of
    the pipe and of the generator. *)
Lemma pipe_update_stage (s q : Q) (g : Game) (done : list Pipe) (p : Pipe)
      (rest : list Pipe) :
  pipes g = done ++ p :: rest ->
  x p = Fin q ->
  exists p',
    pipes (pipe_update (Fin s) (length done) g) = done ++ p' :: rest /\
    (recycles (Fin s) p = false ->
     x p' = Fin (q - 4.025 * s) /\ gapY p' = gapY p /\
     random (pipe_update (Fin s) (length done) g) = random g) /\
    (recycles (Fin s) p = true ->
     x p' = Fin (q - 4.025 * s + 350 * inject_Z (Z.of_nat (length (pipes g)))) /\
     scored p' = false /\
     (Forall gap_safe (pipes g) -> gap_safe p') /\
     (Forall (left_of (q - 4.025 * s + 350 * inject_Z (Z.of_nat (length (pipes g)))))
             (done ++ rest) ->
      gapY p' = fst (randomGapY (Some (gapY p)) (random g)) /\
      random (pipe_update (Fin s) (length done) g)
      = snd (randomGapY (Some (gapY p)) (random g)))).
Proof.
  intros Hps Hx.
  destruct g as [gs b ps score hs best cl ct sc ft fv rng].
  cbn [pipes] in Hps. subst ps.
  unfold pipe_update, recycles. cbn [pipes globalScore random].
  rewrite nth_error_middle. fold (moved (Fin s) p).
  assert (Hm : x (moved (Fin s) p) = Fin (q - 4.025 * s)).
  { unfold moved, SCROLL_SPEED. cbn [x set_x]. rewrite Hx. reflexivity. }
  assert (Hgm : gapY (moved (Fin s) p) = gapY p) by reflexivity.
  set (pm := if passed_threshold (moved (Fin s) p)
             then set_scored true (moved (Fin s) p) else moved (Fin s) p).
  assert (Hpm : x pm = Fin (q - 4.025 * s) /\ gapY pm = gapY p).
  { subst pm. destruct (passed_threshold _); cbn [x gapY set_scored]; auto. }
  destruct Hpm as (Hxpm & Hgpm).
  assert (Hoff : off_screen pm = off_screen (moved (Fin s) p)).
  { unfold off_screen. rewrite Hxpm, Hm. reflexivity. }
  rewrite Hoff.
  set (g1 := if passed_threshold (moved (Fin s) p)
             then set_globalScore (score + 1)%Z _ else _).
  assert (Hg1 : pipes g1 = done ++ p :: rest /\ random g1 = rng).
  { subst g1. destruct (passed_threshold _); split; reflexivity. }
  destruct Hg1 as (Hp1 & Hr1).
  destruct (off_screen (moved (Fin s) p)) eqn:Eoff.
  - (* recycled *)
    rewrite Hp1. rewrite array_set_app.
    set (landed := set_x (x pm + PIPE_INTERVAL
                          * Fin (inject_Z (Z.of_nat (length (done ++ p :: rest)))))%js pm).
    assert (Hxl : x landed
                  = Fin (q - 4.025 * s
                         + 350 * inject_Z (Z.of_nat (length (done ++ p :: rest))))).
    { subst landed. cbn [x set_x]. rewrite Hxpm. reflexivity. }
    assert (Hgl : gapY landed = gapY p) by (subst landed; cbn [gapY set_x]; exact Hgpm).
    unfold with_random. rewrite Hr1.
    destruct (randomGapY (Some (gapY (rightmost_of (done ++ landed :: rest)
                                        (nth 0 (done ++ landed :: rest) landed)))) rng)
      as [gap rng'] eqn:Egap.
    cbn [pipes set_pipes set_random random]. rewrite array_set_app.
    eexists. split; [reflexivity|].
    split; [intros H; discriminate H|]. intros _.
    cbn [x gapY scored set_scored set_gapY].
    split; [exact Hxl|]. split; [reflexivity|]. split.
    + intros Hsafe.
      assert (Hall : Forall gap_safe (done ++ landed :: rest)).
      { apply Forall_app in Hsafe. destruct Hsafe as (Hd & Hr).
        apply Forall_cons_iff in Hr. destruct Hr as ((gq & Hgq & Hrange) & Hr').
        apply Forall_app. split; [exact Hd|]. constructor; [|exact Hr'].
        exists gq. rewrite Hgl. auto. }
      assert (Hright : gap_safe (rightmost_of (done ++ landed :: rest)
                                   (nth 0 (done ++ landed :: rest) landed))).
      { apply rightmost_of_P; [exact Hall|]. apply Forall_nth_default; [exact Hall|].
        apply Forall_app in Hall. destruct Hall as (_ & Hl).
        apply Forall_cons_iff in Hl. apply Hl. }
      destruct Hright as (gq & Hgq & _). rewrite Hgq in Egap.
      destruct (randomGapY_in_range (Some gq) rng) as (v & Hv & Hrange).
      cbn [option_map] in Hv. rewrite Egap in Hv. cbn [fst] in Hv.
      exists v. auto.
    + intros Hleft. apply Forall_app in Hleft. destruct Hleft as (Hld & Hlr).
      rewrite (rightmost_of_finds done rest landed _ Hxl Hld Hlr), Hgl in Egap.
      rewrite Egap. split; reflexivity.
  - (* not recycled *)
    rewrite Hp1. cbn [pipes set_pipes random]. rewrite array_set_app.
    eexists. split; [reflexivity|].
    split; [|intros H; discriminate H]. intros _.
    split; [exact Hxpm|]. split; [exact Hgpm | exact Hr1].
Qed.

Lemma recycles_finite (s q : Q) (p : Pipe) :
  x p = Fin q -> recycles (Fin s) p = Qltb (q - 4.025 * s + 104) 0.
Proof.
  intros Hx. unfold recycles, off_screen, moved, SCROLL_SPEED, PIPE_WIDTH.
  cbn [x set_x]. rewrite Hx. reflexivity.
Qed.

Lemma update_pipes_three (step : number) (g : Game) (p0 p1 p2 : Pipe) :
  pipes g = [p0; p1; p2] ->
  update_pipes step g = pipe_update step 2 (pipe_update step 1 (pipe_update step 0 g)).
Proof. intros H. unfold update_pipes. rewrite H. reflexivity. Qed.

(** The first [forEach] on three pipes 350 apart with safe gaps, for a
    step [loop] can pass: at most one pipe is recycled, the one furthest
    left; it lands 350 right of the pipe that was furthest right, and
    its new gap is generated from its own old gap. *)
Lemma update_pipes_spaced (s : Q) (g : Game) :
  pool_spaced (pipes g) -> Forall gap_safe (pipes g) -> s <= 32 / 16.67 ->
  pool_spaced (pipes (update_pipes (Fin s) g)) /\
  Forall gap_safe (pipes (update_pipes (Fin s) g)) /\
  forall (i : nat) (p : Pipe),
    nth_error (pipes g) i = Some p -> recycles (Fin s) p = true ->
    exists p',
      nth_error (pipes (update_pipes (Fin s) g)) i = Some p' /\
      gapY p' = fst (randomGapY (Some (gapY p)) (random g)) /\
      scored p' = false.
Proof.
  intros (p0 & p1 & p2 & q0 & q1 & q2 & Hps & Hx0 & Hx1 & Hx2 & Hv0 & Hv1 & Hv2 & Hrot)
         Hsafe Hs.
  assert (Hmax : 4.025 * s <= 8).
  { assert (H : 32 / 16.67 <= 1.92) by (apply Qle_bool_iff; reflexivity). lra. }
  rewrite (update_pipes_three (Fin s) g p0 p1 p2 Hps).
  rewrite Hps in Hsafe.
  apply Forall_cons_iff in Hsafe. destruct Hsafe as (Hs0 & Hsafe).
  apply Forall_cons_iff in Hsafe. destruct Hsafe as (Hs1 & Hsafe).
  apply Forall_cons_iff in Hsafe. destruct Hsafe as (Hs2 & _).
  (* the three calls *)
  destruct (pipe_update_stage s q0 g [] p0 [p1; p2] Hps Hx0)
    as (p0' & Hp0 & Hkeep0 & Hrec0).
  cbn [length app] in Hp0, Hkeep0, Hrec0.
  set (g1 := pipe_update (Fin s) 0 g) in *.
  destruct (pipe_update_stage s q1 g1 [p0'] p1 [p2] Hp0 Hx1)
    as (p1' & Hp1 & Hkeep1 & Hrec1).
  cbn [length app] in Hp1, Hkeep1, Hrec1.
  set (g2 := pipe_update (Fin s) 1 g1) in *.
  destruct (pipe_update_stage s q2 g2 [p0'; p1'] p2 [] Hp1 Hx2)
    as (p2' & Hp2 & Hkeep2 & Hrec2).
  cbn [length app] in Hp2, Hkeep2, Hrec2.
  set (g3 := pipe_update (Fin s) 2 g2) in *.
  rewrite Hps in Hrec0. rewrite Hp0 in Hrec1. rewrite Hp1 in Hrec2.
  cbn [length] in Hrec0, Hrec1, Hrec2.
  change (inject_Z (Z.of_nat 3)) with 3 in Hrec0, Hrec1, Hrec2.
  rewrite Hps, Hp2.
  rewrite (recycles_finite s q0 p0 Hx0) in Hkeep0, Hrec0.
  rewrite (recycles_finite s q1 p1 Hx1) in Hkeep1, Hrec1.
  rewrite (recycles_finite s q2 p2 Hx2) in Hkeep2, Hrec2.
  assert (Hkept : forall (p p' : Pipe), gap_safe p -> gapY p' = gapY p -> gap_safe p').
  { intros p p' (gq & Hgq & Hrange) Hg. exists gq. rewrite Hg. auto. }
  destruct (Qltb (q0 - 4.025 * s + 104) 0) eqn:E0;
    [apply Qltb_true in E0 | apply Qltb_false in E0];
    (destruct (Qltb (q1 - 4.025 * s + 104) 0) eqn:E1;
     [apply Qltb_true in E1 | apply Qltb_false in E1]);
    (destruct (Qltb (q2 - 4.025 * s + 104) 0) eqn:E2;
     [apply Qltb_true in E2 | apply Qltb_false in E2]);
    destruct Hrot as [(R1 & R2) | [(R1 & R2) | (R1 & R2)]];
    try (exfalso; lra);
    repeat match goal with
           | H : false = false -> _ |- _ => specialize (H eq_refl)
           | H : true = true -> _ |- _ => specialize (H eq_refl)
           | H : true = false -> _ |- _ => clear H
           | H : false = true -> _ |- _ => clear H
           end.
  all: try destruct Hkeep0 as (Hx0' & Hg0' & Hr0').
  all: try destruct Hkeep1 as (Hx1' & Hg1' & Hr1').
  all: try destruct Hkeep2 as (Hx2' & Hg2' & Hr2').
  all: try destruct Hrec0 as (Hx0' & Hsc0 & Hsafe0 & Hanchor0).
  all: try destruct Hrec1 as (Hx1' & Hsc1 & Hsafe1 & Hanchor1).
  all: try destruct Hrec2 as (Hx2' & Hsc2 & Hsafe2 & Hanchor2).
  all: assert (G0 : gap_safe p0')
         by first [ exact (Hkept _ _ Hs0 Hg0')
                  | apply Hsafe0; repeat constructor; assumption ].
  all: assert (G1 : gap_safe p1')
         by first [ exact (Hkept _ _ Hs1 Hg1')
                  | apply Hsafe1; repeat constructor; assumption ].
  all: assert (G2 : gap_safe p2')
         by first [ exact (Hkept _ _ Hs2 Hg2')
                  | apply Hsafe2; repeat constructor; assumption ].
  all: try (assert (A0 := Hanchor0 ltac:(repeat constructor; unfold left_of; eexists;
                                         (split; [eassumption | lra]))));
       try (assert (A1 := Hanchor1 ltac:(repeat constructor; unfold left_of; eexists;
                                         (split; [eassumption | lra]))));
       try (assert (A2 := Hanchor2 ltac:(repeat constructor; unfold left_of; eexists;
                                         (split; [eassumption | lra])))).
  all: (split; [|split]);
    [ exists p0', p1', p2'; do 3 eexists;
      split; [reflexivity|];
      split; [eassumption|]; split; [eassumption|]; split; [eassumption|];
      split; [lra|]; split; [lra|]; split; [lra|];
      first [ left; split; lra | right; left; split; lra | right; right; split; lra ]
    | repeat constructor; assumption
    | intros i p Hnth Hrec;
      destruct i as [|[|[|i]]]; cbn [nth_error] in Hnth;
      [ injection Hnth as <-; rewrite (recycles_finite s q0 p0 Hx0) in Hrec
      | injection Hnth as <-; rewrite (recycles_finite s q1 p1 Hx1) in Hrec
      | injection Hnth as <-; rewrite (recycles_finite s q2 p2 Hx2) in Hrec
      | destruct i; discriminate Hnth ];
      apply Qltb_true in Hrec;
      first [ exfalso; lra
            | eexists; split; [reflexivity|]; split; [|eassumption];
              first [ apply A0
                    | rewrite <- Hr0'; apply A1
                    | rewrite <- Hr0', <- Hr1'; apply A2 ] ] ].
Qed.

Lemma fresh_pool_spaced (a b c : number) :
  pool_spaced
    [ {| x := (V_WIDTH + Fin 50)%js; gapY := a; scored := false |};
      {| x := (V_WIDTH + Fin 50 + PIPE_INTERVAL)%js; gapY := b; scored := false |};
      {| x := (V_WIDTH + Fin 50 + PIPE_INTERVAL * Fin 2)%js; gapY := c; scored := false |} ].
Proof.
  unfold pool_spaced, V_WIDTH, PIPE_INTERVAL. fin.
  do 6 eexists. split; [reflexivity|]. cbn [x].
  split; [reflexivity|]. split; [reflexivity|]. split; [reflexivity|].
  split; [lra|]. split; [lra|]. split; [lra|]. left. split; lra.
Qed.

Lemma initial_pipes_pool (rng : RNG) :
  pool_spaced (fst (initial_pipes rng)) /\ Forall gap_safe (fst (initial_pipes rng)).
Proof.
  unfold initial_pipes, bind, ret.
  destruct (randomGapY_in_range None rng) as (a & Ha & Hra). cbn [option_map] in Ha.
  destruct (randomGapY None rng) as [a' r1]. cbn [fst] in Ha. subst a'.
  destruct (randomGapY_in_range (Some a) r1) as (b & Hb & Hrb). cbn [option_map] in Hb.
  destruct (randomGapY (Some (Fin a)) r1) as [b' r2]. cbn [fst] in Hb. subst b'.
  destruct (randomGapY_in_range (Some a) r2) as (i & Hi & Hri). cbn [option_map] in Hi.
  destruct (randomGapY (Some (Fin a)) r2) as [i' r3]. cbn [fst] in Hi. subst i'.
  destruct (randomGapY_in_range (Some i) r3) as (c & Hc & Hrc). cbn [option_map] in Hc.
  destruct (randomGapY (Some (Fin i)) r3) as [c' r4]. cbn [fst] in Hc. subst c'.
  cbn [fst]. split; [apply fresh_pool_spaced|].
  repeat constructor; unfold gap_safe; cbn [gapY]; eexists; split; try reflexivity; lra.
Qed.

Lemma reset_pipes_pool (rng : RNG) :
  pool_spaced (fst (reset_pipes rng)) /\ Forall gap_safe (fst (reset_pipes rng)).
Proof.
  unfold reset_pipes, bind, ret.
  destruct (randomGapY_in_range None rng) as (a & Ha & Hra). cbn [option_map] in Ha.
  destruct (randomGapY None rng) as [a' r1]. cbn [fst] in Ha. subst a'.
  destruct (randomGapY_in_range (Some a) r1) as (b & Hb & Hrb). cbn [option_map] in Hb.
  destruct (randomGapY (Some (Fin a)) r1) as [b' r2]. cbn [fst] in Hb. subst b'.
  destruct (randomGapY_in_range (Some b) r2) as (c & Hc & Hrc). cbn [option_map] in Hc.
  destruct (randomGapY (Some (Fin b)) r2) as [c' r3]. cbn [fst] in Hc. subst c'.
  cbn [fst]. split; [apply fresh_pool_spaced|].
  repeat constructor; unfold gap_safe; cbn [gapY]; eexists; split; try reflexivity; lra.
Qed.

(** A tick keeps the pipes 350 apart, in view, with safe gaps. *)
Lemma update_pool (s : Q) (g : Game) :
  pool_spaced (pipes g) -> Forall gap_safe (pipes g) -> s <= 32 / 16.67 ->
  pool_spaced (pipes (update (Fin s) g)) /\ Forall gap_safe (pipes (update (Fin s) g)).
Proof.
  intros Hsp Hsafe Hs.
  destruct (gameState g) eqn:E.
  - rewrite update_not_playing by congruence.
    destruct (update_fart_keeps (Fin s) g) as (_ & _ & F3 & _). rewrite F3. auto.
  - destruct (update_collision_order_aux (Fin s) g E) as (_ & Hcases).
    destruct (_ || _).
    + destruct Hcases as (_ & Hp & _). rewrite Hp. auto.
    + destruct Hcases as (Hp & _). rewrite Hp.
      destruct (update_clouds_keeps (Fin s) (integrated (Fin s) g)) as (_ & _ & U3 & _).
      destruct (integrated_keeps (Fin s) g) as (_ & _ & I3 & _).
      assert (Hpg : pipes (update_clouds (Fin s) (integrated (Fin s) g)) = pipes g)
        by (rewrite U3; exact I3).
      rewrite <- Hpg in Hsp, Hsafe.
      destruct (update_pipes_spaced s _ Hsp Hsafe Hs) as (H1 & H2 & _). auto.
  - rewrite update_not_playing by congruence.
    destruct (update_fart_keeps (Fin s) g) as (_ & _ & F3 & _). rewrite F3. auto.
Qed.

Lemma reachable_pool (g : Game) :
  reachable g -> pool_spaced (pipes g) /\ Forall gap_safe (pipes g).
Proof.
  induction 1 as [saved rng | g Hg IH | now lastTime g Htime Hg IH].
  - destruct (GameCanvas_fields saved rng) as (_ & _ & _ & Hp). rewrite Hp.
    apply initial_pipes_pool.
  - unfold flap. destruct (gameState g).
    + exact IH.
    + exact IH.
    + destruct (resetGame_fields g) as (_ & _ & _ & _ & _ & Hp). rewrite Hp.
      apply reset_pipes_pool.
  - cbn [loop snd].
    destruct (timeStep_bound now lastTime) as (s & Hstep & Hs). rewrite Hstep.
    destruct IH as (IH1 & IH2). apply update_pool; assumption.
Qed.

(** ** The initial pool and the restart *)

Lemma unit_draws_shift (rng rng' : RNG) (k : nat) :
  unit_draws rng -> (forall n, rng' n = rng (k + n)%nat) -> unit_draws rng'.
Proof. intros Hu Hs n. rewrite Hs. apply Hu. Qed.

(** The first gap lies in the middle half of the safe range, rounded
    down to a whole pixel. *)
Lemma randomGapY_first_gap (rng : RNG) :
  unit_draws rng ->
  exists g1 : Q,
    randomGapY None rng = (Fin g1, fun n => rng (S n)) /\ 224 <= g1 <= 413.
Proof.
  intros Hu. unfold randomGapY, bind, ret, Math_random.
  rewrite minGapY_eq, maxGapY_eq. fin. cbv zeta.
  set (lo := 80 + 50 + (1024 - 224 - 162.5 - 80 - 50 + - (80 + 50)) * 0.25).
  set (hi := 80 + 50 + (1024 - 224 - 162.5 - 80 - 50 + - (80 + 50)) * 0.75).
  destruct (candidate_bounds lo hi (rng 0%nat) (Hu 0%nat)) as (_ & Hhi & _ & Hlo).
  { subst lo hi. lra. }
  specialize (Hlo 224%Z). unfold candidate, Qminus in Hhi, Hlo.
  assert (H224 : inject_Z 224 <= lo) by (subst lo; unfold inject_Z; lra).
  specialize (Hlo H224).
  assert (Hfl : Qfloor hi = 413%Z) by (evaluate; reflexivity).
  rewrite Hfl in Hhi.
  change (inject_Z 224) with 224 in Hlo. change (inject_Z 413) with 413 in Hhi.
  set (t := inject_Z (Qfloor (lo + rng 0%nat * (hi + - lo)))) in *.
  unfold qmax, qmin. eexists. split; [reflexivity|]. qcases; lra.
Qed.

(** A gap generated from a previous gap in the safe range stays in the
    window the body can reach from it (up to the rounding down). *)
Lemma randomGapY_reachable (g : Q) (rng : RNG) :
  unit_draws rng -> 130 <= g <= 507.5 ->
  exists gap : Q,
    fst (randomGapY (Some (Fin g)) rng) = Fin gap /\
    130 <= gap <= 507.5 /\ g - 96 < gap <= g + 100 /\ 40 <= Qabs (gap - g) /\
    unit_draws (snd (randomGapY (Some (Fin g)) rng)).
Proof.
  intros Hu Hg. rewrite randomGapY_some. cbv zeta. cbn [fst snd].
  destruct (tier_window (rng 0%nat) g Hg) as (Hlo & Hle & Hhi).
  destruct (tier_inside_reach (rng 0%nat) g Hg) as (Hrl & Hrh).
  destruct (resample_spec (pred maxAttempts) _ _ g _ (unit_draws_tail rng Hu) Hle)
    as (t & k & Ht & Hk & Hkb & Hthi & Htlow & Htlo).
  rewrite Ht.
  assert (Htr : 130 <= t <= 507.5).
  { split; [apply (Htlo 130%Z); exact Hlo | lra]. }
  destruct (force_delta_spec g t Hg Htr) as (q & Hq & Hqr & Hqd & Hqw).
  rewrite Hq.
  destruct (clamp_gap_id q Hqr) as (gap & Hgap & Heq).
  exists gap. rewrite Hgap.
  split; [reflexivity|].
  split; [rewrite Heq; exact Hqr|].
  split; [rewrite Heq; apply Hqw; lra|].
  split; [rewrite Heq; exact Hqd|].
  apply (unit_draws_shift rng _ (S k) Hu). intros n. rewrite Hk. reflexivity.
Qed.

(** The restart chains the three gaps: each of the second and the third
    is generated from, and reachable from, the gap right before it. *)
Lemma reset_pipes_chained (rng : RNG) :
  unit_draws rng ->
  exists g1 g2 g3 : Q,
    map gapY (fst (reset_pipes rng)) = [Fin g1; Fin g2; Fin g3] /\
    224 <= g1 <= 413 /\
    g1 - 96 < g2 <= g1 + 100 /\ 40 <= Qabs (g2 - g1) /\
    g2 - 96 < g3 <= g2 + 100 /\ 40 <= Qabs (g3 - g2).
Proof.
  intros Hu. unfold reset_pipes, bind, ret.
  destruct (randomGapY_first_gap rng Hu) as (g1 & H1 & Hg1). rewrite H1.
  assert (Hr1 : 130 <= g1 <= 507.5) by lra.
  destruct (randomGapY_reachable g1 _ (unit_draws_tail rng Hu) Hr1)
    as (g2 & H2 & Hr2 & Hw2 & Hd2 & Hu2).
  destruct (randomGapY (Some (Fin g1)) (fun n => rng (S n))) as [second rng2].
  cbn [fst snd] in H2, Hu2. subst second.
  destruct (randomGapY_reachable g2 rng2 Hu2 Hr2) as (g3 & H3 & Hr3 & Hw3 & Hd3 & _).
  destruct (randomGapY (Some (Fin g2)) rng2) as [third rng3].
  cbn [fst] in H3. subst third.
  exists g1, g2, g3. cbn [fst map gapY]. auto 10.
Qed.

Example reset_pipes_on_first_render_draws :
  map gapY (fst (reset_pipes first_render_draws)) = [Fin 318; Fin 223; Fin 322].
Proof. concrete; evaluate. reflexivity. Qed.

(** C7 at a failing input.  On the first render the third gap comes from
    [randomGapY(randomGapY(firstGapY))]: the inner call is a fresh sample
    (417 here), not the gap the second pipe received (223).  With these
    draws the gaps are 318, 223 and 507: the third lies 284 below the
    second, outside the downward reach of 100 that chaining on the
    second pipe guarantees. *)
Theorem initial_pool_third_gap_not_chained :
  let ps := pipes (GameCanvas None first_render_draws) in
  map gapY ps = [Fin 318; Fin 223; Fin 507] /\
  fst (randomGapY (Some (Fin 318)) (fun n => first_render_draws (3 + n)%nat)) = Fin 417 /\
  fst (randomGapY (Some (Fin 417)) (fun n => first_render_draws (5 + n)%nat)) = Fin 507 /\
  (Fin 507 <=? Fin 223 + MAX_DOWNWARD_DELTA)%js = false.
Proof. concrete; evaluate. repeat split. Qed.

(** ** Numbers that are not finite *)

Lemma nlt_nan_r (a : number) : (a <? NaN)%js = false.
Proof. destruct a; reflexivity. Qed.

Lemma nadd_nan_r (a : number) : (a + NaN)%js = NaN.
Proof. destruct a; reflexivity. Qed.

Lemma overlaps_nan (b : Body) (bounds : Bounds) :
  y b = NaN -> overlaps b bounds = false.
Proof.
  intros Hy. unfold overlaps, plushpepeBottom, plushpepeTop. rewrite Hy.
  cbn [nadd]. unfold ngt. rewrite nlt_nan_r.
  rewrite andb_false_r. reflexivity.
Qed.

Lemma pipe_collision_nan (b : Body) (ps : list Pipe) :
  y b = NaN -> existsb (pipe_collision b) ps = false.
Proof.
  intros Hy. induction ps as [|p ps IH]; cbn [existsb]; [reflexivity|].
  unfold pipe_collision. cbv zeta. rewrite !(overlaps_nan b _ Hy). exact IH.
Qed.

Lemma physics_nan (step : Q) (b : Body) :
  y b = NaN \/ vel b = NaN -> y (physics (Fin step) b) = NaN.
Proof.
  destruct b as [by0 bv br]. cbn [y vel]. unfold physics.
  cbn [set_vel set_y set_rot vel y rot].
  intros [-> | ->].
  - destruct (_ >? _)%js; reflexivity.
  - cbn [nadd ngt nlt MAX_FALL_SPEED nmul]. apply nadd_nan_r.
Qed.

(** The position the integrator produces, by kind of velocity. *)
Lemma physics_position (step : Q) (b : Body) :
  0 < step ->
  y (physics (Fin step) b) =
  match vel b with
  | NaN => NaN
  | NegInf => (y b + NegInf)%js
  | Fin v => (y b + Fin (capped (v + 0.4 * step) * step))%js
  | PosInf => (y b + Fin (12 * step))%js
  end /\
  vel (physics (Fin step) b) =
  match vel b with
  | Fin v => Fin (capped (v + 0.4 * step))
  | PosInf => MAX_FALL_SPEED
  | other => other
  end.
Proof.
  intros Hs. destruct b as [by0 bv br]. cbn [y vel].
  unfold physics, GRAVITY, MAX_FALL_SPEED, capped.
  cbn [set_vel set_y set_rot vel y rot].
  destruct bv as [| |v|]; fin; cbn [set_vel set_y set_rot vel y rot]; fin.
  - split; [apply nadd_nan_r | reflexivity].
  - unfold inf_times, Qsign_pos. apply Qltb_true in Hs. rewrite Hs. split; reflexivity.
  - destruct (Qltb 12 (v + 0.4 * step)); split; reflexivity.
  - split; reflexivity.
Qed.

(** A tick whose integrated position is NaN: every test is false and the
    game goes on. *)
Lemma update_nan_after (step : Q) (g : Game) :
  gameState g = playing ->
  y (physics (Fin step) (plushpepe g)) = NaN ->
  gameState (update (Fin step) g) = playing /\
  y (plushpepe (update (Fin step) g)) = NaN.
Proof.
  intros Hplay Hy.
  split; [|rewrite (update_body _ _ Hplay); exact Hy].
  destruct (update_collision_order_aux (Fin step) g Hplay) as (_ & Hcases).
  unfold ground_collision, ceiling_collision in Hcases. rewrite Hy in Hcases.
  cbn [nadd nge nle nlt orb] in Hcases.
  destruct Hcases as (_ & Hstate). rewrite Hstate.
  rewrite (pipe_collision_nan _ (pipes (update (Fin step) g)) Hy). reflexivity.
Qed.

(** A tick whose integrated position is infinite ends the game on the
    ground test or on the ceiling test. *)
Lemma update_infinite_after (step : Q) (g : Game) :
  gameState g = playing ->
  y (physics (Fin step) (plushpepe g)) = PosInf \/
  y (physics (Fin step) (plushpepe g)) = NegInf ->
  gameState (update (Fin step) g) = gameover.
Proof.
  intros Hplay Hy.
  destruct (update_collision_order_aux (Fin step) g Hplay) as (_ & Hcases).
  unfold ground_collision, ceiling_collision in Hcases.
  destruct Hy as [Hy | Hy]; rewrite Hy in Hcases; apply Hcases.
Qed.

Lemma update_nan (step : Q) (g : Game) :
  gameState g = playing ->
  y (plushpepe g) = NaN \/ vel (plushpepe g) = NaN ->
  gameState (update (Fin step) g) = playing /\
  y (plushpepe (update (Fin step) g)) = NaN.
Proof.
  intros Hplay Hnan. apply update_nan_after; [exact Hplay|].
  apply physics_nan. exact Hnan.
Qed.

Lemma ticks_of_nan (steps : list Q) (g : Game) :
  gameState g = playing ->
  y (plushpepe g) = NaN ->
  gameState (ticks_of steps g) = playing /\
  y (plushpepe (ticks_of steps g)) = NaN.
Proof.
  revert g. induction steps as [|s steps IH]; intros g Hplay Hnan;
    cbn [ticks_of fold_left]; [auto|].
  destruct (update_nan s g Hplay (or_introl Hnan)) as (H1 & H2).
  apply (IH _ H1 H2).
Qed.

(** ** Exceptions *)

(** The second [forEach] as a whole when the storage may throw: the
    first pipe that is hit calls [handleGameOver]. *)
Lemma collide_pipes_throwing_existsb (storageThrows : bool) (g : Game) :
  collide_pipes_throwing storageThrows g =
  if existsb (pipe_collision (plushpepe g)) (pipes g)
  then handleGameOver_throwing storageThrows g
  else Returned g.
Proof.
  unfold collide_pipes_throwing.
  set (hit := fun (outcome : Outcome) (pipe : Pipe) =>
                match outcome with
                | Returned g =>
                    if pipe_collision (plushpepe g) pipe
                    then handleGameOver_throwing storageThrows g
                    else Returned g
                | Thrown g => Thrown g
                end).
  assert (Hthrown : forall ps g0, fold_left hit ps (Thrown g0) = Thrown g0).
  { induction ps as [|p rest IH]; intros g0; cbn [fold_left]; [reflexivity|]. apply IH. }
  assert (Hover : forall ps g0,
             fold_left hit ps (handleGameOver_throwing storageThrows g0)
             = handleGameOver_throwing storageThrows g0).
  { unfold handleGameOver_throwing. destruct storageThrows; [intros; apply Hthrown|].
    induction ps as [|p rest IH]; intros g0; cbn [fold_left]; [reflexivity|].
    unfold hit at 2. destruct (pipe_collision _ p); [|apply IH].
    unfold handleGameOver_throwing. rewrite handleGameOver_twice. apply IH. }
  generalize (pipes g). intros ps. revert g.
  induction ps as [|p rest IH]; intros g; cbn [fold_left existsb]; [reflexivity|].
  unfold hit at 2. destruct (pipe_collision (plushpepe g) p); cbn [orb].
  - apply Hover.
  - apply IH.
Qed.

Lemma update_throwing_playing (storageThrows : bool) (step : number) (g : Game) :
  gameState g = playing ->
  update_throwing storageThrows step g =
  if ground_collision (physics step (plushpepe g))
  then handleGameOver_throwing storageThrows (integrated step g)
  else if ceiling_collision (physics step (plushpepe g))
  then handleGameOver_throwing storageThrows (integrated step g)
  else collide_pipes_throwing storageThrows
         (update_pipes step (update_clouds step (integrated step g))).
Proof.
  intros Hplay. unfold update_throwing, integrated. cbv zeta.
  destruct (update_fart_keeps step g) as (F1 & F2 & _).
  rewrite F1, Hplay. cbn [plushpepe set_plushpepe set_sharedScrollPosition].
  rewrite F2. reflexivity.
Qed.

(** With a storage that does not throw the tick returns, in the state
    [update] gives. *)
Lemma update_throwing_returns (step : number) (g : Game) :
  update_throwing false step g = Returned (update step g).
Proof.
  destruct (gameState g) eqn:E.
  - unfold update_throwing, update. cbv zeta.
    destruct (update_fart_keeps step g) as (F1 & _). rewrite F1, E. reflexivity.
  - rewrite (update_throwing_playing false step g E), (update_playing step g E).
    unfold handleGameOver_throwing.
    destruct (ground_collision _); [reflexivity|].
    destruct (ceiling_collision _); [reflexivity|].
    rewrite collide_pipes_throwing_existsb, collide_pipes_existsb.
    unfold handleGameOver_throwing. destruct (existsb _ _); reflexivity.
  - unfold update_throwing, update. cbv zeta.
    destruct (update_fart_keeps step g) as (F1 & _). rewrite F1, E. reflexivity.
Qed.

(** With a storage that throws, the tick throws exactly when it calls
    [handleGameOver]: the game is then still playing. *)
Lemma update_throwing_throws (step : number) (g : Game) :
  gameState g = playing ->
  match update_throwing true step g with
  | Thrown at_throw =>
      gameState (update step g) = gameover /\
      gameState at_throw = playing /\
      plushpepe at_throw = physics step (plushpepe g)
  | Returned after =>
      gameState (update step g) = playing /\ after = update step g
  end.
Proof.
  intros Hplay.
  rewrite (update_throwing_playing true step g Hplay), (update_playing step g Hplay).
  destruct (integrated_keeps step g) as (I1 & I2 & _).
  destruct (handleGameOver_keeps (integrated step g)) as (H1 & _).
  unfold handleGameOver_throwing.
  destruct (ground_collision _).
  { rewrite H1, I1, I2. auto. }
  destruct (ceiling_collision _).
  { rewrite H1, I1, I2. auto. }
  destruct (pipes_updated_keeps step g) as (G1 & G2 & _).
  rewrite collide_pipes_throwing_existsb, collide_pipes_existsb.
  unfold handleGameOver_throwing.
  destruct (existsb _ _).
  - destruct (handleGameOver_keeps
                (update_pipes step (update_clouds step (integrated step g))))
      as (K1 & _).
    rewrite K1, G1, G2. auto.
  - rewrite G1. auto.
Qed.

(** A game that is not playing calls no storage in a tick. *)
Lemma update_throwing_idle (storageThrows : bool) (step : number) (g : Game) :
  gameState g <> playing ->
  update_throwing storageThrows step g = Returned (update step g).
Proof.
  intros Hn. unfold update_throwing, update. cbv zeta.
  destruct (update_fart_keeps step g) as (F1 & _). rewrite F1.
  destruct (gameState g); congruence.
Qed.

Example infinite_game_over : gameState (update (Fin 1) infinite_game) = gameover.
Proof.
  apply (update_infinite_after 1 infinite_game); [still_playing|].
  left. reflexivity.
Qed.

(** C8, as stated, fails twice.  A NaN position is not noticed: the
    ground, ceiling and pipe tests are all false on it, so the tick
    leaves the game playing with the position still NaN, on this tick
    and on the ones after it, whatever their steps.  And on an infinite
    position the tick calls [handleGameOver], whose storage write is not
    guarded: when that write throws, the exception leaves the tick
    handler, with the game still playing. *)
Lemma nan_position_counterexample :
  gameState nan_game = playing /\
  y (plushpepe nan_game) = NaN /\
  gameState (update (Fin 1) nan_game) = playing /\
  y (plushpepe (update (Fin 1) nan_game)) = NaN /\
  gameState (ticks_of [1; 0.5; 1.9; 1; 1] (update (Fin 1) nan_game)) = playing /\
  gameState infinite_game = playing /\
  y (plushpepe infinite_game) = PosInf /\
  exists at_throw,
    update_throwing true (Fin 1) infinite_game = Thrown at_throw /\
    gameState at_throw = playing.
Proof.
  assert (Hplay : gameState nan_game = playing) by still_playing.
  assert (Hy : y (plushpepe nan_game) = NaN) by reflexivity.
  split; [exact Hplay|]. split; [exact Hy|].
  destruct (update_nan 1 nan_game Hplay (or_introl Hy)) as (H1 & H2).
  split; [exact H1|]. split; [exact H2|].
  split; [apply (ticks_of_nan _ _ H1 H2)|].
  assert (Hplay' : gameState infinite_game = playing) by still_playing.
  split; [exact Hplay'|]. split; [reflexivity|].
  pose proof (update_throwing_throws (Fin 1) infinite_game Hplay') as Hthrow.
  destruct (update_throwing true (Fin 1) infinite_game) as [after | at_throw].
  - destruct Hthrow as (Hstate & _). rewrite infinite_game_over in Hstate.
    discriminate Hstate.
  - exists at_throw. split; [reflexivity | apply Hthrow].
Qed.

(** C8, amended.  On an active tick with a finite positive step: if the
    integrated position is infinite, which is the case for an infinite
    position (unless it is +Infinity with velocity -Infinity) and for a
    finite position with velocity -Infinity, the ground or ceiling test
    fires and the tick calls [handleGameOver]: with a storage that works
    the game is over, and with one that throws the exception leaves the
    tick handler with the game still playing.  A velocity of +Infinity
    on a finite position is capped to [MAX_FALL_SPEED] and the tick goes
    on from a finite body.  A NaN position or velocity, and +Infinity
    with velocity -Infinity, leave the position NaN and the game
    playing, on that tick and on every later one, whatever the steps;
    these ticks call no storage and return whether it throws or not.
    With a storage that works every tick returns. *)
Theorem update_on_nonfinite_body (step : Q) (g : Game) :
  gameState g = playing ->
  0 < step ->
  let after := update (Fin step) g in
  update_throwing false (Fin step) g = Returned after /\
  match y (plushpepe g), vel (plushpepe g) with
  | NaN, _ | _, NaN | PosInf, NegInf =>
      gameState after = playing /\ y (plushpepe after) = NaN /\
      update_throwing true (Fin step) g = Returned after /\
      forall steps : list Q,
        let later := ticks_of steps after in
        gameState later = playing /\ y (plushpepe later) = NaN /\
        forall (storageThrows : bool) (s : Q),
          update_throwing storageThrows (Fin s) later = Returned (update (Fin s) later)
  | NegInf, _ | PosInf, _ | Fin _, NegInf =>
      gameState after = gameover /\
      exists at_throw,
        update_throwing true (Fin step) g = Thrown at_throw /\
        gameState at_throw = playing /\
        plushpepe at_throw = physics (Fin step) (plushpepe g)
  | Fin p, PosInf =>
      vel (plushpepe after) = MAX_FALL_SPEED /\
      y (plushpepe after) = Fin (p + 12 * step)
  | Fin _, Fin _ => True
  end.
Proof.
  intros Hplay Hs after. subst after.
  split; [apply update_throwing_returns|].
  destruct (physics_position step (plushpepe g) Hs) as (Hy & Hv).
  assert (Hquiet : forall (b : bool) (s : Q) (g0 : Game),
             gameState g0 = playing ->
             gameState (update (Fin s) g0) = playing ->
             update_throwing b (Fin s) g0 = Returned (update (Fin s) g0)).
  { intros b s g0 Hp Hp'. destruct b; [|apply update_throwing_returns].
    pose proof (update_throwing_throws (Fin s) g0 Hp) as Hthrow.
    destruct (update_throwing true (Fin s) g0) as [after | at_throw].
    - destruct Hthrow as (_ & ->). reflexivity.
    - destruct Hthrow as (Hover & _). rewrite Hp' in Hover. discriminate Hover. }
  assert (Hstuck : y (physics (Fin step) (plushpepe g)) = NaN ->
            gameState (update (Fin step) g) = playing /\
            y (plushpepe (update (Fin step) g)) = NaN /\
            update_throwing true (Fin step) g = Returned (update (Fin step) g) /\
            forall steps : list Q,
              let later := ticks_of steps (update (Fin step) g) in
              gameState later = playing /\ y (plushpepe later) = NaN /\
              forall (storageThrows : bool) (s : Q),
                update_throwing storageThrows (Fin s) later
                = Returned (update (Fin s) later)).
  { intros H. destruct (update_nan_after step g Hplay H) as (H1 & H2).
    split; [exact H1|]. split; [exact H2|].
    split; [apply Hquiet; assumption|].
    intros steps later. subst later.
    destruct (ticks_of_nan steps _ H1 H2) as (L1 & L2).
    split; [exact L1|]. split; [exact L2|].
    intros b s. apply Hquiet; [exact L1|].
    apply (update_nan s _ L1 (or_introl L2)). }
  assert (Hover : y (physics (Fin step) (plushpepe g)) = PosInf \/
                  y (physics (Fin step) (plushpepe g)) = NegInf ->
            gameState (update (Fin step) g) = gameover /\
            exists at_throw,
              update_throwing true (Fin step) g = Thrown at_throw /\
              gameState at_throw = playing /\
              plushpepe at_throw = physics (Fin step) (plushpepe g)).
  { intros H. pose proof (update_infinite_after step g Hplay H) as Hgo.
    split; [exact Hgo|].
    pose proof (update_throwing_throws (Fin step) g Hplay) as Hthrow.
    destruct (update_throwing true (Fin step) g) as [after | at_throw].
    - destruct Hthrow as (Hstate & _). rewrite Hgo in Hstate. discriminate Hstate.
    - exists at_throw. split; [reflexivity | apply Hthrow]. }
  destruct (y (plushpepe g)) as [| |p|] eqn:Ey;
    destruct (vel (plushpepe g)) as [| |v|] eqn:Ev;
    cbn [nadd] in Hy;
    try (apply Hstuck; exact Hy);
    try (apply Hover; auto; fail);
    try exact I.
  rewrite (update_body _ _ Hplay). auto.
Qed.

Lemma update_on_nonfinite_body_witness :
  (let step := 1 in
   let g := infinite_game in
   gameState g = playing /\ 0 < step /\
   gameState (update (Fin step) g) = gameover /\
   update_throwing false (Fin step) g = Returned (update (Fin step) g) /\
   exists at_throw, update_throwing true (Fin step) g = Thrown at_throw) /\
  (let step := 1 in
   let g := nan_game in
   gameState g = playing /\ 0 < step /\
   gameState (update (Fin step) g) = playing /\
   y (plushpepe (update (Fin step) g)) = NaN /\
   gameState (ticks_of [0.5; 1.9] (update (Fin step) g)) = playing /\
   update_throwing true (Fin step) g = Returned (update (Fin step) g)).
Proof.
  assert (Hstep : 0 < 1) by reflexivity.
  cbv zeta. split.
  - assert (Hplay : gameState infinite_game = playing) by still_playing.
    split; [exact Hplay|]. split; [exact Hstep|].
    destruct (update_on_nonfinite_body 1 infinite_game Hplay Hstep)
      as (Hret & Hover & (at_throw & Hthrow & _)).
    split; [exact Hover|]. split; [exact Hret|]. exists at_throw. exact Hthrow.
  - assert (Hplay : gameState nan_game = playing) by still_playing.
    split; [exact Hplay|]. split; [exact Hstep|].
    destruct (update_on_nonfinite_body 1 nan_game Hplay Hstep)
      as (_ & H1 & H2 & H3 & Hlater).
    split; [exact H1|]. split; [exact H2|].
    split; [apply (Hlater [0.5; 1.9])| exact H3].
Defined.

(** ** The best score *)

Lemma handleGameOver_best (g : Game) :
  localStorage_best (handleGameOver g)
  = (if (globalScore g >? highScore g)%Z then Some (globalScore g)
     else localStorage_best g) /\
  highScore (handleGameOver g)
  = (if (globalScore g >? highScore g)%Z then globalScore g else highScore g).
Proof.
  unfold handleGameOver. destruct (globalScore g >? highScore g)%Z; split; reflexivity.
Qed.

Lemma synced_after_game_over (g : Game) (hs : Z) (best : option Z) :
  hs = match best with Some v => v | None => 0%Z end ->
  highScore g = hs -> localStorage_best g = best ->
  best_synced (handleGameOver g) /\
  localStorage_best (handleGameOver g)
  = (if (globalScore g >? hs)%Z then Some (globalScore g) else best) /\
  (hs <= stored_best (handleGameOver g))%Z /\
  stored_best (handleGameOver g) = Z.max hs (globalScore g).
Proof.
  intros Hsync Hhs Hbest.
  destruct (handleGameOver_best g) as (H1 & H2).
  unfold best_synced, stored_best. rewrite H1, H2, Hhs, Hbest.
  destruct (globalScore g >? hs)%Z eqn:E.
  - apply Z.gtb_lt in E. repeat split; lia.
  - rewrite Z.gtb_ltb in E. apply Z.ltb_ge in E. rewrite <- Hsync. repeat split; lia.
Qed.

Lemma update_fart_synced (step : number) (g : Game) :
  best_synced g -> best_synced (update_fart step g).
Proof.
  unfold best_synced, stored_best.
  destruct (update_fart_keeps step g) as (_ & _ & _ & _ & F5 & F6).
  rewrite F5, F6. auto.
Qed.

(** The stored best score across one call of [update]. *)
Lemma update_best (step : number) (g : Game) :
  best_synced g ->
  best_synced (update step g) /\
  localStorage_best (update step g)
  = match gameState g, gameState (update step g) with
    | playing, gameover =>
        if (globalScore (update step g) >? stored_best g)%Z
        then Some (globalScore (update step g)) else localStorage_best g
    | _, _ => localStorage_best g
    end /\
  (stored_best g <= stored_best (update step g))%Z.
Proof.
  intros Hsync.
  destruct (update_fart_keeps step g) as (F1 & _ & _ & _ & F5 & F6).
  destruct (gameState g) eqn:Egs;
    try (rewrite update_not_playing by congruence;
         split; [apply update_fart_synced; exact Hsync|];
         unfold stored_best; rewrite F6; split; [reflexivity | lia]).
  assert (Hover : forall X : Game,
             highScore X = highScore g -> localStorage_best X = localStorage_best g ->
             best_synced (handleGameOver X) /\
             localStorage_best (handleGameOver X)
             = match gameState (handleGameOver X) with
               | gameover =>
                   if (globalScore (handleGameOver X) >? stored_best g)%Z
                   then Some (globalScore (handleGameOver X)) else localStorage_best g
               | _ => localStorage_best g
               end /\
             (stored_best g <= stored_best (handleGameOver X))%Z).
  { intros X Hh Hb.
    destruct (handleGameOver_keeps X) as (K1 & _ & _ & K4).
    destruct (synced_after_game_over X (stored_best g) (localStorage_best g))
      as (S1 & S2 & S3 & _); auto; [congruence|].
    rewrite K1, K4. auto. }
  rewrite (update_playing _ _ Egs).
  destruct (integrated_keeps step g) as (_ & _ & _ & _ & I5 & I6).
  destruct (ground_collision _); [apply Hover; assumption|].
  destruct (ceiling_collision _); [apply Hover; assumption|].
  destruct (pipes_updated_keeps step g) as (G1 & _ & G3 & G4).
  rewrite collide_pipes_existsb. destruct (existsb _ _).
  - apply Hover; assumption.
  - unfold best_synced, stored_best. rewrite G1, G3, G4, Egs.
    split; [exact Hsync|]. split; [reflexivity | lia].
Qed.

Lemma GameCanvas_synced (saved : option Z) (rng : RNG) :
  best_synced (GameCanvas saved rng) /\
  localStorage_best (GameCanvas saved rng) = saved.
Proof.
  unfold GameCanvas. destruct (initial_pipes rng). split; reflexivity.
Qed.

Example record_game_saved :
  stored_best record_game = 2%Z /\
  localStorage_best (handleGameOver record_game) = Some 3%Z /\
  localStorage_best (flap (handleGameOver record_game)) = Some 3%Z.
Proof.
  split; [reflexivity|]. split; [reflexivity|].
  unfold flap. destruct (handleGameOver_keeps record_game) as (Hover & _).
  rewrite Hover. destruct (resetGame_fields (handleGameOver record_game))
    as (_ & _ & _ & _ & Hbest & _).
  rewrite Hbest. reflexivity.
Qed.

(** C9.  While the high score in memory agrees with the storage (it does
    from the first render on, and every handler keeps it so), the
    terminal transition writes the stored best exactly when the score is
    strictly greater than it, and then writes that score; the stored
    value after the transition is the maximum of the two.  A call of
    [update] changes the storage only on the transition from 'playing'
    to 'gameover', by that rule, so the stored best never decreases; a
    jump, a restart included, leaves it as it is. *)
Theorem best_score_only_increases (g : Game) :
  best_synced g ->
  (localStorage_best (handleGameOver g)
   = (if (globalScore g >? stored_best g)%Z then Some (globalScore g)
      else localStorage_best g) /\
   stored_best (handleGameOver g) = Z.max (stored_best g) (globalScore g) /\
   best_synced (handleGameOver g)) /\
  (forall step : number,
      best_synced (update step g) /\
      localStorage_best (update step g)
      = match gameState g, gameState (update step g) with
        | playing, gameover =>
            if (globalScore (update step g) >? stored_best g)%Z
            then Some (globalScore (update step g)) else localStorage_best g
        | _, _ => localStorage_best g
        end /\
      (stored_best g <= stored_best (update step g))%Z) /\
  (localStorage_best (flap g) = localStorage_best g /\ best_synced (flap g)) /\
  (localStorage_best (resetGame g) = localStorage_best g /\ best_synced (resetGame g)).
Proof.
  intros Hsync.
  assert (Hreset : localStorage_best (resetGame g) = localStorage_best g /\
                   best_synced (resetGame g)).
  { destruct (resetGame_fields g) as (_ & _ & _ & R4 & R5 & _).
    unfold best_synced, stored_best. rewrite R4, R5. auto. }
  split.
  { destruct (synced_after_game_over g (stored_best g) (localStorage_best g))
      as (S1 & S2 & _ & S4); auto. }
  split; [intros step; apply update_best; exact Hsync|].
  split; [|exact Hreset].
  unfold flap. destruct (gameState g); [split; [reflexivity | exact Hsync] ..|exact Hreset].
Qed.

Lemma best_score_only_increases_witness :
  let g := record_game in
  best_synced g /\
  localStorage_best (handleGameOver g) = Some 3%Z /\
  stored_best (handleGameOver g) = 3%Z.
Proof.
  assert (Hsync : best_synced record_game) by reflexivity.
  destruct (best_score_only_increases record_game Hsync) as ((H1 & H2 & _) & _).
  split; [exact Hsync|]. split.
  - rewrite H1. reflexivity.
  - rewrite H2. reflexivity.
Defined.

(** ** The two hitboxes *)

Lemma hitbox_edges (b : Body) (p : Q) :
  y b = Fin p ->
  exists t e : Q,
    plushpepeTop b = Fin t /\ plushpepeBottom b = Fin e /\
    t == p + 24 /\ e == p + 72.
Proof.
  intros Hy. unfold plushpepeTop, plushpepeBottom, hitboxOffsetY,
    PLUSHPEPE_SIZE, PLUSHPEPE_HITBOX.
  rewrite Hy. fin. do 2 eexists. split; [reflexivity|]. split; [reflexivity|].
  split; lra.
Qed.

Lemma ground_collision_finite (b : Body) (p : Q) :
  y b = Fin p ->
  ground_collision b = Qle_bool 800 (p + 48) /\
  ceiling_collision b = Qltb p 0.
Proof.
  intros Hy. unfold ground_collision, ceiling_collision, actualGroundY,
    V_HEIGHT, FIXED_GROUND_HEIGHT, PLUSHPEPE_HITBOX.
  rewrite Hy. fin. split; [|reflexivity].
  destruct (Qle_bool 800 (p + 48)) eqn:E.
  - apply Qle_bool_iff in E. apply Qle_bool_iff. lra.
  - apply Qle_bool_false in E. apply Qle_bool_false. lra.
Qed.

Example low_game_tick :
  y (plushpepe (update (Fin 1) low_game)) = Fin (730 + (0 + 0.4 * 1) * 1) /\
  gameState (update (Fin 1) low_game) = playing.
Proof.
  assert (Hplay : gameState low_game = playing) by still_playing.
  rewrite (update_body (Fin 1) low_game Hplay).
  split; [reflexivity|].
  concrete; evaluate. reflexivity.
Qed.

Example grazing_game_tick :
  y (plushpepe (update (Fin 1) grazing_game)) = Fin (400 + (0 + 0.4 * 1) * 1) /\
  gameState (update (Fin 1) grazing_game) = gameover.
Proof.
  assert (Hplay : gameState grazing_game = playing) by still_playing.
  rewrite (update_body (Fin 1) grazing_game Hplay).
  split; [reflexivity|].
  concrete; evaluate. reflexivity.
Qed.

(** C10.  On a finite integrated position [p] the ground test is
    [p + 48 >= 800], the 48-pixel hitbox hanging from the top of the
    sprite, and the ceiling test is [p < 0].  The pipe test uses the
    hitbox centred in the sprite instead, the square
    [[184, 232] x [p + 24, p + 72]]: a pipe at [q] with its gap at [gy] is
    hit exactly when that square overlaps the top pipe
    [[q + 2, q + 102] x [0, gy - 2]] or the bottom pipe
    [[q + 2, q + 102] x [gy + 164.5, 800]].  So a body that passes the
    boundary tests passes a pipe it is level with exactly when
    [gy - 2 <= p + 24] and [p + 72 <= gy + 164.5], and a tick that passes
    the boundary tests ends the game exactly when a pipe is hit.  For
    [728 <= p < 752] the lower edge of the centred hitbox is at or below
    the ground line, 800, which is also the lower edge of every bottom
    pipe, and yet neither boundary test fires. *)
Theorem ground_and_pipe_hitboxes_differ (step : number) (g : Game) (p : Q) :
  gameState g = playing ->
  y (physics step (plushpepe g)) = Fin p ->
  let body := physics step (plushpepe g) in
  (ground_collision body = Qle_bool 800 (p + 48) /\
   ceiling_collision body = Qltb p 0 /\
   exists t e : Q,
     plushpepeTop body = Fin t /\ plushpepeBottom body = Fin e /\
     t == p + 24 /\ e == p + 72) /\
  (forall (pipe : Pipe) (q gy : Q),
     x pipe = Fin q -> gapY pipe = Fin gy ->
     pipe_collision body pipe
     = (Qltb (q + 2) 232 && Qltb 184 (q + 102)) &&
       ((Qltb 0 (p + 72) && Qltb (p + 24) (gy - 2)) ||
        (Qltb (gy + 164.5) (p + 72) && Qltb (p + 24) 800))) /\
  (0 <= p < 752 ->
   (forall (pipe : Pipe) (q gy : Q),
      x pipe = Fin q -> gapY pipe = Fin gy -> 82 < q < 230 ->
      (pipe_collision body pipe = false <-> gy - 2 <= p + 24 /\ p + 72 <= gy + 164.5)) /\
   gameState (update step g)
   = if existsb (pipe_collision body) (pipes (update step g)) then gameover else playing) /\
  (728 <= p < 752 ->
   ground_collision body = false /\
   ceiling_collision body = false /\
   (exists e : Q, plushpepeBottom body = Fin e /\ 800 <= e /\
                  forall pipe, same_number (bottom (bottomPipe (getPipeCollisionBounds pipe)))
                                           (Fin 800)) /\
   gameState (update step g)
   = if existsb (pipe_collision body) (pipes (update step g)) then gameover else playing).
Proof.
  intros Hplay Hy body. subst body.
  destruct (ground_collision_finite _ p Hy) as (Hg & Hc).
  destruct (hitbox_edges _ p Hy) as (t & e & Ht & He & Hteq & Heeq).
  assert (Hstate : 0 <= p < 752 ->
            gameState (update step g)
            = if existsb (pipe_collision (physics step (plushpepe g)))
                         (pipes (update step g))
              then gameover else playing).
  { intros Hp.
    assert (Hg' : ground_collision (physics step (plushpepe g)) = false).
    { rewrite Hg. apply Qle_bool_false. lra. }
    assert (Hc' : ceiling_collision (physics step (plushpepe g)) = false).
    { rewrite Hc. apply Qltb_false. lra. }
    destruct (update_collision_order_aux step g Hplay) as (_ & Hcases).
    rewrite Hg', Hc' in Hcases. apply Hcases. }
  split; [|split; [|split]].
  - split; [exact Hg|]. split; [exact Hc|]. exists t, e. auto.
  - intros pipe q gy Hx Hgap. apply pipe_collision_finite; assumption.
  - intros Hp. split; [|apply Hstate; exact Hp].
    intros pipe q gy Hx Hgap Hq.
    rewrite (pipe_collision_finite _ pipe p q gy Hy Hx Hgap).
    assert (E1 : Qltb (q + 2) 232 = true) by (apply Qltb_true; lra).
    assert (E2 : Qltb 184 (q + 102) = true) by (apply Qltb_true; lra).
    assert (E3 : Qltb 0 (p + 72) = true) by (apply Qltb_true; lra).
    assert (E4 : Qltb (p + 24) 800 = true) by (apply Qltb_true; lra).
    rewrite E1, E2, E3, E4. cbn [andb]. rewrite andb_true_r.
    rewrite orb_false_iff, !Qltb_false. reflexivity.
  - intros Hp.
    split; [rewrite Hg; apply Qle_bool_false; lra|].
    split; [rewrite Hc; apply Qltb_false; lra|].
    split; [|apply Hstate; lra].
    exists e. split; [exact He|]. split; [lra|]. intros pipe. reflexivity.
Qed.

Lemma ground_and_pipe_hitboxes_differ_witness :
  (let step := Fin 1 in
   let g := low_game in
   let p := 730 + (0 + 0.4 * 1) * 1 in
   let body := physics step (plushpepe g) in
   gameState g = playing /\ y body = Fin p /\ 728 <= p < 752 /\
   ground_collision body = false /\
   (exists e : Q, plushpepeBottom body = Fin e /\ 800 <= e) /\
   gameState (update step g) = playing) /\
  (let step := Fin 1 in
   let g := grazing_game in
   let p := 400 + (0 + 0.4 * 1) * 1 in
   let body := physics step (plushpepe g) in
   let pipe := {| x := Fin 155.975; gapY := Fin 300; scored := false |} in
   gameState g = playing /\ y body = Fin p /\ 0 <= p < 752 /\
   p + 48 < 300 + 164.5 < p + 72 /\
   pipe_collision body pipe = true /\
   gameState (update step g) = gameover).
Proof.
  cbv zeta. split.
  - assert (Hplay : gameState low_game = playing) by still_playing.
    assert (Hy : y (physics (Fin 1) (plushpepe low_game)) = Fin (730 + (0 + 0.4 * 1) * 1))
      by reflexivity.
    assert (Hp : 728 <= 730 + (0 + 0.4 * 1) * 1 < 752) by lra.
    destruct (ground_and_pipe_hitboxes_differ (Fin 1) low_game _ Hplay Hy)
      as (_ & _ & _ & Hlow).
    destruct (Hlow Hp) as (Hg & _ & (e & He & Hge & _) & Hstate).
    split; [exact Hplay|]. split; [exact Hy|]. split; [exact Hp|].
    split; [exact Hg|]. split; [exists e; auto|].
    apply low_game_tick.
  - assert (Hplay : gameState grazing_game = playing) by still_playing.
    assert (Hy : y (physics (Fin 1) (plushpepe grazing_game))
                 = Fin (400 + (0 + 0.4 * 1) * 1)) by reflexivity.
    destruct (ground_and_pipe_hitboxes_differ (Fin 1) grazing_game _ Hplay Hy)
      as (_ & Hpipe & _).
    split; [exact Hplay|]. split; [exact Hy|]. split; [lra|]. split; [lra|].
    split; [|apply grazing_game_tick].
    rewrite (Hpipe {| x := Fin 155.975; gapY := Fin 300; scored := false |}
                   155.975 300 eq_refl eq_refl).
    reflexivity.
Defined.
(** ** The fart sprite *)

Lemma Qdiv_6 (p : Q) : p / 6 * 6 == p.
Proof. field. Qed.

(** The opacity of the fart sprite for a finite timer value: a number
    between 0 and 1, which is 0 when the timer is at its start value of
    30 (or above) and when it has run out, 1 while the timer is above 6
    and at most 24, and rises and falls linearly in between. *)
Theorem getFartOpacity_range (t : Q) :
  exists o : Q,
    getFartOpacity (Fin t) = Fin o /\
    0 <= o <= 1 /\
    (30 <= t -> o == 0) /\
    (24 < t < 30 -> o * 6 == 30 - t) /\
    (6 < t <= 24 -> o == 1) /\
    (0 <= t <= 6 -> o * 6 == t) /\
    (t <= 0 -> o == 0).
Proof.
  unfold getFartOpacity, FART_DURATION, FART_FADE_IN_DURATION, FART_FADE_OUT_DURATION.
  cbv zeta. fin. unfold ndiv.
  assert (E6 : Qeq_bool 6 0 = false) by reflexivity.
  set (r := qmax 0 (qmin 30 t)).
  assert (Hr : 0 <= r <= 30 /\ (0 <= t <= 30 -> r == t) /\ (30 <= t -> r == 30)
               /\ (t <= 0 -> r == 0)).
  { subst r. unfold qmax, qmin. qcases; repeat split; intros; lra. }
  destruct Hr as (Hr & Hmid & Hhigh & Hlow).
  rewrite E6. fin. unfold ngt. fin.
  destruct (Qltb (30 + - r) 6) eqn:Ein.
  - apply Qltb_true in Ein.
    pose proof (Qdiv_6 (30 + - r)) as Hd.
    set (d := (30 + - r) / 6) in *.
    eexists. split; [reflexivity|].
    unfold qmax, qmin. qcases; repeat split; intros; try lra.
    all: try (rewrite Hhigh in * by lra; lra).
    all: try (rewrite Hmid in * by lra; lra).
  - apply Qltb_false in Ein.
    destruct (Qltb 6 r) eqn:Efull.
    + apply Qltb_true in Efull. exists 1. split; [reflexivity|].
      repeat split; intros; try lra.
      all: try (rewrite Hmid in * by lra; lra).
      all: try (rewrite Hhigh in * by lra; lra).
      all: try (rewrite Hlow in * by lra; lra).
    + apply Qltb_false in Efull.
      pose proof (Qdiv_6 r) as Hd.
      set (d := r / 6) in *.
      eexists. split; [reflexivity|].
      unfold qmax, qmin. qcases; repeat split; intros; try lra.
      all: try (rewrite Hmid in * by lra; lra).
      all: try (rewrite Hhigh in * by lra; lra).
      all: try (rewrite Hlow in * by lra; lra).
Qed.

(** ** The reach of the body *)

(** The simulation of three flaps in 90 frames gives a climb range of
    124.78 and a fall range of 118.98, so both caps bind: a gap may lie
    at most 95 above and at most 100 below the gap before it. *)
Theorem maneuverability_caps :
  exists c f : Q,
    climb calculatePepeManeuverability = Fin c /\
    fall calculatePepeManeuverability = Fin f /\
    c == 124.78 /\ f == 118.98 /\
    MAX_UPWARD_DELTA = Fin 95 /\ MAX_DOWNWARD_DELTA = Fin 100.
Proof.
  destruct calculatePepeManeuverability_values as (c & f & Hc & Hf & Hcv & Hfv).
  exists c, f.
  split; [exact Hc|]. split; [exact Hf|]. split; [exact Hcv|]. split; [exact Hfv|].
  split; [exact MAX_UPWARD_DELTA_eq | exact MAX_DOWNWARD_DELTA_eq].
Qed.

(** ** The frame loop *)

(** The step of a frame that comes [now - lastTime] ms after the one
    before: that time in frames of 16.67 ms, and never more than 32 ms
    worth of them, however long the pause was. *)
Theorem timeStep_range (now lastTime : Q) :
  lastTime <= now ->
  exists s : Q,
    timeStep (Fin now) (Fin lastTime) = Fin s /\
    0 <= s <= 32 / 16.67 /\
    (now - lastTime <= 32 -> s * 16.67 == now - lastTime) /\
    (32 <= now - lastTime -> s == 32 / 16.67).
Proof.
  intros Htime. unfold timeStep. cbv zeta. fin. unfold ndiv.
  assert (E : Qeq_bool 16.67 0 = false) by reflexivity.
  rewrite E. eexists. split; [reflexivity|].
  set (d := qmin (now + - lastTime) 32).
  assert (Hd : 0 <= d <= 32 /\ (now - lastTime <= 32 -> d == now - lastTime)
               /\ (32 <= now - lastTime -> d == 32)).
  { subst d. unfold qmin. qcases; repeat split; intros; lra. }
  destruct Hd as (Hd & Hshort & Hlong).
  split; [split|split].
  - apply Qle_shift_div_l; [reflexivity | lra].
  - apply Qmult_le_compat_r; [lra | discriminate].
  - intros H. rewrite <- (Hshort H). field.
  - intros H. rewrite (Hlong H). reflexivity.
Qed.

Lemma timeStep_range_witness :
  16 <= 1016 /\
  exists s : Q, timeStep (Fin 1016) (Fin 16) = Fin s /\ s == 32 / 16.67.
Proof.
  assert (H : 16 <= 1016) by lra.
  split; [exact H|].
  destruct (timeStep_range 1016 16 H) as (s & Hs & _ & _ & Hlong).
  exists s. split; [exact Hs|]. apply Hlong. lra.
Defined.

(** ** The game states *)

(** The transitions of the game state: a tick keeps a game that is
    ready or over in its state and takes a playing game to playing or
    to gameover; a jump starts a ready game, keeps a playing game
    playing and makes a finished game ready again. *)
Theorem gameState_transitions (step : number) (g : Game) :
  match gameState g with
  | ready =>
      gameState (update step g) = ready /\ gameState (flap g) = playing
  | playing =>
      (gameState (update step g) = playing \/ gameState (update step g) = gameover) /\
      gameState (flap g) = playing
  | gameover =>
      gameState (update step g) = gameover /\ gameState (flap g) = ready
  end.
Proof.
  destruct (update_fart_keeps step g) as (F1 & _).
  destruct (gameState g) eqn:E.
  - split.
    + rewrite update_not_playing by congruence. exact F1.
    + unfold flap. rewrite E. reflexivity.
  - split.
    + apply update_state_cases. exact E.
    + unfold flap. rewrite E. cbn. exact E.
  - split.
    + rewrite update_not_playing by congruence. exact F1.
    + unfold flap. rewrite E. apply resetGame_fields.
Qed.

(** A tick on a game that is not playing runs the fart timer and
    nothing else: body, pipes, score, clouds and scroll position are
    left alone and no storage call is made, so it returns whether the
    storage throws or not. *)
Theorem update_idle (storageThrows : bool) (step : number) (g : Game) :
  gameState g <> playing ->
  update step g = update_fart step g /\
  update_throwing storageThrows step g = Returned (update step g) /\
  plushpepe (update step g) = plushpepe g /\
  pipes (update step g) = pipes g /\
  globalScore (update step g) = globalScore g /\
  clouds (update step g) = clouds g /\
  sharedScrollPosition (update step g) = sharedScrollPosition g /\
  random (update step g) = random g.
Proof.
  intros Hn. rewrite (update_throwing_idle storageThrows step g Hn).
  rewrite (update_not_playing step g Hn).
  split; [reflexivity|]. split; [reflexivity|].
  unfold update_fart. stage_cases; repeat split.
Qed.

Lemma update_idle_witness :
  gameState crashed_game <> playing /\
  update (Fin 1) crashed_game = update_fart (Fin 1) crashed_game /\
  update_throwing true (Fin 1) crashed_game = Returned (update (Fin 1) crashed_game).
Proof.
  assert (H : gameState crashed_game <> playing).
  { rewrite crashed_game_over. discriminate. }
  split; [exact H|].
  destruct (update_idle true (Fin 1) crashed_game H) as (H1 & H2 & _).
  split; assumption.
Defined.

(** ** Clouds *)

Lemma filter_length_le {A} (f : A -> bool) (l : list A) :
  (length (filter f l) <= length l)%nat.
Proof.
  induction l as [|a l IH]; cbn [filter length]; [lia|].
  destruct (f a); cbn [length]; lia.
Qed.

(** A cloud is due when the timer has reached 420: the variance of the
    spawn interval is 0. *)
Lemma cloud_due (t r : Q) :
  (Fin t >=? CLOUD_SPAWN_INTERVAL
             + (Fin r * CLOUD_SPAWN_VARIANCE - half CLOUD_SPAWN_VARIANCE))%js
  = Qle_bool 420 t.
Proof.
  unfold CLOUD_SPAWN_INTERVAL, CLOUD_SPAWN_VARIANCE. fin.
  destruct (Qle_bool 420 t) eqn:E.
  - apply Qle_bool_iff in E. apply Qle_bool_iff. lra.
  - apply Qle_bool_false in E. apply Qle_bool_false. lra.
Qed.

(** The cloud stage of a tick: afterwards every cloud is right of
    -200, a cloud that has drifted further left being dropped.  While
    the spawn timer stays below 420 the stage adds no cloud, advances
    the timer by the step and uses one draw; once the timer reaches 420
    it adds one cloud at most, resets the timer to 0 and uses three
    draws. *)
Theorem update_clouds_pruned (s t : Q) (g : Game) :
  cloudSpawnTimer g = Fin t ->
  let after := update_clouds (Fin s) g in
  Forall (fun c => (cloud_x c >? Fin (-200))%js = true) (clouds after) /\
  (t + s < 420 ->
   cloudSpawnTimer after = Fin (t + s) /\
   (length (clouds after) <= length (clouds g))%nat /\
   forall n, random after n = random g (S n)) /\
  (420 <= t + s ->
   cloudSpawnTimer after = Fin 0 /\
   (length (clouds after) <= S (length (clouds g)))%nat /\
   forall n, random after n = random g (3 + n)%nat).
Proof.
  intros Ht. cbv zeta.
  destruct g as [gs b ps score hs best cl ct sc ft fv rng].
  cbn [cloudSpawnTimer] in Ht. subst ct.
  unfold update_clouds, with_random, Math_random.
  cbn [random set_cloudSpawnTimer cloudSpawnTimer set_random nadd].
  rewrite cloud_due.
  destruct (Qle_bool 420 (t + s)) eqn:E;
    [apply Qle_bool_iff in E | apply Qle_bool_false in E];
    cbn [clouds set_clouds set_cloudSpawnTimer set_random cloudSpawnTimer random].
  - split; [apply Forall_forall; intros c Hc; apply filter_In in Hc; apply Hc|].
    split; [intros H; lra|]. intros _.
    split; [reflexivity|]. split; [|intros n; reflexivity].
    eapply Nat.le_trans; [apply filter_length_le|].
    rewrite length_map, length_app. cbn [length]. lia.
  - split; [apply Forall_forall; intros c Hc; apply filter_In in Hc; apply Hc|].
    split; [|intros H; lra]. intros _.
    split; [reflexivity|]. split; [|intros n; reflexivity].
    eapply Nat.le_trans; [apply filter_length_le|].
    rewrite length_map. lia.
Qed.

Lemma update_clouds_pruned_witness :
  cloudSpawnTimer started_game = Fin 0 /\
  cloudSpawnTimer (update_clouds (Fin 1) started_game) = Fin (0 + 1) /\
  clouds (update_clouds (Fin 1) started_game) = [].
Proof.
  assert (Ht : cloudSpawnTimer started_game = Fin 0)
    by (rewrite started_game_explicit; reflexivity).
  split; [exact Ht|].
  destruct (update_clouds_pruned 1 0 started_game Ht) as (_ & Hwait & _).
  destruct (Hwait ltac:(lra)) as (Htimer & Hlen & _).
  split; [exact Htimer|].
  assert (Hnone : clouds started_game = [])
    by (rewrite started_game_explicit; reflexivity).
  rewrite Hnone in Hlen.
  destruct (clouds (update_clouds (Fin 1) started_game)); [reflexivity|].
  cbn [length] in Hlen. lia.
Defined.

(** ** The pipes in play *)

(** In every game play can reach there are three pipes, 350 apart and
    none further left than -104, and the gap of each is a finite number
    in the safe range from 130 to 507.5. *)
Theorem pipes_in_play (g : Game) :
  reachable g ->
  pool_spaced (pipes g) /\ pool_in_view (pipes g) /\ Forall gap_safe (pipes g).
Proof.
  intros Hreach. destruct (reachable_pool g Hreach) as (H1 & H2).
  split; [exact H1|]. split; [apply reachable_in_view; exact Hreach | exact H2].
Qed.

Lemma pipes_in_play_witness :
  reachable started_game /\
  pool_spaced (pipes started_game) /\ Forall gap_safe (pipes started_game).
Proof.
  split; [exact started_game_reachable|].
  destruct (pipes_in_play started_game started_game_reachable) as (H1 & _ & H2).
  split; assumption.
Defined.

Example unchained_game_frame :
  let step := timeStep (Fin 16.67) (Fin 0) in
  let after := update step unchained_game in
  gameState after = playing /\
  map gapY (pipes after) = [Fin 170; Fin 225; Fin 320] /\
  Forall2 same_number (map x (pipes after)) [Fin 944.975; Fin 244.975; Fin 594.975] /\
  (Fin 170 <? Fin 320 - MAX_UPWARD_DELTA)%js = true.
Proof.
  cbv zeta. concrete; evaluate. repeat split; repeat constructor.
Qed.

(** When a frame recycles a pipe of a pool as play keeps it, the pipe
    has already been moved to the right end when [reduce] looks for the
    rightmost pipe, so [rightmostPipe] is the recycled pipe itself: its
    new gap is generated from the gap that same pipe had before, not
    from the gap of the pipe it now follows. *)
Theorem recycled_gap_anchored_on_itself (now lastTime : Q) (g : Game) :
  pool_spaced (pipes g) -> Forall gap_safe (pipes g) ->
  gameState g = playing ->
  let step := timeStep (Fin now) (Fin lastTime) in
  let body := physics step (plushpepe g) in
  let after := snd (loop (Fin now) (Fin lastTime, g)) in
  ground_collision body || ceiling_collision body = false ->
  forall (i : nat) (p : Pipe),
    nth_error (pipes g) i = Some p -> recycles step p = true ->
    exists p',
      nth_error (pipes after) i = Some p' /\
      gapY p' = fst (randomGapY (Some (gapY p))
                                (random (update_clouds step (integrated step g)))) /\
      scored p' = false.
Proof.
  intros Hsp Hsafe Hplay. cbv zeta. cbn [loop snd].
  destruct (timeStep_bound now lastTime) as (s & Hstep & Hs). rewrite Hstep.
  intros Hbound i p Hnth Hrec.
  destruct (update_collision_order_aux (Fin s) g Hplay) as (_ & Hcases).
  rewrite Hbound in Hcases. destruct Hcases as (Hp & _). rewrite Hp.
  destruct (update_clouds_keeps (Fin s) (integrated (Fin s) g)) as (_ & _ & U3 & _).
  destruct (integrated_keeps (Fin s) g) as (_ & _ & I3 & _).
  assert (Hpg : pipes (update_clouds (Fin s) (integrated (Fin s) g)) = pipes g)
    by (rewrite U3; exact I3).
  rewrite <- Hpg in Hsp, Hsafe, Hnth.
  destruct (update_pipes_spaced s _ Hsp Hsafe Hs) as (_ & _ & Hanchor).
  apply (Hanchor i p Hnth Hrec).
Qed.

Lemma recycled_gap_anchored_on_itself_witness :
  let g := unchained_game in
  let step := timeStep (Fin 16.67) (Fin 0) in
  let after := snd (loop (Fin 16.67) (Fin 0, g)) in
  pool_spaced (pipes g) /\ Forall gap_safe (pipes g) /\ gameState g = playing /\
  map gapY (pipes g) = [Fin 130; Fin 225; Fin 320] /\
  (exists p',
     nth_error (pipes after) 0 = Some p' /\
     gapY p' = fst (randomGapY (Some (Fin 130))
                               (random (update_clouds step (integrated step g))))) /\
  map gapY (pipes after) = [Fin 170; Fin 225; Fin 320].
Proof.
  cbv zeta.
  assert (Hplay : gameState unchained_game = playing) by still_playing.
  assert (Hsp : pool_spaced (pipes unchained_game)).
  { unfold pool_spaced. do 6 eexists. split; [reflexivity|]. cbn [x].
    split; [reflexivity|]. split; [reflexivity|]. split; [reflexivity|].
    split; [lra|]. split; [lra|]. split; [lra|]. left. split; lra. }
  assert (Hsafe : Forall gap_safe (pipes unchained_game)).
  { repeat constructor; unfold gap_safe; cbn [gapY]; eexists;
      (split; [reflexivity|]); lra. }
  assert (Hbound : ground_collision
                     (physics (timeStep (Fin 16.67) (Fin 0)) (plushpepe unchained_game))
                   || ceiling_collision
                        (physics (timeStep (Fin 16.67) (Fin 0)) (plushpepe unchained_game))
                   = false) by reflexivity.
  split; [exact Hsp|]. split; [exact Hsafe|]. split; [exact Hplay|].
  split; [reflexivity|].
  split; [|apply unchained_game_frame].
  destruct (recycled_gap_anchored_on_itself 16.67 0 unchained_game Hsp Hsafe Hplay
              Hbound 0%nat _ eq_refl eq_refl) as (p' & Hnth & Hgap & _).
  exists p'. split; [exact Hnth | exact Hgap].
Defined.

(** ** The gap generator *)

(** With no previous gap the generator uses one draw and returns a whole
    pixel from the middle half of the safe range, 224 to 413. *)
Theorem first_gap_in_middle_half (rng : RNG) :
  unit_draws rng ->
  exists g1 : Q,
    randomGapY None rng = (Fin g1, fun n => rng (S n)) /\ 224 <= g1 <= 413.
Proof. apply randomGapY_first_gap. Qed.

Lemma first_gap_in_middle_half_witness :
  unit_draws (const_rng 0.5) /\
  exists g1 : Q,
    randomGapY None (const_rng 0.5) = (Fin g1, fun n => const_rng 0.5 (S n)) /\
    224 <= g1 <= 413.
Proof.
  assert (Hu : unit_draws (const_rng 0.5)) by (intros n; unfold const_rng; lra).
  split; [exact Hu|]. exact (first_gap_in_middle_half (const_rng 0.5) Hu).
Defined.

(** A gap generated from a gap in the safe range lies less than 96
    above it and at most 100 below it, in the safe range again, and the
    draws left over are draws of [Math.random()] still. *)
Theorem next_gap_within_reach (g : Q) (rng : RNG) :
  unit_draws rng -> 130 <= g <= 507.5 ->
  exists gap : Q,
    fst (randomGapY (Some (Fin g)) rng) = Fin gap /\
    130 <= gap <= 507.5 /\ g - 96 < gap <= g + 100 /\
    unit_draws (snd (randomGapY (Some (Fin g)) rng)).
Proof.
  intros Hu Hg.
  destruct (randomGapY_reachable g rng Hu Hg) as (gap & H1 & H2 & H3 & _ & H5).
  exists gap. auto.
Qed.

Lemma next_gap_within_reach_witness :
  unit_draws (list_rng [0.5; 0] 0.5) /\ 130 <= 318 <= 507.5 /\
  exists gap : Q,
    fst (randomGapY (Some (Fin 318)) (list_rng [0.5; 0] 0.5)) = Fin gap /\
    318 - 96 < gap <= 318 + 100.
Proof.
  assert (Hu : unit_draws (list_rng [0.5; 0] 0.5)).
  { intros [|[|[|n]]]; unfold list_rng; cbn [nth]; lra. }
  assert (Hg : 130 <= 318 <= 507.5) by lra.
  split; [exact Hu|]. split; [exact Hg|].
  destruct (next_gap_within_reach 318 _ Hu Hg) as (gap & H1 & _ & H3 & _).
  exists gap. auto.
Defined.

Lemma inject_Z_minus (a b : Z) : inject_Z (a - b) == inject_Z a - inject_Z b.
Proof. unfold Zminus. rewrite inject_Z_plus, inject_Z_opp. reflexivity. Qed.

(** From a whole-pixel gap [z] in the safe range the generator returns
    a whole-pixel gap again, at most 95 above [z] and at most 100 below
    it, 40 or more away from it, between 130 and 507. *)
Theorem next_gap_whole_pixel (z : Z) (rng : RNG) :
  unit_draws rng -> 130 <= inject_Z z <= 507.5 ->
  exists (gap : Q) (z' : Z),
    fst (randomGapY (Some (Fin (inject_Z z))) rng) = Fin gap /\
    gap == inject_Z z' /\
    (z - 95 <= z' <= z + 100)%Z /\ (130 <= z' <= 507)%Z /\
    (40 <= Z.abs (z' - z))%Z.
Proof.
  intros Hu Hg. set (g := inject_Z z) in *.
  rewrite randomGapY_some. cbv zeta. cbn [fst].
  destruct (tier_window (rng 0%nat) g Hg) as (Hlo & Hle & Hhi).
  destruct (tier_inside_reach (rng 0%nat) g Hg) as (Hrl & Hrh).
  destruct (resample_first (pred maxAttempts) (tier_lo (rng 0%nat) g)
              (tier_hi (rng 0%nat) g) g (fun n => rng (S n)))
    as (k & _ & _ & _ & Ht & _).
  rewrite Ht.
  set (t := candidate (tier_lo (rng 0%nat) g) (tier_hi (rng 0%nat) g) (rng (S k))) in *.
  destruct (candidate_bounds _ _ (rng (S k)) (Hu (S k)) Hle) as (Hthi & _ & _ & Htlo).
  fold t in Hthi, Htlo.
  assert (Htr : 130 <= t <= 507.5).
  { split; [apply (Htlo 130%Z); exact Hlo | lra]. }
  assert (Htup : g - 95 <= t).
  { assert (H : inject_Z (z - 95) <= t).
    { apply Htlo. rewrite inject_Z_minus. fold g.
      change (inject_Z 95) with 95. lra. }
    rewrite inject_Z_minus in H. fold g in H.
    change (inject_Z 95) with 95 in H. lra. }
  destruct (force_delta_spec g t Hg Htr) as (q & Hq & Hqr & Hqd & _).
  destruct (force_delta_value g t Hg) as (q' & Hq' & Hfar & Hnear).
  assert (q' = q) by congruence. subst q'.
  rewrite Hq.
  destruct (clamp_gap_id q Hqr) as (gap & Hgap & Heq).
  rewrite Hgap.
  assert (Hwhole : exists z' : Z, q == inject_Z z' /\ g - 95 <= q <= g + 100).
  { destruct (Qlt_le_dec (Qabs (t - g)) 40) as [Hclose|Hok].
    - specialize (Hnear Hclose). unfold forced_gap in Hnear.
      destruct (Qle_bool (reach_lo g) (g - 40)) eqn:E.
      + apply Qle_bool_iff in E. exists (z - 40)%Z. rewrite inject_Z_minus. fold g.
        change (inject_Z 40) with 40. split; [lra|].
        revert E. unfold reach_lo, qmax. qcases; intros; lra.
      + apply Qle_bool_false in E. exists (z + 40)%Z. rewrite inject_Z_plus. fold g.
        change (inject_Z 40) with 40. split; [lra|].
        revert E. unfold reach_lo, qmax. qcases; intros; lra.
    - rewrite (Hfar Hok). exists (Qfloor (tier_lo (rng 0%nat) g
                                          + rng (S k) * (tier_hi (rng 0%nat) g
                                                         - tier_lo (rng 0%nat) g))).
      split; [reflexivity|]. lra. }
  destruct Hwhole as (z' & Hz' & Hreach).
  exists gap, z'. split; [reflexivity|]. split; [rewrite Heq; exact Hz'|].
  rewrite Hz' in Hreach, Hqr, Hqd. unfold g in Hreach, Hqd.
  assert (H130 : inject_Z 130 <= inject_Z z') by (change (inject_Z 130) with 130; lra).
  assert (H507 : inject_Z z' < inject_Z 508) by (change (inject_Z 508) with 508; lra).
  assert (Hup : inject_Z (z - 95) <= inject_Z z').
  { rewrite inject_Z_minus. change (inject_Z 95) with 95. lra. }
  assert (Hdown : inject_Z z' <= inject_Z (z + 100)).
  { rewrite inject_Z_plus. change (inject_Z 100) with 100. lra. }
  rewrite <- Zle_Qle in H130, Hup, Hdown. rewrite <- Zlt_Qlt in H507.
  split; [lia|]. split; [lia|].
  assert (Habs : inject_Z 40 <= inject_Z (Z.abs (z' - z))).
  { change (inject_Z 40) with 40.
    change (inject_Z (Z.abs (z' - z))) with (Qabs (inject_Z (z' - z))).
    rewrite inject_Z_minus. exact Hqd. }
  rewrite <- Zle_Qle in Habs. exact Habs.
Qed.

Lemma next_gap_whole_pixel_witness :
  unit_draws (list_rng [0.5; 0] 0.5) /\ 130 <= inject_Z 318 <= 507.5 /\
  exists (gap : Q) (z' : Z),
    fst (randomGapY (Some (Fin (inject_Z 318))) (list_rng [0.5; 0] 0.5)) = Fin gap /\
    gap == inject_Z z' /\ (318 - 95 <= z' <= 318 + 100)%Z.
Proof.
  assert (Hu : unit_draws (list_rng [0.5; 0] 0.5)).
  { intros [|[|[|n]]]; unfold list_rng; cbn [nth]; lra. }
  assert (Hg : 130 <= inject_Z 318 <= 507.5) by (change (inject_Z 318) with 318; lra).
  split; [exact Hu|]. split; [exact Hg|].
  destruct (next_gap_whole_pixel 318 _ Hu Hg) as (gap & z' & H1 & H2 & H3 & _).
  exists gap, z'. auto.
Defined.

(** The restart chains its three gaps: the first comes from the middle
    half of the safe range, and each of the other two is generated from
    the gap right before it, within reach of it and 40 or more away. *)
Theorem restart_chains_gaps (g : Game) :
  unit_draws (random g) ->
  exists g1 g2 g3 : Q,
    map gapY (pipes (resetGame g)) = [Fin g1; Fin g2; Fin g3] /\
    224 <= g1 <= 413 /\
    g1 - 96 < g2 <= g1 + 100 /\ 40 <= Qabs (g2 - g1) /\
    g2 - 96 < g3 <= g2 + 100 /\ 40 <= Qabs (g3 - g2).
Proof.
  intros Hu. destruct (resetGame_fields g) as (_ & _ & _ & _ & _ & Hp). rewrite Hp.
  apply reset_pipes_chained. exact Hu.
Qed.

Lemma restart_chains_gaps_witness :
  unit_draws (random started_game) /\
  exists g1 g2 g3 : Q,
    map gapY (pipes (resetGame started_game)) = [Fin g1; Fin g2; Fin g3] /\
    g1 - 96 < g2 <= g1 + 100 /\ g2 - 96 < g3 <= g2 + 100.
Proof.
  assert (Hu : unit_draws (random started_game)).
  { rewrite started_game_explicit. intros n. cbn [random]. unfold const_rng. lra. }
  split; [exact Hu|].
  destruct (restart_chains_gaps started_game Hu) as (g1 & g2 & g3 & H & _ & H2 & _ & H3 & _).
  exists g1, g2, g3. auto.
Defined.

(** ** Collisions *)

(** Hitting several pipes in one tick is handled like hitting one: the
    second loop ends the game if some pipe is hit and changes nothing
    otherwise, and calling [handleGameOver] again changes nothing. *)
Theorem collisions_handled_once (g : Game) :
  collide_pipes g
  = (if existsb (pipe_collision (plushpepe g)) (pipes g) then handleGameOver g else g) /\
  handleGameOver (handleGameOver g) = handleGameOver g.
Proof. split; [apply collide_pipes_existsb | apply handleGameOver_twice]. Qed.

(** A tick that leaves the game playing leaves the body, if its
    position is finite, strictly inside the playfield, from 0 to less
    than 752, and clear of every pipe. *)
Theorem survivor_inside_playfield (step : number) (g : Game) (p : Q) :
  gameState g = playing ->
  y (physics step (plushpepe g)) = Fin p ->
  gameState (update step g) = playing ->
  0 <= p < 752 /\
  y (plushpepe (update step g)) = Fin p /\
  forall pipe, In pipe (pipes (update step g)) ->
               pipe_collision (plushpepe (update step g)) pipe = false.
Proof.
  intros Hplay Hy Hafter.
  destruct (update_collision_order_aux step g Hplay) as (Hbody & Hcases).
  destruct (ground_collision_finite _ p Hy) as (Hg & Hc).
  rewrite Hg, Hc in Hcases. rewrite Hbody.
  destruct (Qle_bool 800 (p + 48)) eqn:Eg; cbn [orb] in Hcases.
  { destruct Hcases as (Hover & _). congruence. }
  destruct (Qltb p 0) eqn:Ec.
  { destruct Hcases as (Hover & _). congruence. }
  apply Qle_bool_false in Eg. apply Qltb_false in Ec.
  split; [lra|]. split; [exact Hy|].
  destruct Hcases as (_ & Hstate).
  destruct (existsb _ _) eqn:Ehit; [congruence|].
  intros pipe Hin.
  destruct (pipe_collision _ pipe) eqn:E; [|reflexivity].
  assert (Hex : existsb (pipe_collision (physics step (plushpepe g)))
                        (pipes (update step g)) = true).
  { apply existsb_exists. exists pipe. auto. }
  congruence.
Qed.

Lemma survivor_inside_playfield_witness :
  let p := 730 + (0 + 0.4 * 1) * 1 in
  gameState low_game = playing /\
  y (physics (Fin 1) (plushpepe low_game)) = Fin p /\
  gameState (update (Fin 1) low_game) = playing /\
  0 <= p < 752.
Proof.
  cbv zeta.
  assert (Hplay : gameState low_game = playing) by still_playing.
  assert (Hy : y (physics (Fin 1) (plushpepe low_game)) = Fin (730 + (0 + 0.4 * 1) * 1))
    by reflexivity.
  assert (Hafter : gameState (update (Fin 1) low_game) = playing) by apply low_game_tick.
  split; [exact Hplay|]. split; [exact Hy|]. split; [exact Hafter|].
  apply (survivor_inside_playfield (Fin 1) low_game _ Hplay Hy Hafter).
Defined.
